(** * Scheduling and caching core of the miloco AI engine

    A shallow embedding of the C++ sources under
    [miloco_ai_engine/core]: the prefix hash of a chunk list
    ([utils/chunk-hash.cpp]), the KV memory scheduler
    ([utils/llama-memory-scheduling.cpp]), the prompt cropping of
    [utils/mico-dialog-util.h], the two caches
    ([cache_manager/image-embedding-cache.cpp],
    [cache_manager/chunk-infer-cache.cpp]), the encoder scheduler
    ([batch_scheduling/encoder-scheduler.cpp]) and the per-request
    pipeline of [batch_scheduling/batch-scheduler.cpp].

    Integers of the source are modelled as [Z] with the wrap-around of
    their C++ type written out where the code relies on it; [std::string]
    is [string]; [std::unordered_map] and [std::unordered_set] keyed by
    strings are stdpp's [gmap] and [gset]; objects held through
    [std::shared_ptr] and mutated in place live in an explicit heap.
    What other threads and the model runtime do is passed in: clock
    readings, the outcome of an encode or a decode, the answer of
    [llama_memory_seq_pos_max]. *)

From Stdlib Require Import ZArith String Ascii DecimalString Lia.
From stdpp Require Import gmap strings list sorting.

Open Scope Z_scope.

(** ** Input chunks ([mtmd_input_chunk]) *)

(** Modelled from the spec: the chunk type and its accessors are declared
    in [mutil-modal/mtmd.h], which is not among the sources.  The
    specification's chunk is a variant of a run of text tokens and an
    image; the engine reads a chunk's type, its text tokens, its image id
    and its token count. *)
Inductive input_chunk : Type :=
| TextChunk (tokens : list Z)
| ImageChunk (image_id : string) (n_tokens : nat).

Definition is_text (c : input_chunk) : bool :=
  match c with TextChunk _ => true | ImageChunk _ _ => false end.

(** [mtmd_input_chunk_get_n_tokens] *)
Definition chunk_n_tokens (c : input_chunk) : nat :=
  match c with
  | TextChunk tokens => length tokens
  | ImageChunk _ n => n
  end.

(** ** [utils/chunk-hash.cpp] *)
Module ChunkHash.

Definition uint64_modulus : Z := 2 ^ 64.

(** [static_cast<uint64_t>(c)] for a [char c]: [char] is signed on the
    engine's build targets, so bytes from 0x80 on are sign-extended. *)
Definition char_to_uint64 (c : ascii) : Z :=
  let n := Z.of_N (N_of_ascii c) in
  if n <? 128 then n else (n - 256) mod uint64_modulus.

(** One round of the loop body of a multiplicative xor hash over
    [uint64_t]: [hash ^= c; hash *= prime]. *)
Definition hash_round (prime : Z) (hash : Z) (c : Z) : Z :=
  (Z.lxor hash c * prime) mod uint64_modulus.

(** [simple_hash]: the loop of the source, with the source's constants. *)
Definition simple_hash (str : string) : Z :=
  fold_left (fun hash c => hash_round 0x01000193 hash (char_to_uint64 c))
            (list_ascii_of_string str) 0x811c9dc5.

Definition hex_digit (d : Z) : ascii :=
  nth (Z.to_nat d) (list_ascii_of_string "0123456789abcdef") "0"%char.

(** The [n] low hexadecimal digits of [v], most significant first. *)
Fixpoint hex_digits (n : nat) (v : Z) : string :=
  match n with
  | O => EmptyString
  | S k => hex_digits k (v / 16) +:+ String (hex_digit (v mod 16)) EmptyString
  end.

(** [hash_to_hex]: [std::hex], [setfill('0')], [setw(16)] on a
    [uint64_t]. *)
Definition hash_to_hex (hash : Z) : string := hex_digits 16 hash.

(** [ss << tokens[j]] for a [llama_token] (an [int32_t]). *)
Definition token_to_string (t : Z) : string :=
  NilZero.string_of_int (Z.to_int t).

(** [get_chunk_description]: the stream insertions of the source, in
    order. *)
Definition get_chunk_description (chunk : input_chunk) : string :=
  match chunk with
  | TextChunk tokens =>
      fold_left (fun ss t => ss +:+ token_to_string t +:+ ",") tokens EmptyString
  | ImageChunk id _ => "IMG:" +:+ id +:+ ","
  end.

(** The loop of [chunk_hashs]: [prompt_string] grows by one description
    per chunk and one hash is pushed per chunk. *)
Fixpoint chunk_hashs_loop (chunks : list input_chunk) (prompt_string : string)
         (hashes : list string) : list string :=
  match chunks with
  | [] => hashes
  | chunk :: rest =>
      let prompt_string' := prompt_string +:+ get_chunk_description chunk in
      chunk_hashs_loop rest prompt_string'
                       (hashes ++ [hash_to_hex (simple_hash prompt_string')])
  end.

Definition chunk_hashs (input_chunks : list input_chunk) : list string :=
  chunk_hashs_loop input_chunks EmptyString [].

(** *** The specification's reading of the hash *)

(** FNV-1a over 64 bits with a given offset basis and prime, on the
    octets of the string. *)
Definition fnv1a (offset_basis prime : Z) (str : string) : Z :=
  fold_left (fun hash c => hash_round prime hash (Z.of_N (N_of_ascii c)))
            (list_ascii_of_string str) offset_basis.

(** The standard 64-bit FNV-1a parameters. *)
Definition fnv1a_64 : string -> Z := fnv1a 0xcbf29ce484222325 0x100000001b3.

(** A chunk's descriptor as the specification words it: the token ids,
    each followed by a comma; [IMG:<image_id>,] for an image. *)
Definition descriptor (chunk : input_chunk) : string :=
  match chunk with
  | TextChunk tokens =>
      String.concat EmptyString (map (fun t => token_to_string t +:+ ",") tokens)
  | ImageChunk id _ => "IMG:" +:+ id +:+ ","
  end.

(** The concatenation of the descriptors of chunks [0..i]. *)
Definition descriptor_stream (chunks : list input_chunk) (i : nat) : string :=
  String.concat EmptyString (map descriptor (take (S i) chunks)).

(** Two chunks agree: same token ids for text chunks, same image id for
    image chunks. *)
Definition chunks_agree (c1 c2 : input_chunk) : Prop :=
  match c1, c2 with
  | TextChunk t1, TextChunk t2 => t1 = t2
  | ImageChunk id1 _, ImageChunk id2 _ => id1 = id2
  | _, _ => False
  end.

End ChunkHash.

(** ** Single-precision arithmetic

    The engine computes its 80% limits in [float].  A finite binary32
    value is a dyadic rational [mant * 2^expo]; conversions and products
    round to 24 significant bits, ties to even.  The exponent range of
    binary32 is not modelled: the magnitudes that occur (sizes and token
    counts times 0.8 and 2^20) stay far inside it. *)
Module Float32.

Record float32 : Type := { mant : Z; expo : Z }.

(** A magnitude [a] with its [s] low bits rounded away, to nearest and
    ties to even. *)
Definition rounded_quotient (a s : Z) : Z :=
  let q := a / 2 ^ s in
  let r := a mod 2 ^ s in
  if (2 ^ (s - 1) <? r) || ((r =? 2 ^ (s - 1)) && (q mod 2 =? 1)) then q + 1 else q.

(** Rounding of an exact dyadic value to the nearest binary32. *)
Definition round (d : float32) : float32 :=
  let a := Z.abs (mant d) in
  let bits := Z.log2 a + 1 in
  if bits <=? 24 then d
  else
    let s := bits - 24 in
    {| mant := Z.sgn (mant d) * rounded_quotient a s; expo := expo d + s |}.

(** Conversion of an integer ([int32_t], [size_t]) to [float]. *)
Definition of_int (n : Z) : float32 := round {| mant := n; expo := 0 |}.

Definition mul (x y : float32) : float32 :=
  round {| mant := mant x * mant y; expo := expo x + expo y |}.

(** Conversion of a [float] to an integer type: truncation toward zero. *)
Definition to_int (x : float32) : Z :=
  if 0 <=? expo x then mant x * 2 ^ expo x
  else Z.quot (mant x) (2 ^ (- expo x)).

(** The [float] nearest to 0.8, [0x1.99999ap-1]: what both [0.8f] and
    [(float)0.8] denote. *)
Definition f0_8 : float32 := {| mant := 13421773; expo := -24 |}.

(** [n * proportion] as the source computes it, for an integer [n] and
    [float proportion = 0.8], converted back to an integer. *)
Definition scale_0_8 (n : Z) : Z := to_int (mul (of_int n) f0_8).

End Float32.

(** ** [utils/llama-memory-scheduling.cpp] *)
Module MemoryScheduler.

(** The calls the worker makes on the runtime's KV memory. *)
Inductive memory_call : Type :=
| llama_memory_seq_rm (seq_id p0 p1 : Z)
| llama_memory_seq_cp (src_seq_id dest_seq_id p0 p1 : Z).

(** The closures [submit_clear_mem] and [submit_cache_mem] enqueue, by
    their captured arguments. *)
Inductive task : Type :=
| clear_mem (seq_id p0 p1 : Z)
| cache_mem (src_seq_id dest_seq_id p0 p1 : Z).

(** [tasks_]: the FIFO of pending closures. *)
Abbreviation task_queue := (list task) (only parsing).

Definition submit_clear_mem (seq_id p0 p1 : Z) (tasks_ : task_queue) : task_queue :=
  tasks_ ++ [clear_mem seq_id p0 p1].

Definition submit_cache_mem (src_seq_id dest_seq_id p0 p1 : Z) (tasks_ : task_queue)
  : task_queue :=
  tasks_ ++ [cache_mem src_seq_id dest_seq_id p0 p1].

(** Running one closure on the worker.  [seq_pos_max] is what
    [llama_memory_seq_pos_max] answers at that moment; the result is the
    list of mutating calls the closure makes. *)
Definition run_task (seq_pos_max : Z -> Z) (t : task) : list memory_call :=
  match t with
  | clear_mem seq_id p0 p1 => [llama_memory_seq_rm seq_id p0 p1]
  | cache_mem src_seq_id dest_seq_id p0 p1 =>
      let max_pos := seq_pos_max dest_seq_id in
      let p_0 := Z.max p0 (max_pos + 1) in
      if (p_0 <=? p1) || (p1 =? -1)
      then [llama_memory_seq_cp src_seq_id dest_seq_id p_0 p1]
      else []
  end.

(** One turn of the worker's loop [process]: the closure at the front of
    the queue is taken off and run.  [None]: the queue is empty and the
    worker waits. *)
Definition process (seq_pos_max : Z -> Z) (tasks_ : task_queue)
  : option (list memory_call * task_queue) :=
  match tasks_ with
  | [] => None
  | t :: rest => Some (run_task seq_pos_max t, rest)
  end.

(** The position range [[p0, p1)] of a copy holds a position; [p1 = -1]
    stands for an unbounded range. *)
Definition range_nonempty (p0 p1 : Z) : Prop := p1 = -1 \/ p0 < p1.

End MemoryScheduler.

(** ** [utils/mico-dialog-util.h]: cropping the prompt *)
Module DialogUtil.

(** The sum of [mtmd_input_chunk_get_n_tokens] over the chunks. *)
Definition count_tokens (chunks : list input_chunk) : Z :=
  fold_left (fun current_tokens chunk => current_tokens + Z.of_nat (chunk_n_tokens chunk))
            chunks 0.

(** [prompt_limit = n_usage_context * prompt_proportion]. *)
Definition prompt_limit (n_usage_context : Z) : Z := Float32.scale_0_8 n_usage_context.

(** The cropping loop [for (i = chunk_size - 1; i >= 0 && remaining_tokens > 0; --i)].
    [visit] is [i + 1]; [new_chunks] receives each kept chunk at its
    front. *)
Fixpoint crop_loop (chunks : list input_chunk) (visit : nat) (remaining_tokens : Z)
         (new_chunks : list input_chunk) : list input_chunk :=
  match visit with
  | O => new_chunks
  | S i =>
      if remaining_tokens <=? 0 then new_chunks
      else
        match chunks !! i with
        | None => new_chunks
        | Some (TextChunk tokens) =>
            let n_tokens_chunk := Z.of_nat (length tokens) in
            let tokens_to_keep := Z.min n_tokens_chunk remaining_tokens in
            if 0 <? tokens_to_keep then
              let new_tokens := drop (Z.to_nat (n_tokens_chunk - tokens_to_keep)) tokens in
              crop_loop chunks i (remaining_tokens - tokens_to_keep)
                        (TextChunk new_tokens :: new_chunks)
            else crop_loop chunks i remaining_tokens new_chunks
        | Some (ImageChunk id n) =>
            if Z.of_nat n <=? remaining_tokens then
              crop_loop chunks i (remaining_tokens - Z.of_nat n)
                        (ImageChunk id n :: new_chunks)
            else new_chunks
        end
  end.

(** [limit_prompt_tokens]: the chunk list the caller holds afterwards. *)
Definition limit_prompt_tokens (chunks : list input_chunk) (n_usage_context : Z)
  : list input_chunk :=
  let prompt_limit := prompt_limit n_usage_context in
  let current_tokens := count_tokens chunks in
  if prompt_limit <? current_tokens
  then crop_loop chunks (length chunks) prompt_limit []
  else chunks.

(** *** Crop-from-tail as the specification words it

    The walk goes from the last chunk to the first while budget remains.
    A text chunk is kept with its last [min budget length] tokens (a chunk
    of which no token is kept leaves no chunk behind); an image chunk is
    kept whole when it fits the budget, and otherwise it is discarded and
    the walk ends.  [later_first] lists the chunks last to first; the
    result is in prompt order. *)
Fixpoint crop_from_tail (later_first : list input_chunk) (budget : Z) : list input_chunk :=
  match later_first with
  | [] => []
  | chunk :: earlier =>
      if budget <=? 0 then []
      else
        match chunk with
        | TextChunk tokens =>
            let kept := Z.min budget (Z.of_nat (length tokens)) in
            crop_from_tail earlier (budget - kept)
            ++ (if 0 <? kept
                then [TextChunk (drop (length tokens - Z.to_nat kept)%nat tokens)]
                else [])
        | ImageChunk id n =>
            if Z.of_nat n <=? budget
            then crop_from_tail earlier (budget - Z.of_nat n) ++ [chunk]
            else []
        end
  end.

(** The prompt as the model consumes it: the text tokens one by one and
    each image as one item. *)
Definition prompt_items (chunks : list input_chunk) : list (Z + string * nat) :=
  chunks ≫= (fun chunk => match chunk with
                          | TextChunk tokens => inl <$> tokens
                          | ImageChunk id n => [inr (id, n)]
                          end).

End DialogUtil.

(** Conversion of an integer value to [size_t]. *)
Definition to_size_t (z : Z) : Z := z mod 2 ^ 64.

(** Conversion of an integer value to [int32_t] (two's complement). *)
Definition to_int32 (z : Z) : Z := (z + 2 ^ 31) mod 2 ^ 32 - 2 ^ 31.

(** ** [cache_manager/image-embedding-cache.cpp] *)
Module ImageEmbeddingCache.

Record CacheStats : Type := {
  total_entries : Z;
  hits : Z;
  misses : Z;
  total_memory_usage : Z
}.

(** [std::vector<float>]: the floats by their bit patterns. *)
Abbreviation embedding := (list Z) (only parsing).

(** The cache object.  Clock readings are in nanoseconds, the tick of
    [std::chrono::steady_clock]. *)
Record cache : Type := {
  image_wait_set_ : gset string;
  image_stored_map_ : gmap string embedding;
  embed_order : list string;
  stats_ : CacheStats;
  last_maintenance_ : Z;
  max_memory_usage_ : Z;
  max_num_entries_ : Z;
  maintenance_interval_ : Z
}.

(** The constructor; [maintenance_interval_] has its in-class initialiser. *)
Definition new_cache (max_entries max_mem now : Z) : cache :=
  {| image_wait_set_ := ∅;
     image_stored_map_ := ∅;
     embed_order := [];
     stats_ := {| total_entries := 0; hits := 0; misses := 0; total_memory_usage := 0 |};
     last_maintenance_ := now;
     max_memory_usage_ := max_mem;
     max_num_entries_ := max_entries;
     maintenance_interval_ := 5000 |}.

Definition image_hash (chunk : input_chunk) : string :=
  match chunk with
  | TextChunk _ => EmptyString
  | ImageChunk id _ => id
  end.

Definition prepare (chunk : input_chunk) (c : cache) : string * cache :=
  let res := image_hash chunk in
  if decide (res = EmptyString) then (res, c)
  else if decide (res ∈ image_wait_set_ c) then (EmptyString, c)
  else if decide (is_Some (image_stored_map_ c !! res)) then (EmptyString, c)
  else (res,
        {| image_wait_set_ := {[res]} ∪ image_wait_set_ c;
           image_stored_map_ := image_stored_map_ c;
           embed_order := embed_order c;
           stats_ := stats_ c;
           last_maintenance_ := last_maintenance_ c;
           max_memory_usage_ := max_memory_usage_ c;
           max_num_entries_ := max_num_entries_ c;
           maintenance_interval_ := maintenance_interval_ c |}).

(** [sizeof(float)] times the length of a stored vector. *)
Definition byte_size (v : embedding) : Z := Z.of_nat (length v) * 4.

(** The eviction loop of [maintain]: while a counter is above its target
    and the order list is not empty, drop the key at the front. *)
Fixpoint evict_loop (target_entries target_memory_usage : Z)
         (order : list string) (stored : gmap string embedding)
         (total_entries total_memory_usage : Z)
  : list string * gmap string embedding * Z * Z :=
  match order with
  | [] => (order, stored, total_entries, total_memory_usage)
  | key :: rest =>
      if (to_size_t target_entries <? total_entries)
         || (to_size_t target_memory_usage <? total_memory_usage)
      then
        let size := match stored !! key with Some value => byte_size value | None => 0 end in
        evict_loop target_entries target_memory_usage rest (delete key stored)
                   (to_size_t (total_entries - 1)) (to_size_t (total_memory_usage - size))
      else (order, stored, total_entries, total_memory_usage)
  end.

(** [duration_cast<microseconds>(now - last_maintenance_).count()] *)
Definition time_since_maintenance (now : Z) (c : cache) : Z :=
  Z.quot (now - last_maintenance_ c) 1000.

(** The guard of [maintain]: [need_maintain] after both tests. *)
Definition need_maintain (now : Z) (c : cache) : bool :=
  let max_memory_byte := to_size_t (max_memory_usage_ c * 1024 * 1024) in
  negb (time_since_maintenance now c <? maintenance_interval_ c)
  && negb ((total_entries (stats_ c) <? max_num_entries_ c)
           && (total_memory_usage (stats_ c) <? max_memory_byte)).

Definition target_entries (c : cache) : Z := Float32.scale_0_8 (max_num_entries_ c).

Definition target_memory_usage (c : cache) : Z :=
  Float32.to_int
    (Float32.mul
       (Float32.mul (Float32.mul (Float32.of_int (max_memory_usage_ c)) Float32.f0_8)
                    (Float32.of_int 1024))
       (Float32.of_int 1024)).

Definition maintain (now : Z) (c : cache) : cache :=
  if negb (need_maintain now c) then c
  else
    let '(order, stored, _, total_memory_usage) :=
      evict_loop (target_entries c) (target_memory_usage c)
                 (embed_order c) (image_stored_map_ c)
                 (total_entries (stats_ c)) (total_memory_usage (stats_ c)) in
    {| image_wait_set_ := image_wait_set_ c;
       image_stored_map_ := stored;
       embed_order := order;
       stats_ := {| total_entries := Z.of_nat (length order);
                    hits := hits (stats_ c);
                    misses := misses (stats_ c);
                    total_memory_usage := total_memory_usage |};
       last_maintenance_ := now;
       max_memory_usage_ := max_memory_usage_ c;
       max_num_entries_ := max_num_entries_ c;
       maintenance_interval_ := maintenance_interval_ c |}.

(** [std::find] followed by [erase]: the first occurrence goes. *)
Fixpoint erase_first (key : string) (order : list string) : list string :=
  match order with
  | [] => []
  | k :: rest => if decide (k = key) then rest else k :: erase_first key rest
  end.

Definition store (now : Z) (chunk : input_chunk) (embeddings : embedding) (c : cache)
  : bool * cache :=
  let key := image_hash chunk in
  if decide (key = EmptyString) then (false, c)
  else
    let c := maintain now c in
    (true,
     {| image_wait_set_ := image_wait_set_ c ∖ {[key]};
        image_stored_map_ := <[key := embeddings]> (image_stored_map_ c);
        embed_order := erase_first key (embed_order c) ++ [key];
        stats_ := {| total_entries := to_size_t (total_entries (stats_ c) + 1);
                     hits := hits (stats_ c);
                     misses := misses (stats_ c);
                     total_memory_usage :=
                       to_size_t (total_memory_usage (stats_ c) + byte_size embeddings) |};
        last_maintenance_ := last_maintenance_ c;
        max_memory_usage_ := max_memory_usage_ c;
        max_num_entries_ := max_num_entries_ c;
        maintenance_interval_ := maintenance_interval_ c |}).

Definition update_stats (hit : bool) (s : CacheStats) : CacheStats :=
  {| total_entries := total_entries s;
     hits := if hit then to_size_t (hits s + 1) else hits s;
     misses := if hit then misses s else to_size_t (misses s + 1);
     total_memory_usage := total_memory_usage s |}.

Definition lookup (chunk : input_chunk) (c : cache) : option embedding * cache :=
  let key := image_hash chunk in
  if decide (key = EmptyString) then (None, c)
  else
    match image_stored_map_ c !! key with
    | Some value =>
        (Some value,
         {| image_wait_set_ := image_wait_set_ c;
            image_stored_map_ := image_stored_map_ c;
            embed_order := if decide (key ∈ embed_order c)
                           then erase_first key (embed_order c) ++ [key]
                           else embed_order c;
            stats_ := update_stats true (stats_ c);
            last_maintenance_ := last_maintenance_ c;
            max_memory_usage_ := max_memory_usage_ c;
            max_num_entries_ := max_num_entries_ c;
            maintenance_interval_ := maintenance_interval_ c |})
    | None =>
        (None,
         {| image_wait_set_ := image_wait_set_ c;
            image_stored_map_ := image_stored_map_ c;
            embed_order := embed_order c;
            stats_ := update_stats false (stats_ c);
            last_maintenance_ := last_maintenance_ c;
            max_memory_usage_ := max_memory_usage_ c;
            max_num_entries_ := max_num_entries_ c;
            maintenance_interval_ := maintenance_interval_ c |})
    end.

Definition waiting (chunk : input_chunk) (c : cache) : bool :=
  let key := image_hash chunk in
  if decide (key = EmptyString) then false
  else bool_decide (key ∈ image_wait_set_ c).

Definition storing (chunk : input_chunk) (c : cache) : bool :=
  let key := image_hash chunk in
  if decide (key = EmptyString) then false
  else bool_decide (is_Some (image_stored_map_ c !! key)).

(** *** The bookkeeping invariant *)

(** The bytes of the vectors stored under the keys of [order]. *)
Definition stored_bytes (order : list string) (stored : gmap string embedding) : Z :=
  foldr (fun key bytes =>
           match stored !! key with Some value => byte_size value | None => 0 end + bytes)
        0 order.

(** The order list, the stored map and the counters are in step. *)
Record in_step (c : cache) : Prop := {
  (** the order list names every stored key once, and no other key *)
  order_nodup : NoDup (embed_order c);
  order_stored : forall key, key ∈ embed_order c <-> is_Some (image_stored_map_ c !! key);
  (** the counters agree, as [size_t] values, with the number of stored
      vectors and with their bytes *)
  entries_counted :
    to_size_t (total_entries (stats_ c)) = to_size_t (Z.of_nat (length (embed_order c)));
  memory_counted :
    to_size_t (total_memory_usage (stats_ c))
    = to_size_t (stored_bytes (embed_order c) (image_stored_map_ c));
  (** a key that waits for its encoding is not stored *)
  wait_not_stored :
    forall key, key ∈ image_wait_set_ c -> image_stored_map_ c !! key = None
}.

End ImageEmbeddingCache.

(** ** [batch_scheduling/encoder-scheduler.cpp] *)
Module EncoderScheduler.
Import ImageEmbeddingCache.

(** What the vision runtime answers for one chunk: the return code of
    [mtmd_encode_chunk] and the buffer [mtmd_get_output_embd] points to
    ([None] for a null pointer). *)
Record encode_outcome : Type := {
  encode_ret : Z;
  output_embd : option (list Z)
}.

(** The scheduler as the worker and the callers share it: the cache and
    the FIFO of encode closures, each closure by its captured chunk. *)
Record scheduler : Type := {
  encode_cache_ : cache;
  encoder_queue_ : list input_chunk
}.

(** [encoder_task]; [model_n_embd] is [llama_model_n_embd]. *)
Definition encoder_task (model_n_embd now : Z) (chunk : input_chunk)
           (outcome : encode_outcome) (c : cache) : cache :=
  match chunk with
  | TextChunk _ => c
  | ImageChunk _ _ =>
      if negb (encode_ret outcome =? 0) then c
      else
        let n_embd := Z.of_nat (chunk_n_tokens chunk) * model_n_embd in
        match output_embd outcome with
        | Some embd =>
            if 0 <? n_embd
            then (store now chunk (take (Z.to_nat n_embd) embd) c).2
            else c
        | None => c
        end
  end.

Definition submit_encoder_task (chunk : input_chunk) (s : scheduler) : scheduler :=
  let '(key, c) := prepare chunk (encode_cache_ s) in
  if decide (key = EmptyString)
  then {| encode_cache_ := c; encoder_queue_ := encoder_queue_ s |}
  else {| encode_cache_ := c; encoder_queue_ := encoder_queue_ s ++ [chunk] |}.

(** One turn of [process_encoder]: the closure at the front of the queue
    runs; afterwards [encode_finish_condition_] is notified. *)
Definition process_encoder (model_n_embd now : Z) (outcome : encode_outcome)
           (s : scheduler) : scheduler :=
  match encoder_queue_ s with
  | [] => s
  | chunk :: rest =>
      {| encode_cache_ := encoder_task model_n_embd now chunk outcome (encode_cache_ s);
         encoder_queue_ := rest |}
  end.

(** What a caller of [wait_for_result] observes when it evaluates its
    wait predicate: it stays blocked while the chunk's key is in the wait
    set, and returns the lookup otherwise. *)
Inductive wait_result : Type :=
| Blocked
| Returned (res : option embedding).

Definition wait_for_result (chunk : input_chunk) (s : scheduler) : wait_result * scheduler :=
  if waiting chunk (encode_cache_ s) then (Blocked, s)
  else
    let '(res, c) := lookup chunk (encode_cache_ s) in
    (Returned res, {| encode_cache_ := c; encoder_queue_ := encoder_queue_ s |}).

(** The constructor: a fresh cache and an empty queue. *)
Definition new_scheduler (max_entries max_memory_mb now : Z) : scheduler :=
  {| encode_cache_ := new_cache (to_size_t max_entries) (to_size_t max_memory_mb) now;
     encoder_queue_ := [] |}.

(** [blocking_encoder] as its caller observes it once the worker has run
    the tasks queued so far, one outcome per task: the submission, the
    worker's turns, the wait. *)
Definition blocking_encoder (model_n_embd now : Z) (outcomes : list encode_outcome)
           (chunk : input_chunk) (s : scheduler) : wait_result * scheduler :=
  wait_for_result chunk
    (fold_left (fun s outcome => process_encoder model_n_embd now outcome s)
               outcomes (submit_encoder_task chunk s)).

(** The states of a scheduler between the calls of its operations and
    the turns of its worker. *)
Inductive reachable : scheduler -> Prop :=
| reachable_new (max_entries max_memory_mb now : Z) :
    reachable (new_scheduler max_entries max_memory_mb now)
| reachable_submit_encoder_task (chunk : input_chunk) (s : scheduler) :
    reachable s -> reachable (submit_encoder_task chunk s)
| reachable_process_encoder (model_n_embd now : Z) (outcome : encode_outcome)
                            (s : scheduler) :
    reachable s -> reachable (process_encoder model_n_embd now outcome s)
| reachable_wait_for_result (chunk : input_chunk) (s : scheduler) :
    reachable s -> reachable (wait_for_result chunk s).2.

(** What the queue holds: image chunks with distinct keys, each waiting. *)
Record queue_waits (s : scheduler) : Prop := {
  queue_keys_nodup : NoDup (image_hash <$> encoder_queue_ s);
  queue_keys_wait :
    forall chunk, chunk ∈ encoder_queue_ s ->
                  image_hash chunk <> EmptyString
                  /\ image_hash chunk ∈ image_wait_set_ (encode_cache_ s)
}.

End EncoderScheduler.

(** ** [cache_manager/chunk-infer-cache.cpp] *)
Module ChunkInferCache.

Record CacheEntry : Type := {
  prompt_hash : string;
  pos_begin : Z;
  pos_end : Z;
  last_token : Z;
  reference_count : Z
}.

(** A [std::shared_ptr<CacheEntry>]: the object's place in the heap of
    entries. *)
Abbreviation entry_ref := nat (only parsing).

Record SeqEntryList : Type := {
  cache_seq_id : Z;
  last_pos : Z;
  seq_entries : list entry_ref;
  last_access : Z
}.

(** The cache object.  [entries] holds every [CacheEntry] made by
    [std::make_shared], so that the hash map and the slot lists share one
    object per entry.  [use_seq_mem_] lists the slots in the iteration
    order of the [std::unordered_map]; no slot is added or removed after
    construction, so the order is fixed.  [memory_tasks] is the queue of
    the memory scheduler the cache submits to. *)
Record cache : Type := {
  entries : list CacheEntry;
  cache_wait_set_ : gset string;
  cache_map_ : gmap string entry_ref;
  use_seq_mem_ : list (Z * SeqEntryList);
  memory_tasks : MemoryScheduler.task_queue
}.

(** [SeqEntryList(seq_id)]; a default [time_point] is the clock's epoch. *)
Definition new_seq_entry_list (seq_id : Z) : SeqEntryList :=
  {| cache_seq_id := seq_id; last_pos := 0; seq_entries := []; last_access := 0 |}.

(** The constructor: one empty list per cache slot. *)
Definition new_cache (slot_ids : list Z) : cache :=
  {| entries := [];
     cache_wait_set_ := ∅;
     cache_map_ := ∅;
     use_seq_mem_ := map (fun i => (i, new_seq_entry_list i)) slot_ids;
     memory_tasks := [] |}.

Definition set_wait_set (w : gset string) (c : cache) : cache :=
  {| entries := entries c; cache_wait_set_ := w; cache_map_ := cache_map_ c;
     use_seq_mem_ := use_seq_mem_ c; memory_tasks := memory_tasks c |}.

Definition set_use_seq_mem (slots : list (Z * SeqEntryList)) (c : cache) : cache :=
  {| entries := entries c; cache_wait_set_ := cache_wait_set_ c; cache_map_ := cache_map_ c;
     use_seq_mem_ := slots; memory_tasks := memory_tasks c |}.

Definition set_memory_tasks (tasks : MemoryScheduler.task_queue) (c : cache) : cache :=
  {| entries := entries c; cache_wait_set_ := cache_wait_set_ c; cache_map_ := cache_map_ c;
     use_seq_mem_ := use_seq_mem_ c; memory_tasks := tasks |}.

Definition prepare (chunk_hash : string) (c : cache) : bool * cache :=
  if decide (chunk_hash ∈ cache_wait_set_ c) then (false, c)
  else if decide (is_Some (cache_map_ c !! chunk_hash)) then (false, c)
  else (true, set_wait_set ({[chunk_hash]} ∪ cache_wait_set_ c) c).

Definition unprepared (chunk_hash : string) (c : cache) : cache :=
  set_wait_set (cache_wait_set_ c ∖ {[chunk_hash]}) c.

Definition waiting (chunk_hash : string) (c : cache) : bool :=
  bool_decide (chunk_hash ∈ cache_wait_set_ c).

Definition storing (chunk_hash : string) (c : cache) : bool :=
  bool_decide (is_Some (cache_map_ c !! chunk_hash)).

(** [block_waiting_and_prepare] as its caller observes it when the wait
    predicate is evaluated: [None] while another builder holds the hash. *)
Definition block_waiting_and_prepare (chunk_hash : string) (c : cache) : option cache :=
  if decide (chunk_hash ∈ cache_wait_set_ c) then None
  else if decide (is_Some (cache_map_ c !! chunk_hash)) then Some c
  else Some (set_wait_set ({[chunk_hash]} ∪ cache_wait_set_ c) c).

(** [block_waiting] as its caller observes it: [false] while the hash is
    in the wait set, and the caller stays blocked. *)
Definition block_waiting (chunk_hash : string) (c : cache) : bool :=
  negb (bool_decide (chunk_hash ∈ cache_wait_set_ c)).

(** *** [maintain] *)

Definition occupied (m : Z * SeqEntryList) : bool :=
  match seq_entries m.2 with [] => false | _ :: _ => true end.

Definition with_reference_count (rc : Z) (e : CacheEntry) : CacheEntry :=
  {| prompt_hash := prompt_hash e; pos_begin := pos_begin e; pos_end := pos_end e;
     last_token := last_token e; reference_count := rc |}.

(** The inner loop over an evicted slot's entries:
    [entry->reference_count--] and the keys whose count is used up. *)
Fixpoint release (refs : list entry_ref) (heap : list CacheEntry)
         (to_delete_keys : list string) : list CacheEntry * list string :=
  match refs with
  | [] => (heap, to_delete_keys)
  | r :: rest =>
      match heap !! r with
      | None => release rest heap to_delete_keys
      | Some entry =>
          let entry' := with_reference_count (reference_count entry - 1) entry in
          release rest (<[r := entry']> heap)
                  (if reference_count entry' <=? 0
                   then to_delete_keys ++ [prompt_hash entry']
                   else to_delete_keys)
      end
  end.

(** The body of the loop over [to_delete] for one sequence id. *)
Definition evict_seq (c : cache * list string) (seq_id : Z) : cache * list string :=
  let '(c, to_delete_keys) := c in
  match list_find (fun m => m.1 = seq_id) (use_seq_mem_ c) with
  | None => (c, to_delete_keys)
  | Some (i, m) =>
      let '(heap, to_delete_keys) := release (seq_entries m.2) (entries c) to_delete_keys in
      let cleared := {| cache_seq_id := cache_seq_id m.2; last_pos := 0;
                        seq_entries := []; last_access := last_access m.2 |} in
      ({| entries := heap;
          cache_wait_set_ := cache_wait_set_ c;
          cache_map_ := cache_map_ c;
          use_seq_mem_ := <[i := (m.1, cleared)]> (use_seq_mem_ c);
          memory_tasks := MemoryScheduler.submit_clear_mem seq_id (-1) (-1) (memory_tasks c) |},
       to_delete_keys)
  end.

(** A slot as the loop over [to_delete] leaves it: no entries, position
    0, the access time untouched. *)
Definition clear_slot (m : Z * SeqEntryList) : Z * SeqEntryList :=
  (m.1, {| cache_seq_id := cache_seq_id m.2; last_pos := 0;
           seq_entries := []; last_access := last_access m.2 |}).

(** Eviction of the slots named by [to_delete], then the erasure of the
    collected keys from the hash map. *)
Definition evict (to_delete : list Z) (c : cache) : cache :=
  let '(c, to_delete_keys) := fold_left evict_seq to_delete (c, []) in
  {| entries := entries c;
     cache_wait_set_ := cache_wait_set_ c;
     cache_map_ := fold_left (fun m key => delete key m) to_delete_keys (cache_map_ c);
     use_seq_mem_ := use_seq_mem_ c;
     memory_tasks := memory_tasks c |}.

(** The comparator of the [std::sort] call orders by [last_access]; the
    sort is modelled by a stable one (the order of slots with equal
    [last_access] is unspecified in the source). *)
Definition accessed_before (a b : Z * SeqEntryList) : Prop :=
  last_access a.2 <= last_access b.2.

Global Instance accessed_before_dec : RelDecision accessed_before.
Proof. intros a b. unfold accessed_before. apply _. Defined.

(** The slots [maintain] picks: none while a slot is free, else the
    least recently accessed ones down to 80% occupancy. *)
Definition slots_to_delete (slots : list (Z * SeqEntryList)) : list Z :=
  let used_seq_num := Z.of_nat (length (filter (fun m => occupied m = true) slots)) in
  let size := Z.of_nat (length slots) in
  let max_seq_num := to_size_t (Float32.scale_0_8 size) in
  let delete_num := to_int32 (to_int32 used_seq_num - to_int32 max_seq_num) in
  if used_seq_num <? size then []
  else
    let sorted_seqs := merge_sort accessed_before (filter (fun m => occupied m = true) slots) in
    map fst (take (Z.to_nat (to_size_t delete_num)) sorted_seqs).

Definition maintain (c : cache) : cache :=
  let used_seq_num := Z.of_nat (length (filter (fun m => occupied m = true) (use_seq_mem_ c))) in
  if used_seq_num <? Z.of_nat (length (use_seq_mem_ c)) then c
  else evict (slots_to_delete (use_seq_mem_ c)) c.

(** *** [store] *)

(** The loop that collects the cached entries of [chunk_hashs[0..chunk_id]]
    with their indices. *)
Definition collect_pre (cache_map : gmap string entry_ref) (chunk_hashs : list string)
           (chunk_id : nat) : list (entry_ref * nat) :=
  omap (fun i => match chunk_hashs !! i with
                 | Some chunk_hash =>
                     match cache_map !! chunk_hash with
                     | Some entry => Some (entry, i)
                     | None => None
                     end
                 | None => None
                 end)
       (seq 0 (S chunk_id)).

(** A loop [for (auto m : use_seq_mem_) if (P m) target_seq = m.second]:
    the last slot that satisfies [P] wins.  Slots are named by their
    position in [use_seq_mem_]. *)
Fixpoint scan_slots (P : SeqEntryList -> bool) (slots : list (Z * SeqEntryList))
         (i : nat) (target_seq : option nat) : option nat :=
  match slots with
  | [] => target_seq
  | m :: rest => scan_slots P rest (S i) (if P m.2 then Some i else target_seq)
  end.

Definition ends_with (e : entry_ref) (s : SeqEntryList) : bool :=
  match last (seq_entries s) with
  | Some e' => bool_decide (e' = e)
  | None => false
  end.

Definition is_empty_slot (s : SeqEntryList) : bool :=
  match seq_entries s with [] => true | _ :: _ => false end.

(** The choice of [target_seq]. *)
Definition select_target (slots : list (Z * SeqEntryList)) (pre_entries : list entry_ref)
  : option nat :=
  let target_seq :=
    match last pre_entries with
    | Some e => scan_slots (ends_with e) slots 0%nat None
    | None => None
    end in
  match target_seq with
  | Some t => Some t
  | None => scan_slots is_empty_slot slots 0%nat None
  end.

(** [for (auto& e : pre_entries) e->reference_count++] *)
Definition retain (heap : list CacheEntry) (refs : list entry_ref) : list CacheEntry :=
  fold_left (fun heap r =>
               match heap !! r with
               | Some entry =>
                   <[r := with_reference_count (reference_count entry + 1) entry]> heap
               | None => heap
               end)
            refs heap.

(** The entry [store] builds; [pre_entries] are the cached entries of the
    prefix. *)
Definition built_entry (c : cache) (pre_entries : list entry_ref) (chunk_hash : string)
           (last_token n_past : Z) : CacheEntry :=
  {| prompt_hash := chunk_hash;
     pos_begin := match last pre_entries with
                  | None => 0
                  | Some e => match entries c !! e with
                              | Some pe => pos_end pe
                              | None => 0
                              end
                  end;
     pos_end := n_past;
     last_token := last_token;
     reference_count := 1 |}.

(** [store], after [maintain] and with [chunk_hash = chunk_hashs[chunk_id]]. *)
Definition store_locked (now : Z) (chunk_hashs : list string) (chunk_id : nat)
           (chunk_hash : string) (seq_id last_token n_past : Z) (c : cache)
  : bool * cache :=
  let c := set_wait_set (cache_wait_set_ c ∖ {[chunk_hash]}) c in
  let pre := collect_pre (cache_map_ c) chunk_hashs chunk_id in
  let pre_entries := pre.*1 in
  let pre_chunk_indexs := pre.*2 in
  if bool_decide (last pre_chunk_indexs = Some chunk_id) then (true, c)
  else
    match select_target (use_seq_mem_ c) pre_entries with
    | None => (false, c)
    | Some t =>
        match use_seq_mem_ c !! t with
        | None => (false, c)
        | Some (k, target_seq) =>
            let entry := built_entry c pre_entries chunk_hash last_token n_past in
            let r := length (entries c) in
            let tasks := MemoryScheduler.submit_cache_mem
                           seq_id (cache_seq_id target_seq) (last_pos target_seq) (-1)
                           (memory_tasks c) in
            let heap := entries c ++ [entry] in
            let '(heap, new_entries) :=
              if is_empty_slot target_seq
              then (retain heap pre_entries, pre_entries ++ [r])
              else (heap, seq_entries target_seq ++ [r]) in
            let target_seq' :=
              {| cache_seq_id := cache_seq_id target_seq;
                 last_pos := n_past;
                 seq_entries := new_entries;
                 last_access := now |} in
            (true,
             {| entries := heap;
                cache_wait_set_ := cache_wait_set_ c;
                cache_map_ := <[chunk_hash := r]> (cache_map_ c);
                use_seq_mem_ := <[t := (k, target_seq')]> (use_seq_mem_ c);
                memory_tasks := tasks |})
        end
    end.

(** [store]: [None] stands for the out-of-range access
    [chunk_hashs[chunk_id]], which the source leaves undefined. *)
Definition store (now : Z) (chunk_hashs : list string) (chunk_id : nat)
           (seq_id last_token n_past : Z) (c : cache) : option (bool * cache) :=
  match chunk_hashs !! chunk_id with
  | None => None
  | Some chunk_hash =>
      Some (store_locked now chunk_hashs chunk_id chunk_hash seq_id last_token n_past
                         (maintain c))
  end.

(** *** [lookup] and [apply_cache_entry] *)

Definition touch (now : Z) (e : entry_ref) (m : Z * SeqEntryList) : Z * SeqEntryList :=
  if bool_decide (e ∈ seq_entries m.2)
  then (m.1, {| cache_seq_id := cache_seq_id m.2; last_pos := last_pos m.2;
                seq_entries := seq_entries m.2; last_access := now |})
  else m.

Definition lookup (now : Z) (chunk_hash : string) (c : cache) : option entry_ref * cache :=
  match cache_map_ c !! chunk_hash with
  | None => (None, c)
  | Some e =>
      match entries c !! e with
      | None => (Some e, c)
      | Some entry =>
          if negb (reference_count entry =? 1) then (Some e, c)
          else (Some e, set_use_seq_mem (map (touch now e) (use_seq_mem_ c)) c)
      end
  end.

Definition apply_cache_entry (entry : option entry_ref) (target_seq_id : Z) (c : cache)
  : bool * cache :=
  match entry with
  | None => (false, c)
  | Some e =>
      let src_seq_id :=
        fold_left (fun src m => if bool_decide (e ∈ seq_entries m.2) then m.1 else src)
                  (use_seq_mem_ c) (-1) in
      if src_seq_id =? -1 then (false, c)
      else
        let pos_end := match entries c !! e with Some en => pos_end en | None => -1 end in
        (true,
         set_memory_tasks
           (MemoryScheduler.submit_cache_mem src_seq_id target_seq_id (-1) pos_end
                                             (memory_tasks c))
           c)
  end.

(** *** The state invariant *)




(** The states of the cache between two calls of its public operations
    (the points where [cache_mutex_] is free).  [store] is called with the
    prefix-cumulative hashes of a request's chunks, which are pairwise
    distinct. *)
Inductive reachable : cache -> Prop :=
| reachable_new (slot_ids : list Z) :
    reachable (new_cache slot_ids)
| reachable_prepare (chunk_hash : string) (c : cache) :
    reachable c -> reachable (prepare chunk_hash c).2
| reachable_unprepared (chunk_hash : string) (c : cache) :
    reachable c -> reachable (unprepared chunk_hash c)
| reachable_block_waiting_and_prepare (chunk_hash : string) (c c' : cache) :
    reachable c -> block_waiting_and_prepare chunk_hash c = Some c' -> reachable c'
| reachable_lookup (now : Z) (chunk_hash : string) (c : cache) :
    reachable c -> reachable (lookup now chunk_hash c).2
| reachable_apply_cache_entry (entry : option entry_ref) (target_seq_id : Z) (c : cache) :
    reachable c -> reachable (apply_cache_entry entry target_seq_id c).2
| reachable_store (now : Z) (chunk_hashs : list string) (chunk_id : nat)
                  (seq_id last_token n_past : Z) (c : cache) (ok : bool) (c' : cache) :
    reachable c ->
    NoDup (take (S chunk_id) chunk_hashs) ->
    store now chunk_hashs chunk_id seq_id last_token n_past c = Some (ok, c') ->
    reachable c'.

End ChunkInferCache.

(** ** [batch_scheduling/batch-scheduler.cpp]: the per-request pipeline *)
Module BatchScheduler.

(** Modelled from the spec: [scheduler_task_info.h], which declares
    [TaskStatus] and [SycChunkTask], is not among the sources; the
    specification gives a chunk's status the values WAIT, PENDING,
    IN_PROGRESS, COMPLETED and FAILED, and a fresh task waits. *)
Inductive TaskStatus : Type := WAIT | PENDING | IN_PROGRESS | COMPLETED | FAILED.

(** The fields of [LlamaSeqState] the pipeline reads and writes:
    [std::atomic<llama_token> last_token] and [std::atomic<size_t> n_past]. *)
Record SeqState : Type := {
  last_token : Z;
  n_past : Z
}.

(** What the other threads deliver while [blocking_infer] waits on one
    chunk: whether [wait_for_result] hands back an embedding, and the
    values the decode job has left in the sequence state by the time
    [block_waitting_seq] returns. *)
Record chunk_events : Type := {
  encoder_embedding : bool;
  decode_last_token : Z;
  decode_n_past : Z
}.

(** The objects [blocking_infer] works on: the optional [kv_cache_], the
    request's sequence state and the status of each chunk task. *)
Record infer_state : Type := {
  kv_cache_ : option ChunkInferCache.cache;
  state : SeqState;
  statuses : list TaskStatus
}.

Inductive flow : Type := Continue | Break.

Definition with_cache (kv : option ChunkInferCache.cache -> option ChunkInferCache.cache)
           (st : infer_state) : infer_state :=
  {| kv_cache_ := kv (kv_cache_ st); state := state st; statuses := statuses st |}.

(** The part of the loop body from the wait for the encoder to the end:
    the chunk is decoded and, once the decode has settled, the sequence's
    [last_token] decides the chunk's fate. *)
Definition decode_and_settle (now : Z) (hashs : list string) (is_last : bool) (i : nat)
           (chunk : input_chunk) (chunk_hash : string) (cmpl_id : Z)
           (ev : chunk_events) (st : infer_state) : option (flow * infer_state) :=
  if negb (is_text chunk) && negb (encoder_embedding ev) then
    Some (Break,
          {| kv_cache_ := ChunkInferCache.unprepared chunk_hash <$> kv_cache_ st;
             state := {| last_token := -1; n_past := n_past (state st) |};
             statuses := <[i := FAILED]> (statuses st) |})
  else
    (* the task is queued, the batcher submits it, the decode job runs *)
    let state' := {| last_token := decode_last_token ev; n_past := decode_n_past ev |} in
    (* [size_t last_token = state.last_token.load()] *)
    let last_token_read := to_size_t (last_token state') in
    let npast := n_past state' in
    if last_token_read <? 0 then
      Some (Break,
            {| kv_cache_ := ChunkInferCache.unprepared chunk_hash <$> kv_cache_ st;
               state := state';
               statuses := <[i := FAILED]> (statuses st) |})
    else
      match kv_cache_ st with
      | Some kv =>
          if is_last then
            Some (Continue, {| kv_cache_ := Some kv; state := state';
                               statuses := <[i := COMPLETED]> (statuses st) |})
          else
            match ChunkInferCache.store now hashs i cmpl_id (to_int32 last_token_read)
                                        (to_int32 npast) kv with
            | None => None
            | Some (_, kv') =>
                Some (Continue, {| kv_cache_ := Some kv'; state := state';
                                   statuses := <[i := COMPLETED]> (statuses st) |})
            end
      | None =>
          Some (Continue, {| kv_cache_ := None; state := state';
                             statuses := <[i := COMPLETED]> (statuses st) |})
      end.

(** One turn of the loop over the chunks.  [None]: the caller is still
    blocked in [block_waiting_and_prepare], or the source's behaviour is
    undefined. *)
Definition infer_chunk (now : Z) (hashs : list string) (is_last : bool) (i : nat)
           (chunk : input_chunk) (chunk_hash : string) (cmpl_id : Z)
           (ev : chunk_events) (st : infer_state) : option (flow * infer_state) :=
  match kv_cache_ st with
  | Some kv =>
      if is_last then decode_and_settle now hashs is_last i chunk chunk_hash cmpl_id ev st
      else
        match ChunkInferCache.block_waiting_and_prepare chunk_hash kv with
        | None => None
        | Some kv =>
            if ChunkInferCache.storing chunk_hash kv then
              let '(entry, kv) := ChunkInferCache.lookup now chunk_hash kv in
              let '(success, kv) := ChunkInferCache.apply_cache_entry entry cmpl_id kv in
              match success, entry ≫= (fun e => ChunkInferCache.entries kv !! e) with
              | true, Some en =>
                  Some (Continue,
                        {| kv_cache_ := Some kv;
                           state := {| last_token := ChunkInferCache.last_token en;
                                       n_past := to_size_t (ChunkInferCache.pos_end en) |};
                           statuses := <[i := COMPLETED]> (statuses st) |})
              | _, _ =>
                  decode_and_settle now hashs is_last i chunk chunk_hash cmpl_id ev
                                    (with_cache (fun _ => Some kv) st)
              end
            else
              decode_and_settle now hashs is_last i chunk chunk_hash cmpl_id ev
                                (with_cache (fun _ => Some kv) st)
        end
  | None => decode_and_settle now hashs is_last i chunk chunk_hash cmpl_id ev st
  end.

(** The loop [for (size_t i = 0; i < input_chunks->size(); i++)], from
    index [i] on. *)
Fixpoint infer_from (now : Z) (hashs : list string) (n_chunks : nat) (cmpl_id : Z)
         (i : nat) (work : list (input_chunk * chunk_events)) (st : infer_state)
  : option infer_state :=
  match work with
  | [] => Some st
  | (chunk, ev) :: rest =>
      match hashs !! i with
      | None => None
      | Some chunk_hash =>
          match infer_chunk now hashs (bool_decide (i = (n_chunks - 1)%nat)) i
                            chunk chunk_hash cmpl_id ev st with
          | None => None
          | Some (Break, st) => Some st
          | Some (Continue, st) => infer_from now hashs n_chunks cmpl_id (S i) rest st
          end
      end
  end.

(** [blocking_infer] on a request's chunks, with the events of the other
    threads per chunk.  Every chunk task starts out waiting. *)
Definition blocking_infer (now : Z) (input_chunks : list input_chunk)
           (events : list chunk_events) (chat_cmpl_id : Z)
           (kv_cache : option ChunkInferCache.cache) (seq_state : SeqState)
  : option infer_state :=
  let hashs := ChunkHash.chunk_hashs input_chunks in
  infer_from now hashs (length input_chunks) chat_cmpl_id 0
             (zip input_chunks events)
             {| kv_cache_ := kv_cache; state := seq_state;
                statuses := replicate (length input_chunks) WAIT |}.

End BatchScheduler.

(** ** [utils/mico-common.h]: the context and its sequences *)
Module MicoCommon.

(** [LlamaSeqState], without the bitmaps; the defaults are the in-class
    initialisers. *)
Record LlamaSeqState : Type := {
  last_token : Z;
  n_past : Z;
  is_infering : bool;
  respone : string
}.

Definition new_seq_state : LlamaSeqState :=
  {| last_token := -1; n_past := 0; is_infering := false; respone := EmptyString |}.

(** The parts of [LlamaMicoContext] the engine's own code works on.
    [process_seqs] and [cmpl_to_seq] are [std::map]s with [size_t] keys;
    [memory_scheduler] is the task queue of the [LlamaMemoryScheduler]
    the context owns. *)
Record LlamaMicoContext : Type := {
  n_seq_max : Z;
  n_usage_context : Z;
  process_seqs : gmap Z LlamaSeqState;
  cmpl_to_seq : gmap Z Z;
  antiprompt_tokens : list Z;
  memory_scheduler : MemoryScheduler.task_queue
}.

Definition set_process_seqs (seqs : gmap Z LlamaSeqState) (ctx : LlamaMicoContext)
  : LlamaMicoContext :=
  {| n_seq_max := n_seq_max ctx; n_usage_context := n_usage_context ctx;
     process_seqs := seqs; cmpl_to_seq := cmpl_to_seq ctx;
     antiprompt_tokens := antiprompt_tokens ctx;
     memory_scheduler := memory_scheduler ctx |}.

Definition set_cmpl_to_seq (m : gmap Z Z) (ctx : LlamaMicoContext) : LlamaMicoContext :=
  {| n_seq_max := n_seq_max ctx; n_usage_context := n_usage_context ctx;
     process_seqs := process_seqs ctx; cmpl_to_seq := m;
     antiprompt_tokens := antiprompt_tokens ctx;
     memory_scheduler := memory_scheduler ctx |}.

Definition set_memory_scheduler (tasks : MemoryScheduler.task_queue)
           (ctx : LlamaMicoContext) : LlamaMicoContext :=
  {| n_seq_max := n_seq_max ctx; n_usage_context := n_usage_context ctx;
     process_seqs := process_seqs ctx; cmpl_to_seq := cmpl_to_seq ctx;
     antiprompt_tokens := antiprompt_tokens ctx;
     memory_scheduler := tasks |}.

(** The state [process_seqs[id]] denotes: the stored one, or a fresh
    one. *)
Definition seq_state (id : Z) (process_seqs : gmap Z LlamaSeqState) : LlamaSeqState :=
  default new_seq_state (process_seqs !! id).

(** [get_seq_state]: [process_seqs[id]] creates the state when it is not
    there. *)
Definition get_seq_state (id : Z) (process_seqs : gmap Z LlamaSeqState)
  : LlamaSeqState * gmap Z LlamaSeqState :=
  (seq_state id process_seqs, <[id := seq_state id process_seqs]> process_seqs).

(** The loop of [set_seq_id], from index [i] with [count] indices left. *)
Fixpoint first_free (count : nat) (i : Z) (process_seqs : gmap Z LlamaSeqState)
  : Z * gmap Z LlamaSeqState :=
  match count with
  | O => (-1, process_seqs)
  | S count =>
      let '(state, process_seqs) := get_seq_state i process_seqs in
      if negb (is_infering state) then (i, process_seqs)
      else first_free count (i + 1) process_seqs
  end.

Definition set_seq_id (cmpl_id : Z) (ctx : LlamaMicoContext) : Z * LlamaMicoContext :=
  let '(seq_id, seqs) := first_free (Z.to_nat (n_seq_max ctx)) 0 (process_seqs ctx) in
  (seq_id,
   set_cmpl_to_seq (if negb (seq_id =? -1) then <[cmpl_id := seq_id]> (cmpl_to_seq ctx)
                    else cmpl_to_seq ctx)
                   (set_process_seqs seqs ctx)).

Definition get_seq_id (cmpl_id : Z) (ctx : LlamaMicoContext) : Z :=
  match cmpl_to_seq ctx !! cmpl_id with
  | Some seq_id => seq_id
  | None => -1
  end.

(** The iteration of a [std::map]: its items by ascending key. *)
Definition key_before (a b : Z * Z) : Prop := a.1 <= b.1.

Global Instance key_before_dec : RelDecision key_before.
Proof. intros a b. unfold key_before. apply _. Defined.

Definition in_key_order (m : gmap Z Z) : list (Z * Z) :=
  merge_sort key_before (map_to_list m).

(** [erase_seq]: [to_erase] is a [size_t] that starts as [-1]. *)
Definition erase_seq (seq_id : Z) (ctx : LlamaMicoContext) : bool * LlamaMicoContext :=
  let to_erase :=
    match list_find (fun it => it.2 = seq_id) (in_key_order (cmpl_to_seq ctx)) with
    | Some (_, it) => it.1
    | None => to_size_t (-1)
    end in
  (0 <=? to_erase,
   if 0 <=? to_erase then set_cmpl_to_seq (delete to_erase (cmpl_to_seq ctx)) ctx
   else ctx).

Definition check_antiprompt (generated_tokens : list Z) (ctx : LlamaMicoContext) : bool :=
  if bool_decide (antiprompt_tokens ctx = [])
     || (length generated_tokens <? length (antiprompt_tokens ctx))%nat
  then false
  else bool_decide (drop (length generated_tokens - length (antiprompt_tokens ctx))
                         generated_tokens
                    = antiprompt_tokens ctx).

End MicoCommon.

(** ** [batch_scheduling/llm-scheduler.cpp] *)
Module LlmScheduler.
Import MicoCommon.

(** One token of a [llama_batch]: the entries of the batch's arrays at
    one index.  Every token has at least one sequence id; [seq_id] is
    [seq_id[i][0]] and [more_seq_ids] are the others. *)
Record batch_token : Type := {
  token : Z;
  pos : Z;
  seq_id : Z;
  more_seq_ids : list Z;
  logits : bool
}.

Abbreviation llama_batch := (list batch_token) (only parsing).

(** [common_batch_add] with one sequence id, as the batcher calls it. *)
Definition common_batch_add (batch : llama_batch) (id pos seq_id : Z) (logits : bool)
  : llama_batch :=
  batch ++ [{| token := id; pos := pos; seq_id := seq_id; more_seq_ids := [];
               logits := logits |}].

(** [running_seq_[seq_id]], which is 0 for a sequence never counted. *)
Definition running (seq_id : Z) (running_seq_ : gmap Z Z) : Z :=
  default 0 (running_seq_ !! seq_id).

(** [running_seq_[seq_id]++] *)
Definition count_up (running_seq_ : gmap Z Z) (seq_id : Z) : gmap Z Z :=
  <[seq_id := to_size_t (running seq_id running_seq_ + 1)]> running_seq_.

(** [if (running_seq_[seq_id] > 0) --running_seq_[seq_id]] *)
Definition count_down (running_seq_ : gmap Z Z) (seq_id : Z) : gmap Z Z :=
  <[seq_id := if 0 <? running seq_id running_seq_
              then running seq_id running_seq_ - 1
              else running seq_id running_seq_]> running_seq_.

(** The wait predicate of [block_waitting_seq]: [true] lets the caller
    through. *)
Definition block_waitting_seq (seq_id : Z) (running_seq_ : gmap Z Z) : bool :=
  running (to_size_t seq_id) running_seq_ <=? 0.

(** [get_seq_state(id).last_token.store(value)] *)
Definition store_last_token (id value : Z) (process_seqs : gmap Z LlamaSeqState)
  : gmap Z LlamaSeqState :=
  let state := seq_state id process_seqs in
  <[id := {| last_token := value; n_past := n_past state;
             is_infering := is_infering state; respone := respone state |}]> process_seqs.

(** [get_seq_state(id).n_past.store(value)] *)
Definition store_n_past (id value : Z) (process_seqs : gmap Z LlamaSeqState)
  : gmap Z LlamaSeqState :=
  let state := seq_state id process_seqs in
  <[id := {| last_token := last_token state; n_past := value;
             is_infering := is_infering state; respone := respone state |}]> process_seqs.

(** What the scheduler and its jobs work on: the counters and the
    sequence states of the context. *)
Record scheduler : Type := {
  running_seq_ : gmap Z Z;
  process_seqs : gmap Z LlamaSeqState
}.

(** [submit_token_infer], the part that runs in the caller: every token
    counts its first sequence up.  The job itself goes to the memory
    scheduler. *)
Definition submit_token_infer (text_batch : llama_batch) (s : scheduler) : scheduler :=
  {| running_seq_ := fold_left (fun r t => count_up r (to_size_t (seq_id t)))
                               text_batch (running_seq_ s);
     process_seqs := process_seqs s |}.

(** What the runtime answers to a text job: the return code of
    [llama_decode] and the token [common_sampler_sample] draws at each
    index. *)
Record decode_outcome : Type := {
  decode_ret : Z;
  sampled : nat -> Z
}.

(** The loop of the job over the tokens after a decode that worked, from
    index [i]. *)
Fixpoint store_sampled (sampled : nat -> Z) (i : nat) (text_batch : llama_batch)
         (process_seqs : gmap Z LlamaSeqState) : gmap Z LlamaSeqState :=
  match text_batch with
  | [] => process_seqs
  | t :: rest =>
      store_sampled sampled (S i) rest
        (if logits t
         then fold_left (fun seqs id => store_last_token (to_size_t id) (sampled i) seqs)
                        (seq_id t :: more_seq_ids t) process_seqs
         else store_last_token (to_size_t (seq_id t)) 0 process_seqs)
  end.

(** The job of [submit_token_infer], as the memory scheduler runs it. *)
Definition token_infer_task (outcome : decode_outcome) (text_batch : llama_batch)
           (s : scheduler) : scheduler :=
  let seqs :=
    if negb (decode_ret outcome =? 0)
    then fold_left (fun seqs t => store_last_token (to_size_t (seq_id t)) (-1) seqs)
                   text_batch (process_seqs s)
    else store_sampled (sampled outcome) 0 text_batch (process_seqs s) in
  {| running_seq_ := fold_left (fun r t => count_down r (to_size_t (seq_id t)))
                               text_batch (running_seq_ s);
     process_seqs := seqs |}.

(** [submit_embedding_infer], the part that runs in the caller. *)
Definition submit_embedding_infer (seq_id : Z) (s : scheduler) : scheduler :=
  {| running_seq_ := count_up (running_seq_ s) (to_size_t seq_id);
     process_seqs := process_seqs s |}.

(** What the runtime answers to an image job: the return code of
    [mtmd_helper_decode_image_chunk] and the position it reports. *)
Record image_outcome : Type := {
  image_ret : Z;
  new_past : Z
}.

(** The job of [submit_embedding_infer]. *)
Definition embedding_infer_task (outcome : image_outcome) (seq_id : Z) (s : scheduler)
  : scheduler :=
  let id := to_size_t seq_id in
  let seqs := store_n_past id (to_size_t (new_past outcome)) (process_seqs s) in
  let seqs := store_last_token id (if negb (image_ret outcome =? 0) then -1 else 0) seqs in
  {| running_seq_ := count_down (running_seq_ s) id;
     process_seqs := seqs |}.

End LlmScheduler.

(** ** [batch_scheduling/batch-scheduler.cpp]: forming the batches *)
Module BatchForming.
Import MicoCommon LlmScheduler.

(** Modelled from the spec: [SycChunkTask] is declared in
    [scheduler_task_info.h], which is not among the sources.  The
    specification's chunk carries its input chunk, [cmpl_id], its status
    and [is_last_chunk]; the status of each task is kept apart, by the
    task's index in the buffer. *)
Record SycChunkTask : Type := {
  input_chunk_ : input_chunk;
  cmpl_id : Z;
  is_last_chunk : bool
}.

(** [mtmd_input_chunk_get_tokens_text]: the tokens of a text chunk, none
    for any other chunk. *)
Definition tokens_text (chunk : input_chunk) : list Z :=
  match chunk with
  | TextChunk tokens => tokens
  | ImageChunk _ _ => []
  end.

(** What [process_text_batch] works on: its local variables, the
    batches handed to [submit_token_infer] so far, the scheduler and the
    status of each task of the buffer. *)
Record batcher : Type := {
  text_batch : llama_batch;
  last_uncomplie : Z;
  submitted : list llama_batch;
  llm_scheduler_ : scheduler;
  statuses : list BatchScheduler.TaskStatus
}.

(** [for (int t = from; t <= to; t++) text_buffer[t]->status.store(IN_PROGRESS)] *)
Definition mark_in_progress (from to : Z) (statuses : list BatchScheduler.TaskStatus)
  : list BatchScheduler.TaskStatus :=
  fold_left (fun statuses t => <[t := BatchScheduler.IN_PROGRESS]> statuses)
            (seq (Z.to_nat from) (Z.to_nat (to + 1) - Z.to_nat from)) statuses.

(** The inner [for] loop: tokens are added while there are tokens and
    room in the batch; each takes the next position of its sequence
    ([state.n_past.fetch_add(1)]).  The tokens not yet added come back. *)
Fixpoint fill_batch (n_batch seq_id : Z) (tokens : list Z) (b : batcher)
  : list Z * batcher :=
  match tokens with
  | [] => ([], b)
  | t :: rest =>
      if Z.of_nat (length (text_batch b)) <? n_batch then
        let id := to_size_t seq_id in
        let seqs := process_seqs (llm_scheduler_ b) in
        let state := seq_state id seqs in
        fill_batch n_batch seq_id rest
          {| text_batch := common_batch_add (text_batch b) t (to_int32 (n_past state))
                                            seq_id false;
             last_uncomplie := last_uncomplie b;
             submitted := submitted b;
             llm_scheduler_ :=
               {| running_seq_ := running_seq_ (llm_scheduler_ b);
                  process_seqs := store_n_past id (to_size_t (n_past state + 1)) seqs |};
             statuses := statuses b |}
      else (tokens, b)
  end.

(** [text_batch.logits[text_batch.n_tokens - 1] = true] *)
Definition flag_last (batch : llama_batch) : llama_batch :=
  match last batch with
  | Some t =>
      <[pred (length batch) := {| token := token t; pos := pos t; seq_id := seq_id t;
                                  more_seq_ids := more_seq_ids t; logits := true |}]> batch
  | None => batch
  end.

(** The [while] loop over the tokens of the chunk at index [i].  [None]:
    the loop does not come to an end within [fuel] turns. *)
Fixpoint chunk_tokens_loop (fuel : nat) (n_batch : Z) (i : Z) (task : SycChunkTask)
         (tokens : list Z) (b : batcher) : option batcher :=
  match tokens with
  | [] => Some b
  | _ :: _ =>
      match fuel with
      | O => None
      | S fuel =>
          let '(rest, b) := fill_batch n_batch (cmpl_id task) tokens b in
          let done := bool_decide (rest = []) in
          let batch := if done && is_last_chunk task
                       then flag_last (text_batch b) else text_batch b in
          if Z.of_nat (length batch) =? n_batch then
            let last := if done then i else i - 1 in
            chunk_tokens_loop fuel n_batch i task rest
              {| text_batch := [];
                 last_uncomplie := to_int32 (last + 1);
                 submitted := submitted b ++ [batch];
                 llm_scheduler_ := submit_token_infer batch (llm_scheduler_ b);
                 statuses := mark_in_progress (last_uncomplie b) last (statuses b) |}
          else
            chunk_tokens_loop fuel n_batch i task rest
              {| text_batch := batch;
                 last_uncomplie := last_uncomplie b;
                 submitted := submitted b;
                 llm_scheduler_ := llm_scheduler_ b;
                 statuses := statuses b |}
      end
  end.

(** The loop over the buffer, from index [i]. *)
Fixpoint buffer_loop (fuel : nat) (n_batch : Z) (i : Z) (text_buffer : list SycChunkTask)
         (b : batcher) : option batcher :=
  match text_buffer with
  | [] => Some b
  | task :: rest =>
      match chunk_tokens_loop fuel n_batch i task (tokens_text (input_chunk_ task)) b with
      | Some b => buffer_loop fuel n_batch (i + 1) rest b
      | None => None
      end
  end.

(** [process_text_batch]; [fuel] bounds the turns of each [while] loop. *)
Definition process_text_batch (fuel : nat) (n_batch : Z) (text_buffer : list SycChunkTask)
           (s : scheduler) (status : list BatchScheduler.TaskStatus) : option batcher :=
  match buffer_loop fuel n_batch 0 text_buffer
                    {| text_batch := []; last_uncomplie := 0; submitted := [];
                       llm_scheduler_ := s; statuses := status |} with
  | None => None
  | Some b =>
      if 0 <? Z.of_nat (length (text_batch b)) then
        Some {| text_batch := text_batch b;
                last_uncomplie := last_uncomplie b;
                submitted := submitted b ++ [text_batch b];
                llm_scheduler_ := submit_token_infer (text_batch b) (llm_scheduler_ b);
                statuses := mark_in_progress (last_uncomplie b)
                                             (Z.of_nat (length text_buffer) - 1)
                                             (statuses b) |}
      else Some b
  end.

(** [process_image_batch]: one job per image task, in order. *)
Definition process_image_batch (image_buffer : list SycChunkTask) (s : scheduler)
           (statuses : list BatchScheduler.TaskStatus)
  : scheduler * list BatchScheduler.TaskStatus :=
  (fold_left (fun s task => submit_embedding_infer (cmpl_id task) s) image_buffer s,
   fold_left (fun statuses t => <[t := BatchScheduler.IN_PROGRESS]> statuses)
             (seq 0 (length image_buffer)) statuses).

(** *** The stream of tokens a buffer stands for *)

(** The entries the batcher adds for a run of tokens of one sequence,
    from position [n_past] on. *)
Definition added (seq_id n_past : Z) (tokens : list Z) : llama_batch :=
  imap (fun j t => {| token := t; pos := n_past + Z.of_nat j; seq_id := seq_id;
                      more_seq_ids := []; logits := false |})
       tokens.

(** The tokens of one task with their positions; the last token of a
    last chunk asks for logits. *)
Definition task_stream (task : SycChunkTask) (n_past : Z) : llama_batch :=
  let stream := added (cmpl_id task) n_past (tokens_text (input_chunk_ task)) in
  if is_last_chunk task then flag_last stream else stream.

(** The tokens of a buffer: the streams of its tasks one after another,
    every sequence's positions running on from where it stands. *)
Fixpoint buffer_stream (text_buffer : list SycChunkTask) (seqs : gmap Z LlamaSeqState)
  : llama_batch :=
  match text_buffer with
  | [] => []
  | task :: rest =>
      let id := to_size_t (cmpl_id task) in
      let n := n_past (seq_state id seqs) in
      task_stream task n
      ++ buffer_stream rest
           (store_n_past id (n + Z.of_nat (length (tokens_text (input_chunk_ task)))) seqs)
  end.

(** The tokens a buffer holds for the sequence [id]. *)
Definition tokens_of (id : Z) (text_buffer : list SycChunkTask) : nat :=
  length (mjoin (map (fun task => tokens_text (input_chunk_ task))
                     (filter (fun task => to_size_t (cmpl_id task) = id) text_buffer))).

(** The number of tokens a buffer holds ([text_size] of [process_batch]). *)
Definition text_size (text_buffer : list SycChunkTask) : nat :=
  length (mjoin (map (fun task => tokens_text (input_chunk_ task)) text_buffer)).

(** What holds of the batcher's variables between two turns of its
    loops, when the tasks before index [i] and the tokens [formed] have
    been dealt with, [positions] are the sequences' next positions and
    [status] is what the tasks' statuses were at the start. *)
Record forming (n_batch : Z) (text_buffer : list SycChunkTask)
       (status : list BatchScheduler.TaskStatus) (i : nat)
       (formed : llama_batch) (positions : Z -> Z) (b : batcher) : Prop := {
  (** the batches submitted and the batch in the making hold the tokens
      dealt with, in order *)
  formed_stream : concat (submitted b) ++ text_batch b = formed;
  (** every batch submitted is full, the one in the making is not *)
  formed_full : Forall (fun batch => Z.of_nat (length batch) = n_batch) (submitted b);
  formed_room : Z.of_nat (length (text_batch b)) < n_batch;
  formed_positions :
    forall id, n_past (seq_state id (process_seqs (llm_scheduler_ b))) = positions id;
  (** the tasks before [last_uncomplie] are in progress *)
  formed_uncomplie : 0 <= last_uncomplie b <= Z.of_nat i;
  formed_marked :
    forall t, Z.of_nat t < last_uncomplie b -> (t < length text_buffer)%nat ->
              statuses b !! t = Some BatchScheduler.IN_PROGRESS;
  (** with no batch in the making, the tasks from [last_uncomplie] on
      had no tokens *)
  formed_pending :
    text_batch b = [] ->
    forall t task, last_uncomplie b <= Z.of_nat t -> (t < i)%nat ->
                   text_buffer !! t = Some task ->
                   tokens_text (input_chunk_ task) = [];
  formed_statuses : length (statuses b) = length text_buffer;
  (** the tasks from [last_uncomplie] on have the status they came with *)
  formed_untouched :
    forall t, last_uncomplie b <= Z.of_nat t -> statuses b !! t = status !! t;
  (** and each task before [last_uncomplie] is, or is followed by, a
      task with tokens *)
  formed_followed :
    forall t, Z.of_nat t < last_uncomplie b ->
              exists t' task, (t <= t')%nat /\ text_buffer !! t' = Some task
                              /\ tokens_text (input_chunk_ task) <> []
}.

End BatchForming.

(** ** Concrete runs *)
Module Examples.

(** A request of two text chunks whose first decode fails: the decode
    job leaves [last_token = -1] behind. *)
Definition failing_request : list input_chunk := [TextChunk [1; 2]; TextChunk [3]].

Definition failing_events : list BatchScheduler.chunk_events :=
  [ {| BatchScheduler.encoder_embedding := false;
       BatchScheduler.decode_last_token := -1;
       BatchScheduler.decode_n_past := 2 |};
    {| BatchScheduler.encoder_embedding := false;
       BatchScheduler.decode_last_token := 42;
       BatchScheduler.decode_n_past := 3 |} ].

(** The run of [blocking_infer] on it, with a chunk cache of two slots. *)
Definition failing_run : option BatchScheduler.infer_state :=
  BatchScheduler.blocking_infer 100 failing_request failing_events 0
    (Some (ChunkInferCache.new_cache [2; 3]))
    {| BatchScheduler.last_token := -1; BatchScheduler.n_past := 0 |}.

(** An image chunk submitted to a fresh encoder scheduler (the defaults
    of [EncoderSheduler]: 100 entries, 1024 MB), and the scheduler after
    the worker has run its task with a failing [mtmd_encode_chunk]. *)
Definition image : input_chunk := ImageChunk "img" 4.

Definition encoder_submitted : EncoderScheduler.scheduler :=
  EncoderScheduler.submit_encoder_task image
    {| EncoderScheduler.encode_cache_ := ImageEmbeddingCache.new_cache 100 1024 0;
       EncoderScheduler.encoder_queue_ := [] |}.

Definition encoder_failed : EncoderScheduler.scheduler :=
  EncoderScheduler.process_encoder 8 1000
    {| EncoderScheduler.encode_ret := 1; EncoderScheduler.output_embd := None |}
    encoder_submitted.

(** An embedding cache for two entries that holds two, filled within two
    microseconds of its construction at time 0. *)
Definition full_image_cache : ImageEmbeddingCache.cache :=
  (ImageEmbeddingCache.store 2000 (ImageChunk "b" 1) [0; 0]
     (ImageEmbeddingCache.store 1000 (ImageChunk "a" 1) [0; 0]
        (ImageEmbeddingCache.new_cache 2 1024 0)).2).2.

(** A chunk cache of two slots after a request has stored its first two
    chunks. *)
Definition warm_cache : ChunkInferCache.cache :=
  match ChunkInferCache.store 10 ["h0"; "h1"; "h2"] 0 0 5 4
                              (ChunkInferCache.new_cache [2; 3]) with
  | Some (_, c) =>
      match ChunkInferCache.store 20 ["h0"; "h1"; "h2"] 1 0 6 9 c with
      | Some (_, c) => c
      | None => c
      end
  | None => ChunkInferCache.new_cache [2; 3]
  end.

(** A prompt of twelve tokens for a context of ten. *)
Definition long_prompt : list input_chunk :=
  [TextChunk [1; 2; 3; 4; 5; 6]; ImageChunk "a" 3; TextChunk [7; 8; 9]].

(** Two requests that share their first two chunks. *)
Definition request_a : list input_chunk :=
  [TextChunk [1; 2]; ImageChunk "a" 3; TextChunk [7]].

Definition request_b : list input_chunk :=
  [TextChunk [1; 2]; ImageChunk "a" 5; TextChunk [9]].

(** A prompt of twelve tokens with an empty text chunk in its tail. *)
Definition padded_prompt : list input_chunk :=
  [TextChunk [1; 2; 3; 4; 5; 6]; ImageChunk "a" 3; TextChunk []; TextChunk [7; 8; 9]].

(** The encoder scheduler after the worker has run the task of [image]
    with an encoding of eight values, for a model of two values per
    token. *)
Definition encoder_done : EncoderScheduler.scheduler :=
  EncoderScheduler.process_encoder 2 1000
    {| EncoderScheduler.encode_ret := 0;
       EncoderScheduler.output_embd := Some [1; 2; 3; 4; 5; 6; 7; 8] |}
    encoder_submitted.

(** A chunk cache of two slots, both taken: two requests have stored
    their first chunk, one at time 10 and one at time 20. *)
Definition full_chunk_cache : ChunkInferCache.cache :=
  match ChunkInferCache.store 10 ["a0"; "a1"] 0 0 5 4
                              (ChunkInferCache.new_cache [2; 3]) with
  | Some (_, c) =>
      match ChunkInferCache.store 20 ["b0"; "b1"] 0 1 6 9 c with
      | Some (_, c) => c
      | None => c
      end
  | None => ChunkInferCache.new_cache [2; 3]
  end.

(** A context of two sequences in which no request holds a sequence. *)
Definition idle_context : MicoCommon.LlamaMicoContext :=
  {| MicoCommon.n_seq_max := 2;
     MicoCommon.n_usage_context := 10;
     MicoCommon.process_seqs := ∅;
     MicoCommon.cmpl_to_seq := ∅;
     MicoCommon.antiprompt_tokens := [];
     MicoCommon.memory_scheduler := [] |}.

(** The same context after the requests 7 and 9 have taken their
    sequences and begun to infer. *)
Definition busy_context : MicoCommon.LlamaMicoContext :=
  MicoCommon.set_cmpl_to_seq {[7 := 0; 9 := 1]} idle_context.

(** A scheduler with no job under way. *)
Definition idle_scheduler : LlmScheduler.scheduler :=
  {| LlmScheduler.running_seq_ := ∅; LlmScheduler.process_seqs := ∅ |}.

(** A batch of three tokens of sequence 0, the last asking for logits. *)
Definition last_batch : LlmScheduler.llama_batch :=
  BatchForming.flag_last (BatchForming.added 0 0 [11; 12; 13]).

(** A text buffer: two tasks of request 0 with four tokens between
    them, then a task of request 1 that has no tokens. *)
Definition text_buffer : list BatchForming.SycChunkTask :=
  [ {| BatchForming.input_chunk_ := TextChunk [1; 2; 3];
       BatchForming.cmpl_id := 0; BatchForming.is_last_chunk := false |};
    {| BatchForming.input_chunk_ := TextChunk [4];
       BatchForming.cmpl_id := 0; BatchForming.is_last_chunk := true |};
    {| BatchForming.input_chunk_ := TextChunk [];
       BatchForming.cmpl_id := 1; BatchForming.is_last_chunk := false |} ].

Definition text_statuses : list BatchScheduler.TaskStatus :=
  [BatchScheduler.PENDING; BatchScheduler.PENDING; BatchScheduler.PENDING].

End Examples.


(** * Properties *)

(** ** Strings *)

Lemma string_app_cons (c : ascii) (s t : string) :
  String c s +:+ t = String c (s +:+ t).
Proof. reflexivity. Qed.

Lemma string_app_nil_l (s : string) : EmptyString +:+ s = s.
Proof. reflexivity. Qed.

Lemma string_app_nil_r (s : string) : s +:+ EmptyString = s.
Proof. induction s as [|c s IH]; [done | by rewrite string_app_cons, IH]. Qed.

Lemma string_app_assoc (s1 s2 s3 : string) :
  (s1 +:+ s2) +:+ s3 = s1 +:+ (s2 +:+ s3).
Proof.
  induction s1 as [|c s1 IH]; [done | by rewrite !string_app_cons, IH].
Qed.

(** [String.concat] with the empty separator, as a right fold. *)
Lemma concat_empty_cons (s : string) (l : list string) :
  String.concat EmptyString (s :: l) = s +:+ String.concat EmptyString l.
Proof.
  destruct l as [|s' l]; simpl; [by rewrite string_app_nil_r | done].
Qed.

Lemma concat_empty_app (l1 l2 : list string) :
  String.concat EmptyString (l1 ++ l2)
  = String.concat EmptyString l1 +:+ String.concat EmptyString l2.
Proof.
  induction l1 as [|s l1 IH]; [done |].
  change ((s :: l1) ++ l2) with (s :: (l1 ++ l2)).
  by rewrite !concat_empty_cons, IH, string_app_assoc.
Qed.

(** ** The embedding at work *)

Module Evaluations.

Example hash_to_hex_pads : ChunkHash.hash_to_hex 0x811c9dc5 = "00000000811c9dc5".
Proof. reflexivity. Qed.

Example description_of_text :
  ChunkHash.get_chunk_description (TextChunk [1; -2; 30]) = "1,-2,30,".
Proof. reflexivity. Qed.

Example description_of_image :
  ChunkHash.get_chunk_description (ImageChunk "9f3a" 64) = "IMG:9f3a,".
Proof. reflexivity. Qed.

Example hashes_of_request_a :
  ChunkHash.chunk_hashs Examples.request_a
  = ["d054cf1bbde85f1e"; "3627bea0478f66c0"; "acaa9f244cd129fb"].
Proof. vm_compute. reflexivity. Qed.

(** The reference value of 64-bit FNV-1a for the one-letter string. *)
Example fnv1a_64_of_a : ChunkHash.hash_to_hex (ChunkHash.fnv1a_64 "a") = "af63dc4c8601ec8c".
Proof. vm_compute. reflexivity. Qed.

Example limits :
  map Float32.scale_0_8 [0; 1; 2; 5; 100; 4096] = [0; 0; 1; 4; 80; 3276].
Proof. vm_compute. reflexivity. Qed.

(** Past 2^24 the [float] product leaves the floor of [0.8 n]. *)
Example limit_of_large_size :
  Float32.scale_0_8 (2 ^ 31 - 1) = 1717986944 /\ 4 * (2 ^ 31 - 1) / 5 = 1717986917.
Proof. vm_compute. split; reflexivity. Qed.

Example crop_of_long_prompt :
  DialogUtil.limit_prompt_tokens Examples.long_prompt 10
  = [TextChunk [5; 6]; ImageChunk "a" 3; TextChunk [7; 8; 9]].
Proof. vm_compute. reflexivity. Qed.

(** An image that does not fit ends the walk: the earlier text is lost
    with it. *)
Example crop_stops_at_image :
  DialogUtil.limit_prompt_tokens [TextChunk [1; 2]; ImageChunk "a" 9; TextChunk [7; 8; 9]] 10
  = [TextChunk [7; 8; 9]].
Proof. vm_compute. reflexivity. Qed.

Example copy_into_empty_sequence :
  MemoryScheduler.process (fun _ => -1)
    (MemoryScheduler.submit_cache_mem 7 0 (-1) 4 [])
  = Some ([MemoryScheduler.llama_memory_seq_cp 7 0 0 4], []).
Proof. reflexivity. Qed.

Example copy_skipped :
  MemoryScheduler.process (fun _ => 5)
    (MemoryScheduler.submit_cache_mem 7 0 (-1) 4 [])
  = Some ([], []).
Proof. reflexivity. Qed.

Example warm_cache_slots :
  map (fun m => (m.1, ChunkInferCache.seq_entries m.2))
      (ChunkInferCache.use_seq_mem_ Examples.warm_cache)
  = [(2, []); (3, [0%nat; 1%nat])].
Proof. vm_compute. reflexivity. Qed.

End Evaluations.

(** ** The prefix hash *)

Module ChunkHashFacts.
Import ChunkHash.

(** The stream insertions of [get_chunk_description] build the descriptor
    the specification describes. *)
Lemma text_description_acc (tokens : list Z) (ss : string) :
  fold_left (fun ss t => ss +:+ token_to_string t +:+ ",") tokens ss
  = ss +:+ String.concat EmptyString (map (fun t => token_to_string t +:+ ",") tokens).
Proof.
  revert ss; induction tokens as [|t tokens IH]; intros ss.
  - simpl. by rewrite string_app_nil_r.
  - change (map ?f (t :: tokens)) with (f t :: map f tokens).
    rewrite concat_empty_cons. simpl fold_left. rewrite IH.
    by rewrite !string_app_assoc.
Qed.

Lemma get_chunk_description_descriptor (chunk : input_chunk) :
  get_chunk_description chunk = descriptor chunk.
Proof.
  destruct chunk as [tokens | id n]; [| done].
  unfold get_chunk_description, descriptor. by rewrite text_description_acc.
Qed.

Lemma descriptor_stream_S (chunk : input_chunk) (rest : list input_chunk) (i : nat) :
  descriptor_stream (chunk :: rest) (S i)
  = descriptor chunk +:+ descriptor_stream rest i.
Proof. unfold descriptor_stream. simpl take. by rewrite fmap_cons, concat_empty_cons. Qed.

(** The loop invariant of [chunk_hashs]: with [prompt_string] accumulated
    so far, the pass over the remaining chunks pushes, at offset [i], the
    hash of [prompt_string] followed by the descriptors up to [i]. *)
Lemma chunk_hashs_loop_spec (chunks : list input_chunk) (prompt_string : string)
      (hashes : list string) :
  chunk_hashs_loop chunks prompt_string hashes
  = hashes ++ map (fun i => hash_to_hex
                              (simple_hash (prompt_string +:+ descriptor_stream chunks i)))
                  (seq 0 (length chunks)).
Proof.
  revert prompt_string hashes.
  induction chunks as [|chunk rest IH]; intros prompt_string hashes.
  - simpl. by rewrite app_nil_r.
  - simpl chunk_hashs_loop. rewrite IH, <- app_assoc. f_equal.
    simpl length. simpl seq. rewrite fmap_cons. simpl app. f_equal.
    + unfold descriptor_stream. simpl.
      by rewrite get_chunk_description_descriptor.
    + rewrite <- seq_shift, map_map. apply map_ext. intros i.
      by rewrite descriptor_stream_S, get_chunk_description_descriptor,
        string_app_assoc.
Qed.

Lemma list_ascii_of_string_app (s1 s2 : string) :
  list_ascii_of_string (s1 +:+ s2) = list_ascii_of_string s1 ++ list_ascii_of_string s2.
Proof.
  induction s1 as [|c s1 IH]; [done |].
  rewrite string_app_cons. simpl. by rewrite IH.
Qed.

(** C3 (as the code has it): the hash at position [i] is the 16-digit
    hexadecimal rendering of [simple_hash] applied to the concatenated
    descriptors of chunks [0..i], and of nothing else; [simple_hash]
    starts from 0x811c9dc5 and, per character, xors the character in and
    multiplies by 0x01000193 modulo 2^64. *)
Theorem chunk_hashs_descriptor_stream (chunks : list input_chunk) :
  chunk_hashs chunks
  = map (fun i => hash_to_hex (simple_hash (descriptor_stream chunks i)))
        (seq 0 (length chunks))
  /\ simple_hash EmptyString = 0x811c9dc5
  /\ forall (s : string) (c : ascii),
       simple_hash (s +:+ String c EmptyString)
       = (Z.lxor (simple_hash s) (char_to_uint64 c) * 0x01000193) mod 2 ^ 64.
Proof.
  split; [| split].
  - unfold chunk_hashs. by rewrite chunk_hashs_loop_spec.
  - reflexivity.
  - intros s c. unfold simple_hash.
    by rewrite list_ascii_of_string_app, fold_left_app.
Qed.

(** On 7-bit characters, which is all that token ids, commas and
    hexadecimal image ids are made of, [simple_hash] is FNV-1a over 64-bit
    words run with the 32-bit offset basis and prime. *)
Lemma simple_hash_fnv1a (s : string) :
  Forall (fun c => Z.of_N (N_of_ascii c) < 128) (list_ascii_of_string s) ->
  simple_hash s = fnv1a 0x811c9dc5 0x01000193 s.
Proof.
  unfold simple_hash, fnv1a. generalize 0x811c9dc5.
  induction (list_ascii_of_string s) as [|c l IH]; intros hash Hascii; [done |].
  apply Forall_cons in Hascii as [Hc Hl]. simpl. rewrite IH by done.
  unfold char_to_uint64. by rewrite (proj2 (Z.ltb_lt _ _) Hc).
Qed.

(** C3 (as the specification has it) fails: for the one-chunk list with
    tokens 1 and 2 the hash at position 0 is not the 64-bit FNV-1a hash
    of the descriptor ["1,2,"]. *)
Lemma chunk_hashs_not_fnv1a_64 :
  chunk_hashs [TextChunk [1; 2]] !! 0%nat
  <> Some (hash_to_hex (fnv1a_64 (descriptor_stream [TextChunk [1; 2]] 0))).
Proof. vm_compute. discriminate. Qed.

Lemma chunk_hashs_lookup (chunks : list input_chunk) (i : nat) :
  (i < length chunks)%nat ->
  chunk_hashs chunks !! i
  = Some (hash_to_hex (simple_hash (descriptor_stream chunks i))).
Proof.
  intros Hi. unfold chunk_hashs. rewrite chunk_hashs_loop_spec. simpl.
  rewrite list_lookup_fmap. by rewrite lookup_seq_lt.
Qed.

Lemma chunks_agree_descriptor (c1 c2 : input_chunk) :
  chunks_agree c1 c2 -> descriptor c1 = descriptor c2.
Proof. destruct c1, c2; simpl; intros H; by subst. Qed.

(** Chunk lists that agree up to position [i] have the same descriptor
    stream at [i]. *)
Lemma descriptor_stream_agree (cs1 cs2 : list input_chunk) (i : nat) :
  (i < length cs1)%nat -> (i < length cs2)%nat ->
  (forall j c1 c2, (j <= i)%nat -> cs1 !! j = Some c1 -> cs2 !! j = Some c2 ->
                   chunks_agree c1 c2) ->
  descriptor_stream cs1 i = descriptor_stream cs2 i.
Proof.
  intros H1 H2 Hagree. unfold descriptor_stream. f_equal.
  apply list_eq. intros j. rewrite !list_lookup_fmap.
  destruct (decide (j < S i)%nat) as [Hj | Hj].
  - rewrite !lookup_take_lt by done.
    destruct (lookup_lt_is_Some_2 cs1 j) as [c1 Hc1]; [lia |].
    destruct (lookup_lt_is_Some_2 cs2 j) as [c2 Hc2]; [lia |].
    rewrite Hc1, Hc2. simpl. f_equal.
    apply chunks_agree_descriptor, (Hagree j); [lia | done | done].
  - by rewrite !lookup_take_ge by lia.
Qed.

(** C7: chunk lists whose chunks agree at every position up to and
    including [k] get the same hash string at every position [0..k]. *)
Theorem chunk_hashs_prefix_cumulative (cs1 cs2 : list input_chunk) (k : nat) :
  (k < length cs1)%nat -> (k < length cs2)%nat ->
  (forall j c1 c2, (j <= k)%nat -> cs1 !! j = Some c1 -> cs2 !! j = Some c2 ->
                   chunks_agree c1 c2) ->
  forall i, (i <= k)%nat ->
    is_Some (chunk_hashs cs1 !! i) /\ chunk_hashs cs1 !! i = chunk_hashs cs2 !! i.
Proof.
  intros H1 H2 Hagree i Hi.
  rewrite !chunk_hashs_lookup by lia. split; [by eexists |].
  rewrite (descriptor_stream_agree cs1 cs2 i); [done | lia | lia |].
  intros j c1 c2 Hj. apply Hagree. lia.
Qed.

End ChunkHashFacts.

(** ** The memory scheduler's copy closure *)

Module MemorySchedulerFacts.
Import MemoryScheduler.

(** C8 (as the code has it): when the closure of [submit_cache_mem] runs
    it clamps the start to [p0' = max p0 (max_pos + 1)] and makes the copy
    call, on [[p0', p1)], exactly when [p1 = -1] or [p0' <= p1]; otherwise
    it makes no call on the KV memory at all. *)
Theorem cache_mem_task_copies (seq_pos_max : Z -> Z) (src dst p0 p1 : Z) :
  let p0' := Z.max p0 (seq_pos_max dst + 1) in
  (run_task seq_pos_max (cache_mem src dst p0 p1) = [llama_memory_seq_cp src dst p0' p1]
   <-> (p1 = -1 \/ p0' <= p1))
  /\ (run_task seq_pos_max (cache_mem src dst p0 p1) = []
      <-> ~ (p1 = -1 \/ p0' <= p1)).
Proof.
  intros p0'. unfold run_task. fold p0'.
  destruct (Z.leb_spec p0' p1) as [Hle | Hle];
    destruct (Z.eqb_spec p1 (-1)) as [Heq | Heq]; simpl.
  all: split; split; intros H; try done; try lia.
  all: try (exfalso; apply H; lia).
Qed.

(** A copy that is made starts past every position the destination
    holds, and not before the requested start. *)
Lemma cache_mem_task_start (seq_pos_max : Z -> Z) (src dst p0 p1 : Z) (c : memory_call) :
  c ∈ run_task seq_pos_max (cache_mem src dst p0 p1) ->
  exists p, c = llama_memory_seq_cp src dst p p1 /\ seq_pos_max dst < p /\ p0 <= p.
Proof.
  unfold run_task.
  destruct ((_ <=? _) || _); [| by intros ?%elem_of_nil].
  intros ->%list_elem_of_singleton. eexists. split; [done | lia].
Qed.

(** C8 (as the specification has it) fails on the boundary: restoring
    positions [[0, 4)] into a sequence that already holds positions
    [0..3] clamps the start to 4, the range [[4, 4)] is empty, and the
    closure still makes the copy call. *)
Lemma cache_mem_task_copies_empty_range :
  ~ (run_task (fun _ => 3) (cache_mem 7 0 (-1) 4) <> []
     <-> range_nonempty (Z.max (-1) (3 + 1)) 4).
Proof.
  unfold range_nonempty. vm_compute. intros [H _].
  destruct H as [H | H]; [discriminate | discriminate | discriminate].
Qed.

End MemorySchedulerFacts.

(** ** Single-precision scaling by 0.8 *)

Module Float32Facts.
Import Float32.

(** Integers below 2^24 convert to [float] exactly. *)
Lemma of_int_exact (n : Z) : 0 <= n < 2 ^ 24 -> of_int n = {| mant := n; expo := 0 |}.
Proof.
  intros Hn. unfold of_int, round. cbn [mant expo]. rewrite Z.abs_eq by lia.
  destruct (Z.leb_spec (Z.log2 n + 1) 24) as [|Hb]; [done | exfalso].
  destruct (decide (n = 0)) as [-> | Hn0]; [done |].
  assert (Z.log2 n < 24) by (apply Z.log2_lt_pow2; lia). lia.
Qed.

(** Evaluate the powers of two with a closed exponent. *)
Ltac pow_consts :=
  repeat match goal with
    | |- context [Z.pow 2 ?k] =>
        let v := eval vm_compute in (Z.pow 2 k) in
        progress change (Z.pow 2 k) with v
    | H : context [Z.pow 2 ?k] |- _ =>
        let v := eval vm_compute in (Z.pow 2 k) in
        progress change (Z.pow 2 k) with v in H
    end.

(** The product of [n] and the [float] 0.8 has [s + 24] bits; rounded to
    24 bits and truncated to an integer it is the floor of [4n/5].  One
    linear problem per bit length. *)
Lemma rounded_quotient_floor_at (s n : Z) :
  0 <= n < 4194304 ->
  2 ^ (s + 23) <= n * 13421773 < 2 ^ (s + 24) ->
  (s = 1 \/ s = 2 \/ s = 3 \/ s = 4 \/ s = 5 \/ s = 6 \/ s = 7 \/ s = 8 \/ s = 9 \/ s = 10 \/ s = 11
   \/ s = 12 \/ s = 13 \/ s = 14 \/ s = 15 \/ s = 16 \/ s = 17 \/ s = 18 \/ s = 19 \/ s = 20
   \/ s = 21 \/ s = 22) ->
  rounded_quotient (n * 13421773) s / 2 ^ (24 - s) = 4 * n / 5.
Proof.
  intros Hn Hm Hs. unfold rounded_quotient.
  (repeat (destruct Hs as [-> | Hs]); try subst s; pow_consts;
  (destruct (_ || _) eqn:Hr; Z.div_mod_to_equations; lia)).
Qed.

Lemma rounded_quotient_nonneg (m s : Z) : 0 <= m -> 0 <= s -> 0 <= rounded_quotient m s.
Proof.
  intros Hm Hs. unfold rounded_quotient.
  assert (0 <= m / 2 ^ s) by (apply Z.div_pos; [lia | apply Z.pow_pos_nonneg; lia]).
  destruct (_ || _); lia.
Qed.

(** For sizes below 2^22 the [float] computation of the 80% limit is
    exact: it yields the floor of [4n/5]. *)
Lemma scale_0_8_floor (n : Z) : 0 <= n < 2 ^ 22 -> scale_0_8 n = 4 * n / 5.
Proof.
  intros Hn. change (2 ^ 22) with 4194304 in Hn.
  unfold scale_0_8. rewrite of_int_exact by lia.
  unfold mul, f0_8. cbn [mant expo]. unfold round. cbn [mant expo].
  remember (n * 13421773) as m eqn:Em.
  assert (Hm0 : 0 <= m) by lia. rewrite (Z.abs_eq m) by lia.
  destruct (Z.leb_spec (Z.log2 m + 1) 24) as [Hb | Hb].
  - unfold to_int. cbn [mant expo]. change (0 <=? 0 + -24) with false. cbv iota.
    change (2 ^ (- (0 + -24))) with 16777216.
    rewrite Z.quot_div_nonneg by lia.
    destruct (decide (m = 0)) as [Hz | Hz].
    + assert (n = 0) by lia. subst. done.
    + assert (m < 2 ^ 24) by (apply Z.log2_lt_pow2; lia).
      change (2 ^ 24) with 16777216 in *. subst m. Z.div_mod_to_equations. lia.
  - assert (Hm : 0 < m).
    { destruct (decide (m = 0)) as [Hz |]; [| lia]. rewrite Hz in Hb. simpl in Hb. lia. }
    pose proof (Z.log2_spec m Hm) as Hspec.
    assert (Hl : Z.log2 m < 46).
    { apply Z.log2_lt_pow2; [lia |]. change (2 ^ 46) with 70368744177664. lia. }
    remember (Z.log2 m) as l eqn:El. clear El.
    remember (l + 1 - 24) as s eqn:Es.
    assert (Hsgn : Z.sgn m = 1) by lia. rewrite Hsgn, Z.mul_1_l.
    unfold to_int. cbn [mant expo].
    destruct (Z.leb_spec 0 (0 + -24 + s)) as [Hc | Hc]; [lia |].
    rewrite Z.quot_div_nonneg.
    + replace (- (0 + -24 + s)) with (24 - s) by lia. subst m.
      apply rounded_quotient_floor_at; [lia | | lia].
      replace (s + 23) with l by lia. replace (s + 24) with (Z.succ l) by lia. done.
    + apply rounded_quotient_nonneg; lia.
    + apply Z.pow_pos_nonneg; lia.
Qed.



End Float32Facts.

(** ** Cropping the prompt *)

Module DialogUtilFacts.
Import DialogUtil.

Lemma count_tokens_acc (chunks : list input_chunk) (acc : Z) :
  fold_left (fun current_tokens chunk => current_tokens + Z.of_nat (chunk_n_tokens chunk))
            chunks acc
  = acc + count_tokens chunks.
Proof.
  unfold count_tokens. revert acc.
  induction chunks as [|chunk chunks IH]; intros acc; simpl; [lia |].
  rewrite IH, (IH (0 + _)). lia.
Qed.

Lemma count_tokens_cons (chunk : input_chunk) (chunks : list input_chunk) :
  count_tokens (chunk :: chunks) = Z.of_nat (chunk_n_tokens chunk) + count_tokens chunks.
Proof. unfold count_tokens at 1. simpl. by rewrite count_tokens_acc. Qed.

Lemma count_tokens_app (l1 l2 : list input_chunk) :
  count_tokens (l1 ++ l2) = count_tokens l1 + count_tokens l2.
Proof.
  induction l1 as [|chunk l1 IH]; [done |].
  simpl app. rewrite !count_tokens_cons, IH. lia.
Qed.

Lemma count_tokens_nonneg (chunks : list input_chunk) : 0 <= count_tokens chunks.
Proof.
  induction chunks as [|chunk chunks IH]; [done |].
  rewrite count_tokens_cons. lia.
Qed.

(** The loop of the source, started at any index with any chunks already
    kept, is the walk of the specification over the chunks still to
    visit. *)
Lemma crop_loop_from_tail (chunks : list input_chunk) (visit : nat)
      (remaining_tokens : Z) (new_chunks : list input_chunk) :
  (visit <= length chunks)%nat ->
  crop_loop chunks visit remaining_tokens new_chunks
  = crop_from_tail (reverse (take visit chunks)) remaining_tokens ++ new_chunks.
Proof.
  revert remaining_tokens new_chunks.
  induction visit as [|i IH]; intros remaining_tokens new_chunks Hvisit.
  - by rewrite take_0.
  - destruct (lookup_lt_is_Some_2 chunks i) as [chunk Hchunk]; [lia |].
    rewrite (take_S_r _ _ _ Hchunk), reverse_snoc.
    simpl. rewrite Hchunk.
    destruct (remaining_tokens <=? 0) eqn:Hrem; [done |].
    apply Z.leb_gt in Hrem.
    destruct chunk as [tokens | id n].
    + rewrite (Z.min_comm remaining_tokens).
      destruct (Z.ltb_spec 0 (Z.min (Z.of_nat (length tokens)) remaining_tokens)) as [Hk | Hk].
      * rewrite IH by lia. rewrite <- app_assoc. simpl.
        replace (Z.to_nat (Z.of_nat (length tokens)
                           - Z.min (Z.of_nat (length tokens)) remaining_tokens))
          with (length tokens
                - Z.to_nat (Z.min (Z.of_nat (length tokens)) remaining_tokens))%nat
          by lia.
        done.
      * rewrite IH by lia. rewrite app_nil_r. do 2 f_equal. lia.
    + destruct (Z.of_nat n <=? remaining_tokens); [| done].
      rewrite IH by lia. by rewrite <- app_assoc.
Qed.

(** What the walk keeps fits the budget. *)
Lemma crop_from_tail_fits (later_first : list input_chunk) (budget : Z) :
  count_tokens (crop_from_tail later_first budget) <= Z.max 0 budget.
Proof.
  revert budget. induction later_first as [|chunk earlier IH]; intros budget.
  - simpl. unfold count_tokens. simpl. lia.
  - simpl. destruct (Z.leb_spec budget 0) as [Hb | Hb].
    + unfold count_tokens. simpl. lia.
    + destruct chunk as [tokens | id n].
      * rewrite count_tokens_app.
        pose proof (IH (budget - Z.min budget (Z.of_nat (length tokens)))) as Hrest.
        destruct (Z.ltb_spec 0 (Z.min budget (Z.of_nat (length tokens)))) as [Hk | Hk].
        -- rewrite count_tokens_cons. simpl chunk_n_tokens.
           rewrite length_drop. unfold count_tokens at 2. simpl. lia.
        -- unfold count_tokens at 2. simpl. lia.
      * destruct (Z.leb_spec (Z.of_nat n) budget) as [Hn | Hn].
        -- rewrite count_tokens_app, count_tokens_cons.
           pose proof (IH (budget - Z.of_nat n)) as Hrest.
           unfold count_tokens at 2. simpl. lia.
        -- unfold count_tokens. simpl. lia.
Qed.


End DialogUtilFacts.

(** ** The chunk inference cache *)

Module ChunkInferCacheFacts.
Import ChunkInferCache.

(** *** [lookup] *)

Lemma touch_fields (now : Z) (e : entry_ref) (m : Z * SeqEntryList) :
  (touch now e m).1 = m.1
  /\ cache_seq_id (touch now e m).2 = cache_seq_id m.2
  /\ last_pos (touch now e m).2 = last_pos m.2
  /\ seq_entries (touch now e m).2 = seq_entries m.2
  /\ last_access (touch now e m).2
     = if bool_decide (e ∈ seq_entries m.2) then now else last_access m.2.
Proof. unfold touch. by destruct (bool_decide _). Qed.

(** C10: a lookup of a stored hash returns the mapped entry; the hash
    map, the entries, the wait set and every slot's id, position and
    entry list stay as they were; a slot's [last_access] is refreshed
    exactly when the entry's count is 1 and the slot contains the entry;
    on an entry whose count is not 1 the whole cache is left unchanged. *)
Theorem lookup_hit_frame (now : Z) (chunk_hash : string) (c : cache)
        (e : entry_ref) (entry : CacheEntry) :
  cache_map_ c !! chunk_hash = Some e ->
  entries c !! e = Some entry ->
  (lookup now chunk_hash c).1 = Some e
  /\ cache_map_ (lookup now chunk_hash c).2 = cache_map_ c
  /\ entries (lookup now chunk_hash c).2 = entries c
  /\ cache_wait_set_ (lookup now chunk_hash c).2 = cache_wait_set_ c
  /\ memory_tasks (lookup now chunk_hash c).2 = memory_tasks c
  /\ length (use_seq_mem_ (lookup now chunk_hash c).2) = length (use_seq_mem_ c)
  /\ (forall i m, use_seq_mem_ c !! i = Some m ->
        exists m', use_seq_mem_ (lookup now chunk_hash c).2 !! i = Some m'
                   /\ m'.1 = m.1
                   /\ cache_seq_id m'.2 = cache_seq_id m.2
                   /\ last_pos m'.2 = last_pos m.2
                   /\ seq_entries m'.2 = seq_entries m.2
                   /\ last_access m'.2
                      = if bool_decide (reference_count entry = 1 /\ e ∈ seq_entries m.2)
                        then now else last_access m.2)
  /\ (reference_count entry <> 1 -> (lookup now chunk_hash c).2 = c).
Proof.
  intros Hmap Hentry. unfold lookup. rewrite Hmap, Hentry.
  destruct (Z.eqb_spec (reference_count entry) 1) as [Hrc | Hrc]; simpl.
  - repeat split; try done.
    + by rewrite length_map.
    + intros i m Hm. exists (touch now e m).
      rewrite list_lookup_fmap, Hm.
      destruct (touch_fields now e m) as (H1 & H2 & H3 & H4 & H5).
      repeat split; try done. rewrite H5.
      destruct (decide (e ∈ seq_entries m.2)) as [Hin | Hin].
      * by rewrite !bool_decide_eq_true_2.
      * rewrite !bool_decide_eq_false_2; [done | tauto | done].
  - repeat split; try done.
    intros i m Hm. exists m. repeat split; try done.
    rewrite bool_decide_eq_false_2; [done | tauto].
Qed.

(** A miss changes nothing. *)
Lemma lookup_miss (now : Z) (chunk_hash : string) (c : cache) :
  cache_map_ c !! chunk_hash = None -> lookup now chunk_hash c = (None, c).
Proof. intros H. unfold lookup. by rewrite H. Qed.

End ChunkInferCacheFacts.

(** *** The choice of the target slot in [store] *)

Module StoreFacts.
Import ChunkInferCache.

Lemma scan_slots_none (P : SeqEntryList -> bool) (slots : list (Z * SeqEntryList))
      (i : nat) (target_seq : option nat) :
  (forall m, m ∈ slots -> P m.2 = false) ->
  scan_slots P slots i target_seq = target_seq.
Proof.
  revert i target_seq. induction slots as [|m slots IH]; intros i target_seq HP; [done |].
  simpl. rewrite IH.
  - rewrite (HP m); [done | by left].
  - intros m' Hm'. apply HP. by right.
Qed.

(** A slot the scan returns satisfies the test, unless it is the one the
    scan started with. *)
Lemma scan_slots_some (P : SeqEntryList -> bool) (slots : list (Z * SeqEntryList))
      (i : nat) (target_seq : option nat) (t : nat) :
  scan_slots P slots i target_seq = Some t ->
  target_seq = Some t
  \/ exists m, (i <= t)%nat /\ slots !! (t - i)%nat = Some m /\ P m.2 = true.
Proof.
  revert i target_seq. induction slots as [|m slots IH]; intros i target_seq Hscan.
  - by left.
  - simpl in Hscan. apply IH in Hscan as [Hacc | (m' & Hle & Hm' & HP)].
    + destruct (P m.2) eqn:HPm; [| by left].
      right. exists m. injection Hacc as <-. by rewrite Nat.sub_diag.
    + right. exists m'. split; [lia |]. split; [| done].
      replace (t - i)%nat with (S (t - S i)) by lia. done.
Qed.

(** The scan finds a slot whenever one satisfies the test. *)
Lemma scan_slots_found (P : SeqEntryList -> bool) (slots : list (Z * SeqEntryList))
      (i : nat) (target_seq : option nat) (m : Z * SeqEntryList) :
  m ∈ slots -> P m.2 = true ->
  exists t m', scan_slots P slots i target_seq = Some t
               /\ (i <= t)%nat /\ slots !! (t - i)%nat = Some m' /\ P m'.2 = true.
Proof.
  revert i target_seq m.
  induction slots as [|m0 rest IH]; intros i target_seq m Hm HP.
  - by apply elem_of_nil in Hm.
  - simpl.
    destruct (decide (Exists (fun m' => P m'.2 = true) rest)) as [Hex | Hnone].
    + apply Exists_exists in Hex as (m1 & Hm1 & HP1).
      destruct (IH (S i) (if P m0.2 then Some i else target_seq) m1 Hm1 HP1)
        as (t & m' & Hscan & Hle & Hm' & HP').
      exists t, m'. split; [done |]. split; [lia |]. split; [| done].
      replace (t - i)%nat with (S (t - S i)) by lia. done.
    + rewrite scan_slots_none.
      * apply elem_of_cons in Hm as [-> | Hm].
        -- rewrite HP. exists i, m0. by rewrite Nat.sub_diag.
        -- exfalso. apply Hnone, Exists_exists. by exists m.
      * intros m1 Hm1. destruct (P m1.2) eqn:HP1; [| done].
        exfalso. apply Hnone, Exists_exists. by exists m1.
Qed.

Lemma ends_with_true (e : entry_ref) (s : SeqEntryList) :
  ends_with e s = true <-> last (seq_entries s) = Some e.
Proof.
  unfold ends_with. destruct (last (seq_entries s)) as [e' |]; [| done].
  rewrite bool_decide_eq_true. split; [by intros -> | by intros [= ->]].
Qed.

Lemma is_empty_slot_true (s : SeqEntryList) :
  is_empty_slot s = true <-> seq_entries s = [].
Proof. unfold is_empty_slot. by destruct (seq_entries s). Qed.



(** With neither, there is no target. *)
Lemma select_target_none (slots : list (Z * SeqEntryList)) (pre_entries : list entry_ref) :
  (forall e m', last pre_entries = Some e -> m' ∈ slots ->
                last (seq_entries m'.2) <> Some e) ->
  (forall m', m' ∈ slots -> seq_entries m'.2 <> []) ->
  select_target slots pre_entries = None.
Proof.
  intros Hnone Hfull. unfold select_target.
  assert (match last pre_entries with
          | Some e => scan_slots (ends_with e) slots 0 None
          | None => None
          end = None) as ->.
  { destruct (last pre_entries) as [e |] eqn:Hlast; [| done].
    apply scan_slots_none. intros m' Hm'.
    destruct (ends_with e m'.2) eqn:HP; [| done].
    apply ends_with_true in HP. by destruct (Hnone e m'). }
  apply scan_slots_none. intros m' Hm'.
  destruct (is_empty_slot m'.2) eqn:HP; [| done].
  apply is_empty_slot_true in HP. by destruct (Hfull m').
Qed.

(** Whatever the target is, it ends with the last prefix entry or it is
    empty. *)
Lemma select_target_some (slots : list (Z * SeqEntryList)) (pre_entries : list entry_ref)
      (t : nat) :
  select_target slots pre_entries = Some t ->
  exists m, slots !! t = Some m
            /\ ((exists e, last pre_entries = Some e /\ last (seq_entries m.2) = Some e)
                \/ seq_entries m.2 = []).
Proof.
  unfold select_target. intros Hsel.
  destruct (match last pre_entries with
            | Some e => scan_slots (ends_with e) slots 0 None
            | None => None
            end) as [t' |] eqn:Hfirst.
  - injection Hsel as ->. destruct (last pre_entries) as [e |] eqn:Hlast; [| done].
    apply scan_slots_some in Hfirst as [? | (m & _ & Hm & HP)]; [done |].
    rewrite Nat.sub_0_r in Hm. exists m. split; [done |]. left. exists e.
    by apply ends_with_true in HP.
  - apply scan_slots_some in Hsel as [? | (m & _ & Hm & HP)]; [done |].
    rewrite Nat.sub_0_r in Hm. exists m. split; [done |]. right.
    by apply is_empty_slot_true.
Qed.

(** *** The cached prefix *)


(** The early return of [store] is taken exactly when the hash at
    [chunk_id] is stored. *)
Lemma collect_pre_last_index (cache_map : gmap string entry_ref) (chunk_hashs : list string)
      (chunk_id : nat) (h : string) :
  chunk_hashs !! chunk_id = Some h ->
  last (collect_pre cache_map chunk_hashs chunk_id).*2 = Some chunk_id
  <-> is_Some (cache_map !! h).
Proof.
  intros Hh. unfold collect_pre. rewrite seq_S, omap_app. simpl. rewrite Hh.
  destruct (cache_map !! h) as [e |] eqn:He.
  - rewrite fmap_app. simpl. rewrite last_snoc. by split; [eexists |].
  - rewrite app_nil_r. split; [| by intros [? ?]].
    intros Hlast%last_Some_elem_of. exfalso.
    apply list_elem_of_fmap in Hlast as ([e i] & Hi & Hin). simpl in Hi. subst i.
    apply list_elem_of_omap in Hin as (j & Hj & Hf). apply elem_of_seq in Hj.
    destruct (chunk_hashs !! j) as [h' |]; [| done].
    destruct (cache_map !! h') as [e' |]; [| done].
    injection Hf as -> ->. lia.
Qed.


(** *** Counting references up *)




(** *** [store] with a target *)

Lemma store_locked_target (now : Z) (chunk_hashs : list string) (chunk_id : nat)
      (chunk_hash : string) (seq_id last_token n_past : Z) (c : cache)
      (t : nat) (m : Z * SeqEntryList) :
  let pre_entries := (collect_pre (cache_map_ c) chunk_hashs chunk_id).*1 in
  let r := length (entries c) in
  let entry := built_entry c pre_entries chunk_hash last_token n_past in
  chunk_hashs !! chunk_id = Some chunk_hash ->
  cache_map_ c !! chunk_hash = None ->
  select_target (use_seq_mem_ c) pre_entries = Some t ->
  use_seq_mem_ c !! t = Some m ->
  store_locked now chunk_hashs chunk_id chunk_hash seq_id last_token n_past c
  = (true,
     {| entries := if is_empty_slot m.2
                   then retain (entries c ++ [entry]) pre_entries
                   else entries c ++ [entry];
        cache_wait_set_ := cache_wait_set_ c ∖ {[chunk_hash]};
        cache_map_ := <[chunk_hash := r]> (cache_map_ c);
        use_seq_mem_ :=
          <[t := (m.1, {| cache_seq_id := cache_seq_id m.2;
                          last_pos := n_past;
                          seq_entries := if is_empty_slot m.2
                                         then pre_entries ++ [r]
                                         else seq_entries m.2 ++ [r];
                          last_access := now |})]> (use_seq_mem_ c);
        memory_tasks := MemoryScheduler.submit_cache_mem
                          seq_id (cache_seq_id m.2) (last_pos m.2) (-1) (memory_tasks c) |}).
Proof.
  intros pre_entries r entry Hh Hnew Hsel Hm. unfold store_locked. simpl.
  rewrite bool_decide_eq_false_2.
  2: { rewrite (collect_pre_last_index _ _ _ _ Hh), Hnew. by intros [? ?]. }
  fold pre_entries. rewrite Hsel, Hm. destruct m as [k target_seq]. simpl.
  by destruct (is_empty_slot target_seq).
Qed.


Lemma store_locked_cached (now : Z) (chunk_hashs : list string) (chunk_id : nat)
      (chunk_hash : string) (seq_id last_token n_past : Z) (c : cache) :
  chunk_hashs !! chunk_id = Some chunk_hash ->
  is_Some (cache_map_ c !! chunk_hash) ->
  store_locked now chunk_hashs chunk_id chunk_hash seq_id last_token n_past c
  = (true, set_wait_set (cache_wait_set_ c ∖ {[chunk_hash]}) c).
Proof.
  intros Hh Hold. unfold store_locked. simpl.
  rewrite bool_decide_eq_true_2; [done |].
  by rewrite (collect_pre_last_index _ _ _ _ Hh).
Qed.


End StoreFacts.

(** *** The reference counts *)

Module RefcountFacts.
Import ChunkInferCache.






(** *** Counting references down *)




(** *** Eviction *)










(** *** Publishing a new entry *)












End RefcountFacts.


(** ** The image embedding cache *)

Module ImageEmbeddingCacheFacts.
Import ImageEmbeddingCache.

Lemma to_size_t_range (z : Z) : 0 <= to_size_t z < 2 ^ 64.
Proof. unfold to_size_t. apply Z.mod_pos_bound. done. Qed.

(** [maintain] leaves the cache alone unless it is due. *)
Lemma maintain_not_due (now : Z) (c : cache) :
  need_maintain now c = false -> maintain now c = c.
Proof. intros H. unfold maintain. by rewrite H. Qed.

(** It is due when the interval has passed, in microseconds, and a
    counter has reached its cap. *)
Lemma need_maintain_spec (now : Z) (c : cache) :
  need_maintain now c = true
  <-> maintenance_interval_ c <= time_since_maintenance now c
      /\ (max_num_entries_ c <= total_entries (stats_ c)
          \/ to_size_t (max_memory_usage_ c * 1024 * 1024) <= total_memory_usage (stats_ c)).
Proof.
  unfold need_maintain.
  rewrite andb_true_iff, !negb_true_iff, andb_false_iff, Z.ltb_ge, !Z.ltb_ge. tauto.
Qed.


(** C4 (what the code does): a cache for two entries that holds two is
    maintained 6000 microseconds, that is 6 ms, after its last
    maintenance, and the key at the front of the order list is evicted.
    The interval of 5000 is compared with a duration in microseconds. *)
Theorem maintain_evicts_after_six_milliseconds :
  last_maintenance_ Examples.full_image_cache = 0
  /\ maintenance_interval_ Examples.full_image_cache = 5000
  /\ embed_order Examples.full_image_cache = ["a"; "b"]
  /\ time_since_maintenance 6000000 Examples.full_image_cache = 6000
  /\ embed_order (maintain 6000000 Examples.full_image_cache) = ["b"]
  /\ image_stored_map_ (maintain 6000000 Examples.full_image_cache) !! "a" = None
  /\ total_entries (stats_ (maintain 6000000 Examples.full_image_cache)) = 1.
Proof. vm_compute. repeat split. Qed.

End ImageEmbeddingCacheFacts.

(** ** The encoder scheduler *)

Module EncoderSchedulerFacts.
Import ImageEmbeddingCache EncoderScheduler.

(** A failed encoding returns from [encoder_task] before the cache is
    touched. *)
Lemma encoder_task_failure (model_n_embd now : Z) (chunk : input_chunk)
      (outcome : encode_outcome) (c : cache) :
  encode_ret outcome <> 0 \/ output_embd outcome = None
  \/ Z.of_nat (chunk_n_tokens chunk) * model_n_embd <= 0 ->
  encoder_task model_n_embd now chunk outcome c = c.
Proof.
  intros Hfail. unfold encoder_task. destruct chunk as [tokens | id n]; [done |].
  destruct (Z.eqb_spec (encode_ret outcome) 0) as [Hret | Hret]; [| done]. cbn [negb].
  destruct (output_embd outcome) as [embd |] eqn:Hembd; [| done].
  destruct (Z.ltb_spec 0 (Z.of_nat (chunk_n_tokens (ImageChunk id n)) * model_n_embd))
    as [Hpos | Hpos]; [| done].
  destruct Hfail as [? | [? | ?]]; [done | done | lia].
Qed.

(** So a key that waits keeps waiting, and its waiter stays blocked. *)
Lemma encoder_failure_keeps_waiting (model_n_embd now : Z) (chunk : input_chunk)
      (outcome : encode_outcome) (s : scheduler) :
  encode_ret outcome <> 0 \/ output_embd outcome = None
  \/ Z.of_nat (chunk_n_tokens chunk) * model_n_embd <= 0 ->
  waiting chunk (encode_cache_ s) = true ->
  (wait_for_result chunk
     {| encode_cache_ := encoder_task model_n_embd now chunk outcome (encode_cache_ s);
        encoder_queue_ := encoder_queue_ s |}).1 = Blocked.
Proof.
  intros Hfail Hwait. rewrite encoder_task_failure by done.
  unfold wait_for_result. simpl. by rewrite Hwait.
Qed.

(** C2 (what the code does): an image chunk is submitted, the worker
    runs its task, [mtmd_encode_chunk] fails.  Afterwards the key is not
    in the stored map, but it is still in the wait set, and a caller of
    [wait_for_result] for the chunk remains blocked. *)
Theorem encoder_failure_leaves_key_waiting :
  encoder_queue_ Examples.encoder_submitted = [Examples.image]
  /\ encoder_queue_ Examples.encoder_failed = []
  /\ image_stored_map_ (encode_cache_ Examples.encoder_failed) !! "img" = None
  /\ elements (image_wait_set_ (encode_cache_ Examples.encoder_failed)) = ["img"]
  /\ waiting Examples.image (encode_cache_ Examples.encoder_failed) = true
  /\ (wait_for_result Examples.image Examples.encoder_failed).1 = Blocked.
Proof. vm_compute. repeat split. Qed.

End EncoderSchedulerFacts.

(** ** The per-request pipeline *)

Module BatchSchedulerFacts.
Import BatchScheduler.

(** The value read into [size_t last_token] is never negative, whatever
    the decode has stored. *)
Lemma last_token_read_nonneg (stored : Z) : (to_size_t stored <? 0) = false.
Proof. apply Z.ltb_ge. apply ImageEmbeddingCacheFacts.to_size_t_range. Qed.

(** Hence a chunk that reaches the decode is never marked FAILED and
    never ends the loop. *)
Lemma decode_and_settle_completes (now : Z) (hashs : list string) (is_last : bool) (i : nat)
      (chunk : input_chunk) (chunk_hash : string) (cmpl_id : Z)
      (ev : chunk_events) (st st' : infer_state) (fl : flow) :
  is_text chunk = true \/ encoder_embedding ev = true ->
  (i < length (statuses st))%nat ->
  decode_and_settle now hashs is_last i chunk chunk_hash cmpl_id ev st = Some (fl, st') ->
  fl = Continue /\ statuses st' !! i = Some COMPLETED.
Proof.
  intros Hready Hi. unfold decode_and_settle.
  assert (negb (is_text chunk) && negb (encoder_embedding ev) = false) as ->.
  { destruct Hready as [-> | ->]; [done | by rewrite andb_false_r]. }
  simpl. rewrite last_token_read_nonneg.
  destruct (kv_cache_ st) as [kv |].
  - destruct is_last.
    + intros [= <- <-]. simpl. split; [done |]. by apply list_lookup_insert_eq.
    + destruct (ChunkInferCache.store _ _ _ _ _ _ _) as [[ok kv'] |]; [| done].
      intros [= <- <-]. simpl. split; [done |]. by apply list_lookup_insert_eq.
  - intros [= <- <-]. simpl. split; [done |]. by apply list_lookup_insert_eq.
Qed.

(** C1 (what the code does): the first chunk's decode fails and leaves
    [last_token = -1]; the chunk is marked COMPLETED, its hash is stored
    in the chunk cache with [last_token = -1], and the loop goes on to the
    second chunk. *)
Theorem decode_failure_is_not_detected :
  exists (st : infer_state) (kv : ChunkInferCache.cache) (h : string) (e : nat)
         (entry : ChunkInferCache.CacheEntry),
    Examples.failing_run = Some st
    /\ statuses st = [COMPLETED; COMPLETED]
    /\ state st = {| last_token := 42; n_past := 3 |}
    /\ kv_cache_ st = Some kv
    /\ ChunkHash.chunk_hashs Examples.failing_request !! 0%nat = Some h
    /\ ChunkInferCache.cache_map_ kv !! h = Some e
    /\ ChunkInferCache.entries kv !! e = Some entry
    /\ ChunkInferCache.last_token entry = -1.
Proof.
  eexists _, _, _, _, _.
  split; [vm_compute; reflexivity |].
  split; [reflexivity |]. split; [reflexivity |]. split; [reflexivity |].
  split; [vm_compute; reflexivity |].
  split; [vm_compute; reflexivity |].
  split; [vm_compute; reflexivity |].
  reflexivity.
Qed.

End BatchSchedulerFacts.

(** ** The properties at concrete inputs *)

Module Witnesses.
Import Examples.



Lemma chunk_hashs_prefix_cumulative_witness :
  is_Some (ChunkHash.chunk_hashs request_a !! 1%nat)
  /\ ChunkHash.chunk_hashs request_a !! 1%nat = ChunkHash.chunk_hashs request_b !! 1%nat.
Proof.
  apply (ChunkHashFacts.chunk_hashs_prefix_cumulative request_a request_b 1).
  - simpl. lia.
  - simpl. lia.
  - intros j c1 c2 Hj H1 H2.
    destruct j as [|[|j]]; [| | lia];
      simpl in H1, H2; injection H1 as <-; injection H2 as <-; reflexivity.
  - lia.
Defined.


Lemma lookup_hit_frame_witness :
  (ChunkInferCache.lookup 50 "h0" warm_cache).1 = Some 0%nat
  /\ ChunkInferCache.cache_map_ (ChunkInferCache.lookup 50 "h0" warm_cache).2
     = ChunkInferCache.cache_map_ warm_cache.
Proof.
  destruct (ChunkInferCacheFacts.lookup_hit_frame 50 "h0" warm_cache 0
              {| ChunkInferCache.prompt_hash := "h0"; ChunkInferCache.pos_begin := 0;
                 ChunkInferCache.pos_end := 4; ChunkInferCache.last_token := 5;
                 ChunkInferCache.reference_count := 1 |})
    as (Hres & Hmap & _).
  - vm_compute. reflexivity.
  - vm_compute. reflexivity.
  - split; [exact Hres | exact Hmap].
Defined.



End Witnesses.


(** * Further properties *)

(** ** The hash keys *)

Module ChunkHashKeys.
Import ChunkHash ChunkHashFacts.

Lemma string_length_app (s1 s2 : string) :
  String.length (s1 +:+ s2) = (String.length s1 + String.length s2)%nat.
Proof.
  induction s1 as [|c s1 IH]; [done |].
  rewrite string_app_cons. simpl. by rewrite IH.
Qed.

Lemma hex_digits_S (n : nat) (v : Z) :
  hex_digits (S n) v = hex_digits n (v / 16) +:+ String (hex_digit (v mod 16)) EmptyString.
Proof. reflexivity. Qed.

Lemma hex_digits_length (n : nat) (v : Z) : String.length (hex_digits n v) = n.
Proof.
  revert v. induction n as [|n IH]; intros v; [done |].
  rewrite hex_digits_S, string_length_app, IH. simpl. lia.
Qed.

Lemma chunk_hashs_length (chunks : list input_chunk) :
  length (chunk_hashs chunks) = length chunks.
Proof.
  unfold chunk_hashs. rewrite chunk_hashs_loop_spec. simpl.
  by rewrite length_map, length_seq.
Qed.

(** X1: [chunk_hashs] gives one key per chunk, and every key has sixteen
    characters. *)
Theorem chunk_hashs_one_key_per_chunk (chunks : list input_chunk) :
  length (chunk_hashs chunks) = length chunks
  /\ Forall (fun h => String.length h = 16%nat) (chunk_hashs chunks).
Proof.
  split; [apply chunk_hashs_length |].
  unfold chunk_hashs. rewrite chunk_hashs_loop_spec. simpl.
  apply Forall_forall. intros h (i & -> & _)%list_elem_of_fmap.
  apply hex_digits_length.
Qed.

Lemma string_snoc_inj (s1 s2 : string) (c1 c2 : ascii) :
  s1 +:+ String c1 EmptyString = s2 +:+ String c2 EmptyString -> s1 = s2 /\ c1 = c2.
Proof.
  revert s2. induction s1 as [|a s1 IH]; intros [|b s2] Heq.
  - by injection Heq as ->.
  - rewrite string_app_nil_l, string_app_cons in Heq. injection Heq as _ Heq.
    by destruct s2.
  - rewrite string_app_nil_l, string_app_cons in Heq. injection Heq as _ Heq.
    by destruct s1.
  - rewrite !string_app_cons in Heq. injection Heq as -> Heq.
    by destruct (IH _ Heq) as [-> ->].
Qed.

Lemma hex_digit_inj (d1 d2 : Z) :
  0 <= d1 < 16 -> 0 <= d2 < 16 -> hex_digit d1 = hex_digit d2 -> d1 = d2.
Proof.
  intros H1 H2.
  assert (Hnat : forall n m : nat, (n < 16)%nat -> (m < 16)%nat ->
                   hex_digit (Z.of_nat n) = hex_digit (Z.of_nat m) -> n = m).
  { intros n m Hn Hm.
    do 16 (destruct n as [|n];
           [do 16 (destruct m as [|m]; [vm_compute; congruence |]); lia |]).
    lia. }
  intros Heq. rewrite <- (Z2Nat.id d1), <- (Z2Nat.id d2) in Heq by lia.
  apply Hnat in Heq; lia.
Qed.

Lemma hex_digits_inj (n : nat) (a b : Z) :
  hex_digits n a = hex_digits n b -> a mod 16 ^ Z.of_nat n = b mod 16 ^ Z.of_nat n.
Proof.
  revert a b. induction n as [|n IH]; intros a b Heq.
  - by rewrite !Z.mod_1_r.
  - rewrite !hex_digits_S in Heq. apply string_snoc_inj in Heq as [Hhigh Hlow].
    apply IH in Hhigh. apply hex_digit_inj in Hlow; [| by apply Z.mod_pos_bound ..].
    rewrite Nat2Z.inj_succ, Z.pow_succ_r by lia.
    rewrite !Z.rem_mul_r by lia. by rewrite Hhigh, Hlow.
Qed.

(** X2: The hexadecimal rendering loses nothing: two different 64-bit hash
    values have different keys. *)
Theorem hash_to_hex_injective (a b : Z) :
  0 <= a < 2 ^ 64 -> 0 <= b < 2 ^ 64 -> a <> b -> hash_to_hex a <> hash_to_hex b.
Proof.
  intros Ha Hb Hne Heq. apply Hne. apply hex_digits_inj in Heq.
  change (16 ^ Z.of_nat 16) with (2 ^ 64) in Heq.
  by rewrite !Z.mod_small in Heq.
Qed.

Lemma descriptor_stream_all (chunks : list input_chunk) :
  descriptor_stream chunks (pred (length chunks))
  = String.concat EmptyString (map descriptor chunks).
Proof.
  unfold descriptor_stream. by rewrite take_ge by lia.
Qed.

Lemma last_chunk_hash (chunks : list input_chunk) :
  chunks <> [] ->
  last (chunk_hashs chunks)
  = Some (hash_to_hex (simple_hash (String.concat EmptyString (map descriptor chunks)))).
Proof.
  intros Hne. rewrite last_lookup, chunk_hashs_length.
  rewrite chunk_hashs_lookup by (destruct chunks; [done | simpl; lia]).
  by rewrite descriptor_stream_all.
Qed.

Lemma descriptor_text_app (a b : list Z) :
  descriptor (TextChunk (a ++ b)) = descriptor (TextChunk a) +:+ descriptor (TextChunk b).
Proof. unfold descriptor. by rewrite map_app, concat_empty_app. Qed.

(** X3: The key of a prompt does not see where a run of text is cut into
    chunks: a text chunk and its two halves as consecutive chunks end on
    the same key.  With an empty second half: an empty text chunk repeats
    the key of the chunk before it. *)
Theorem chunk_hashs_ignores_text_split (pre : list input_chunk) (a b : list Z) :
  last (chunk_hashs (pre ++ [TextChunk a; TextChunk b]))
  = last (chunk_hashs (pre ++ [TextChunk (a ++ b)]))
  /\ chunk_hashs (pre ++ [TextChunk a; TextChunk []]) !! S (length pre)
     = chunk_hashs (pre ++ [TextChunk a; TextChunk []]) !! length pre.
Proof.
  split.
  - rewrite !last_chunk_hash by (by destruct pre).
    rewrite !map_app, !concat_empty_app. cbn [map].
    rewrite !concat_empty_cons. change (String.concat EmptyString []) with EmptyString.
    by rewrite descriptor_text_app, !string_app_nil_r.
  - rewrite !chunk_hashs_lookup by (rewrite length_app; simpl; lia).
    do 3 f_equal. unfold descriptor_stream.
    replace (take (S (S (length pre))) (pre ++ [TextChunk a; TextChunk []]))
      with (pre ++ [TextChunk a; TextChunk []])
      by (by rewrite take_ge by (rewrite length_app; simpl; lia)).
    replace (take (S (length pre)) (pre ++ [TextChunk a; TextChunk []]))
      with (pre ++ [TextChunk a]).
    2: { rewrite take_app_ge by lia.
         by replace (S (length pre) - length pre)%nat with 1%nat by lia. }
    rewrite !map_app, !concat_empty_app. cbn [map].
    rewrite !concat_empty_cons. change (String.concat EmptyString []) with EmptyString.
    change (descriptor (TextChunk [])) with EmptyString.
    by rewrite !string_app_nil_r.
Qed.

End ChunkHashKeys.

(** ** What cropping keeps *)

Module CropFacts.
Import DialogUtil DialogUtilFacts.

Lemma crop_from_tail_spent (later_first : list input_chunk) (budget : Z) :
  budget <= 0 -> crop_from_tail later_first budget = [].
Proof.
  intros Hb. destruct later_first as [|chunk earlier]; [done |].
  simpl. by rewrite (proj2 (Z.leb_le _ _) Hb).
Qed.

Lemma limit_prompt_tokens_cropped (chunks : list input_chunk) (n_usage_context : Z) :
  prompt_limit n_usage_context < count_tokens chunks ->
  limit_prompt_tokens chunks n_usage_context
  = crop_from_tail (reverse chunks) (prompt_limit n_usage_context).
Proof.
  intros Hc. unfold limit_prompt_tokens. rewrite (proj2 (Z.ltb_lt _ _) Hc).
  by rewrite crop_loop_from_tail, firstn_all, app_nil_r.
Qed.

Lemma limit_prompt_tokens_kept (chunks : list input_chunk) (n_usage_context : Z) :
  count_tokens chunks <= prompt_limit n_usage_context ->
  limit_prompt_tokens chunks n_usage_context = chunks.
Proof.
  intros Hc. unfold limit_prompt_tokens. by rewrite (proj2 (Z.ltb_ge _ _) Hc).
Qed.

(** X4: Cropping a cropped prompt again changes nothing, whatever the
    context size. *)
Theorem limit_prompt_tokens_idempotent (chunks : list input_chunk) (n_usage_context : Z) :
  limit_prompt_tokens (limit_prompt_tokens chunks n_usage_context) n_usage_context
  = limit_prompt_tokens chunks n_usage_context.
Proof.
  destruct (Z.lt_ge_cases (prompt_limit n_usage_context) (count_tokens chunks)) as [Hc | Hc].
  - rewrite (limit_prompt_tokens_cropped chunks) by done.
    pose proof (crop_from_tail_fits (reverse chunks) (prompt_limit n_usage_context)) as Hfit.
    destruct (Z.lt_ge_cases (prompt_limit n_usage_context) 0) as [Hneg | Hpos].
    + rewrite crop_from_tail_spent by lia.
      unfold limit_prompt_tokens. by destruct (_ <? _).
    + apply limit_prompt_tokens_kept. lia.
  - rewrite (limit_prompt_tokens_kept chunks) by done.
    by apply limit_prompt_tokens_kept.
Qed.

Lemma prompt_items_app (l1 l2 : list input_chunk) :
  prompt_items (l1 ++ l2) = prompt_items l1 ++ prompt_items l2.
Proof. apply bind_app. Qed.

Lemma prompt_items_text (tokens : list Z) :
  prompt_items [TextChunk tokens] = inl <$> tokens.
Proof. unfold prompt_items. by rewrite bind_singleton. Qed.

Lemma crop_from_tail_suffix (later_first : list input_chunk) (budget : Z) :
  prompt_items (crop_from_tail later_first budget)
  `suffix_of` prompt_items (reverse later_first).
Proof.
  revert budget. induction later_first as [|chunk earlier IH]; intros budget.
  - done.
  - rewrite reverse_cons, prompt_items_app. simpl crop_from_tail.
    destruct (Z.leb_spec budget 0) as [Hb | Hb]; [apply suffix_nil |].
    destruct chunk as [tokens | id n].
    + rewrite prompt_items_app.
      destruct (Z.ltb_spec 0 (Z.min budget (Z.of_nat (length tokens)))) as [Hk | Hk].
      * destruct (Z.le_gt_cases (Z.of_nat (length tokens)) budget) as [Hall | Hpart].
        -- replace (length tokens - Z.to_nat (Z.min budget (Z.of_nat (length tokens))))%nat
             with 0%nat by lia.
           rewrite drop_0. by apply suffix_app.
        -- rewrite crop_from_tail_spent by lia.
           change (prompt_items []) with (@nil (Z + string * nat)). rewrite app_nil_l.
           apply suffix_app_r. rewrite !prompt_items_text.
           rewrite fmap_drop. apply suffix_drop.
      * assert (tokens = []) as -> by (destruct tokens; [done | simpl in Hk; lia]).
        change (prompt_items []) with (@nil (Z + string * nat)).
        change (prompt_items [TextChunk []]) with (@nil (Z + string * nat)).
        rewrite !app_nil_r. apply IH.
    + destruct (Z.leb_spec (Z.of_nat n) budget) as [Hn | Hn]; [| apply suffix_nil].
      rewrite prompt_items_app. by apply suffix_app.
Qed.

(** X5: Cropping keeps a tail of the prompt: the tokens and images that
    remain are, in order and without gaps, the last items of the prompt
    that was given. *)
Theorem limit_prompt_tokens_keeps_tail (chunks : list input_chunk) (n_usage_context : Z) :
  prompt_items (limit_prompt_tokens chunks n_usage_context)
  `suffix_of` prompt_items chunks.
Proof.
  destruct (Z.lt_ge_cases (prompt_limit n_usage_context) (count_tokens chunks)) as [Hc | Hc].
  - rewrite limit_prompt_tokens_cropped by done.
    rewrite <- (reverse_involutive chunks) at 2. apply crop_from_tail_suffix.
  - by rewrite limit_prompt_tokens_kept.
Qed.

Lemma crop_from_tail_no_empty_text (later_first : list input_chunk) (budget : Z) :
  TextChunk [] ∉ crop_from_tail later_first budget.
Proof.
  revert budget. induction later_first as [|chunk earlier IH]; intros budget.
  - apply not_elem_of_nil.
  - simpl. destruct (Z.leb_spec budget 0) as [Hb | Hb]; [apply not_elem_of_nil |].
    destruct chunk as [tokens | id n].
    + rewrite elem_of_app. intros [Hin | Hin]; [by apply IH in Hin |].
      destruct (Z.ltb_spec 0 (Z.min budget (Z.of_nat (length tokens)))) as [Hk | Hk];
        [| by apply elem_of_nil in Hin].
      apply list_elem_of_singleton in Hin. injection Hin as Hdrop.
      apply (f_equal length) in Hdrop. rewrite length_drop in Hdrop. simpl in Hdrop. lia.
    + destruct (Z.leb_spec (Z.of_nat n) budget) as [Hn | Hn]; [| apply not_elem_of_nil].
      rewrite elem_of_app. intros [Hin | Hin]; [by apply IH in Hin |].
      by apply list_elem_of_singleton in Hin.
Qed.

(** X6: A prompt that had to be cropped holds no empty text chunk
    afterwards: a text chunk is kept with at least one token or not at
    all. *)
Theorem limit_prompt_tokens_no_empty_text (chunks : list input_chunk) (n_usage_context : Z) :
  prompt_limit n_usage_context < count_tokens chunks ->
  TextChunk [] ∉ limit_prompt_tokens chunks n_usage_context.
Proof.
  intros Hc. rewrite limit_prompt_tokens_cropped by done.
  apply crop_from_tail_no_empty_text.
Qed.

(** X7: When the last chunk is an image with more tokens than the limit, the
    whole prompt is dropped. *)
Theorem limit_prompt_tokens_oversize_last_image (chunks : list input_chunk)
        (id : string) (n : nat) (n_usage_context : Z) :
  prompt_limit n_usage_context < Z.of_nat n ->
  limit_prompt_tokens (chunks ++ [ImageChunk id n]) n_usage_context = [].
Proof.
  intros Hn. rewrite limit_prompt_tokens_cropped.
  - rewrite reverse_snoc. simpl.
    destruct (_ <=? 0); [done |]. by rewrite (proj2 (Z.leb_gt _ _) Hn).
  - rewrite count_tokens_app, count_tokens_cons. simpl chunk_n_tokens.
    pose proof (count_tokens_nonneg chunks). unfold count_tokens at 2. simpl. lia.
Qed.

End CropFacts.

(** ** The image embedding cache and its order list *)

Module ImageCacheBookkeeping.
Import ImageEmbeddingCache ImageEmbeddingCacheFacts.

Lemma to_size_t_idemp (a : Z) : to_size_t (to_size_t a) = to_size_t a.
Proof. unfold to_size_t. by rewrite Z.mod_mod. Qed.

Lemma to_size_t_add_congr (a a' b : Z) :
  to_size_t a = to_size_t a' -> to_size_t (a + b) = to_size_t (a' + b).
Proof.
  unfold to_size_t. intros H.
  by rewrite <- (Zplus_mod_idemp_l a), H, Zplus_mod_idemp_l.
Qed.

Lemma to_size_t_sub_congr (a a' b : Z) :
  to_size_t a = to_size_t a' -> to_size_t (a - b) = to_size_t (a' - b).
Proof.
  unfold to_size_t. intros H.
  by rewrite <- (Zminus_mod_idemp_l a), H, Zminus_mod_idemp_l.
Qed.

(** *** Moving a key to the back *)

Lemma erase_first_notin (key : string) (order : list string) :
  key ∉ order -> erase_first key order = order.
Proof.
  induction order as [|k order IH]; [done |]. intros [Hne Hnotin]%not_elem_of_cons.
  simpl. rewrite decide_False by done. by rewrite IH.
Qed.

Lemma erase_first_perm (key : string) (order : list string) :
  key ∈ order -> erase_first key order ++ [key] ≡ₚ order.
Proof.
  induction order as [|k order IH]; [by intros ?%elem_of_nil |].
  intros Hin. simpl. destruct (decide (k = key)) as [-> | Hne].
  - symmetry. apply Permutation_cons_append.
  - apply elem_of_cons in Hin as [-> | Hin]; [done |].
    simpl. by rewrite IH.
Qed.

(** *** The bytes of the stored vectors *)

Lemma stored_bytes_cons (key : string) (order : list string) (stored : gmap string (list Z)) :
  stored_bytes (key :: order) stored
  = match stored !! key with Some value => byte_size value | None => 0 end
    + stored_bytes order stored.
Proof. reflexivity. Qed.

Lemma stored_bytes_app (l1 l2 : list string) (stored : gmap string (list Z)) :
  stored_bytes (l1 ++ l2) stored = stored_bytes l1 stored + stored_bytes l2 stored.
Proof.
  induction l1 as [|k l1 IH]; [done |].
  simpl app. rewrite !stored_bytes_cons, IH. lia.
Qed.

Lemma stored_bytes_perm (l1 l2 : list string) (stored : gmap string (list Z)) :
  l1 ≡ₚ l2 -> stored_bytes l1 stored = stored_bytes l2 stored.
Proof.
  induction 1 as [| k l1 l2 _ IH | k1 k2 l | l1 l2 l3 _ IH1 _ IH2].
  - done.
  - by rewrite !stored_bytes_cons, IH.
  - rewrite !stored_bytes_cons. lia.
  - by rewrite IH1.
Qed.

Lemma stored_bytes_insert_notin (key : string) (value : list Z) (order : list string)
      (stored : gmap string (list Z)) :
  key ∉ order -> stored_bytes order (<[key := value]> stored) = stored_bytes order stored.
Proof.
  induction order as [|k order IH]; [done |]. intros [Hne Hnotin]%not_elem_of_cons.
  rewrite !stored_bytes_cons, IH by done. by rewrite lookup_insert_ne.
Qed.

Lemma stored_bytes_delete_notin (key : string) (order : list string)
      (stored : gmap string (list Z)) :
  key ∉ order -> stored_bytes order (delete key stored) = stored_bytes order stored.
Proof.
  induction order as [|k order IH]; [done |]. intros [Hne Hnotin]%not_elem_of_cons.
  rewrite !stored_bytes_cons, IH by done. by rewrite lookup_delete_ne.
Qed.

(** *** The eviction loop *)

Lemma evict_loop_keeps_step (te tm : Z) (order : list string)
      (stored : gmap string (list Z)) (n_entries n_bytes : Z) :
  NoDup order ->
  (forall key, key ∈ order <-> is_Some (stored !! key)) ->
  to_size_t n_bytes = to_size_t (stored_bytes order stored) ->
  let r := evict_loop te tm order stored n_entries n_bytes in
  NoDup r.1.1.1
  /\ (forall key, key ∈ r.1.1.1 <-> is_Some (r.1.1.2 !! key))
  /\ to_size_t r.2 = to_size_t (stored_bytes r.1.1.1 r.1.1.2)
  /\ (forall key, r.1.1.2 !! key = None \/ r.1.1.2 !! key = stored !! key).
Proof.
  revert stored n_entries n_bytes.
  induction order as [|key rest IH]; intros stored n_entries n_bytes Hnd Hdom Hbytes.
  - simpl. auto.
  - apply NoDup_cons in Hnd as [Hnotin Hnd]. simpl.
    destruct ((to_size_t te <? n_entries) || (to_size_t tm <? n_bytes)).
    2: { simpl. split; [by apply NoDup_cons |]. auto. }
    set (size := match stored !! key with Some value => byte_size value | None => 0 end).
    destruct (IH (delete key stored) (to_size_t (n_entries - 1)) (to_size_t (n_bytes - size)))
      as (H1 & H2 & H3 & H4).
    + done.
    + intros k. split.
      * intros Hk. rewrite lookup_delete_ne by (intros ->; done).
        apply Hdom. by right.
      * intros Hk. destruct (decide (key = k)) as [-> | Hne].
        { rewrite lookup_delete_eq in Hk. by destruct Hk. }
        rewrite lookup_delete_ne in Hk by done.
        apply Hdom in Hk. by apply elem_of_cons in Hk as [-> | Hk].
    + rewrite to_size_t_idemp, stored_bytes_delete_notin by done.
      rewrite (to_size_t_sub_congr _ _ size Hbytes). rewrite stored_bytes_cons.
      f_equal. fold size. lia.
    + split; [done |]. split; [done |]. split; [done |].
      intros k. destruct (H4 k) as [Hnone | Hsame]; [by left |].
      destruct (decide (key = k)) as [-> | Hne].
      * left. by rewrite Hsame, lookup_delete_eq.
      * right. by rewrite Hsame, lookup_delete_ne.
Qed.

Lemma maintain_in_step (now : Z) (c : cache) : in_step c -> in_step (maintain now c).
Proof.
  intros [H1 H2 H3 H4 H5]. unfold maintain.
  destruct (negb (need_maintain now c)); [by split |].
  pose proof (evict_loop_keeps_step (target_entries c) (target_memory_usage c)
                (embed_order c) (image_stored_map_ c)
                (total_entries (stats_ c)) (total_memory_usage (stats_ c)) H1 H2 H4)
    as (K1 & K2 & K3 & K4).
  destruct (evict_loop _ _ _ _ _ _) as [[[order stored] n_entries] n_bytes].
  simpl in *. split; simpl; try done.
  intros key Hkey. destruct (K4 key) as [Hnone | Hsame]; [done |].
  rewrite Hsame. by apply H5.
Qed.

Lemma maintain_wait_set (now : Z) (c : cache) :
  image_wait_set_ (maintain now c) = image_wait_set_ c.
Proof.
  unfold maintain. destruct (negb _); [done |].
  by destruct (evict_loop _ _ _ _ _ _) as [[[order stored] n_entries] n_bytes].
Qed.

(** *** The operations keep the cache in step *)

Lemma new_cache_in_step (max_entries max_mem now : Z) :
  in_step (new_cache max_entries max_mem now).
Proof.
  split; simpl; try done.
  - apply NoDup_nil_2.
  - intros key. rewrite lookup_empty. split; [by intros ?%elem_of_nil | by intros [? ?]].
Qed.

Lemma prepare_in_step (chunk : input_chunk) (c : cache) :
  in_step c -> in_step (prepare chunk c).2.
Proof.
  intros Hc. unfold prepare.
  destruct (decide (image_hash chunk = EmptyString)); [done |].
  destruct (decide (image_hash chunk ∈ image_wait_set_ c)); [done |].
  destruct (decide (is_Some (image_stored_map_ c !! image_hash chunk))) as [|Hnew]; [done |].
  destruct Hc as [H1 H2 H3 H4 H5]. split; simpl; try done.
  intros key [->%elem_of_singleton | Hkey]%elem_of_union; [| by apply H5].
  by apply eq_None_not_Some.
Qed.

(** A vector stored for a key that waits. *)
Lemma store_in_step (now : Z) (chunk : input_chunk) (embeddings : list Z) (c : cache) :
  in_step c -> image_hash chunk ∈ image_wait_set_ c ->
  in_step (store now chunk embeddings c).2.
Proof.
  intros Hc Hwait. unfold store.
  destruct (decide (image_hash chunk = EmptyString)); [done |].
  pose proof (maintain_in_step now c Hc) as [H1 H2 H3 H4 H5].
  rewrite <- (maintain_wait_set now c) in Hwait.
  set (c1 := maintain now c) in *. set (key := image_hash chunk) in *.
  assert (Hnew : image_stored_map_ c1 !! key = None) by (by apply H5).
  assert (Hnotin : key ∉ embed_order c1).
  { intros Hin%H2. rewrite Hnew in Hin. by destruct Hin. }
  simpl. rewrite erase_first_notin by done. split; simpl.
  - apply NoDup_app. split; [done |]. split; [| apply NoDup_singleton].
    intros k Hk ->%list_elem_of_singleton. done.
  - intros k. rewrite elem_of_app, list_elem_of_singleton.
    destruct (decide (key = k)) as [<- | Hne].
    + rewrite lookup_insert_eq. split; [by eexists | by right].
    + rewrite lookup_insert_ne by done. rewrite <- H2.
      split; [by intros [? | ?] | by left].
  - rewrite to_size_t_idemp, length_app. simpl.
    rewrite (to_size_t_add_congr _ _ 1 H3). f_equal. lia.
  - rewrite to_size_t_idemp, stored_bytes_app, stored_bytes_insert_notin by done.
    rewrite stored_bytes_cons, lookup_insert_eq.
    rewrite (to_size_t_add_congr _ _ (byte_size embeddings) H4).
    f_equal. change (stored_bytes [] _) with 0. lia.
  - intros k [Hk Hne]%elem_of_difference.
    rewrite lookup_insert_ne; [by apply H5 |].
    intros ->. by apply Hne, elem_of_singleton.
Qed.

Lemma lookup_in_step (chunk : input_chunk) (c : cache) :
  in_step c -> in_step (lookup chunk c).2.
Proof.
  intros Hc. unfold lookup.
  destruct (decide (image_hash chunk = EmptyString)); [done |].
  destruct Hc as [H1 H2 H3 H4 H5].
  destruct (image_stored_map_ c !! image_hash chunk) as [value |] eqn:Hvalue;
    [| by split].
  destruct (decide (image_hash chunk ∈ embed_order c)) as [Hin | Hin]; [| by split].
  pose proof (erase_first_perm _ _ Hin) as Hperm.
  split; simpl.
  - by rewrite Hperm.
  - intros key. by rewrite Hperm.
  - by rewrite Hperm.
  - by rewrite (stored_bytes_perm _ _ _ Hperm).
  - done.
Qed.

End ImageCacheBookkeeping.

Module ImageCacheFacts.
Import ImageEmbeddingCache ImageEmbeddingCacheFacts ImageCacheBookkeeping.

Lemma store_then_lookup (now : Z) (id : string) (n : nat)
      (embeddings : list Z) (c : cache) :
  id <> EmptyString ->
  (store now (ImageChunk id n) embeddings c).1 = true
  /\ (lookup (ImageChunk id n) (store now (ImageChunk id n) embeddings c).2).1
     = Some embeddings
  /\ waiting (ImageChunk id n) (store now (ImageChunk id n) embeddings c).2 = false
  /\ storing (ImageChunk id n) (store now (ImageChunk id n) embeddings c).2 = true
  /\ last (embed_order (store now (ImageChunk id n) embeddings c).2) = Some id.
Proof.
  intros Hid. unfold store. simpl image_hash.
  rewrite (decide_False (P := id = EmptyString)) by done.
  unfold lookup, waiting, storing. simpl.
  rewrite !(decide_False (P := id = EmptyString)) by done.
  rewrite lookup_insert_eq. simpl. split; [done |]. split; [done |].
  split; [| split].
  - apply bool_decide_eq_false. intros [_ Hne]%elem_of_difference.
    by apply Hne, elem_of_singleton.
  - done.
  - apply last_snoc.
Qed.

(** X8: A stored embedding is found again: after [store] for an image chunk
    with an id, [lookup] returns the vector that was stored, the chunk
    is stored and no longer waits, and its key is the most recent one of
    the order list. *)
Theorem image_store_lookup_round_trip (now : Z) (id : string) (n : nat)
        (embeddings : list Z) (c : cache) :
  id <> EmptyString ->
  (store now (ImageChunk id n) embeddings c).1 = true
  /\ (lookup (ImageChunk id n) (store now (ImageChunk id n) embeddings c).2).1
     = Some embeddings
  /\ waiting (ImageChunk id n) (store now (ImageChunk id n) embeddings c).2 = false
  /\ storing (ImageChunk id n) (store now (ImageChunk id n) embeddings c).2 = true
  /\ last (embed_order (store now (ImageChunk id n) embeddings c).2) = Some id.
Proof. apply store_then_lookup. Qed.

(** X9: A hit refreshes the key: [lookup] of a stored image returns its
    vector, moves its key to the back of the order list, keeps the keys
    and the stored map as they are, and counts one hit. *)
Theorem lookup_hit_moves_key_to_back (id : string) (n : nat) (value : list Z) (c : cache) :
  id <> EmptyString ->
  image_stored_map_ c !! id = Some value ->
  id ∈ embed_order c ->
  (lookup (ImageChunk id n) c).1 = Some value
  /\ last (embed_order (lookup (ImageChunk id n) c).2) = Some id
  /\ embed_order (lookup (ImageChunk id n) c).2 ≡ₚ embed_order c
  /\ image_stored_map_ (lookup (ImageChunk id n) c).2 = image_stored_map_ c
  /\ hits (stats_ (lookup (ImageChunk id n) c).2) = to_size_t (hits (stats_ c) + 1)
  /\ misses (stats_ (lookup (ImageChunk id n) c).2) = misses (stats_ c).
Proof.
  intros Hid Hvalue Hin. unfold lookup. simpl.
  rewrite (decide_False (P := id = EmptyString)) by done. rewrite Hvalue. simpl.
  rewrite decide_True by done.
  split; [done |]. split; [apply last_snoc |]. split; [by apply erase_first_perm |].
  done.
Qed.



End ImageCacheFacts.

(** ** The encoder scheduler's states *)

Module EncoderSchedulerStates.
Import ImageEmbeddingCache EncoderScheduler ImageCacheBookkeeping.

(** A submission either enqueues the chunk and makes its key wait, or
    changes nothing. *)
Lemma submit_encoder_task_cases (chunk : input_chunk) (s : scheduler) :
  (image_hash chunk <> EmptyString
   /\ (image_hash chunk ∉ image_wait_set_ (encode_cache_ s))
   /\ image_stored_map_ (encode_cache_ s) !! image_hash chunk = None
   /\ submit_encoder_task chunk s
      = {| encode_cache_ := (prepare chunk (encode_cache_ s)).2;
           encoder_queue_ := encoder_queue_ s ++ [chunk] |}
   /\ image_wait_set_ (prepare chunk (encode_cache_ s)).2
      = {[image_hash chunk]} ∪ image_wait_set_ (encode_cache_ s))
  \/ ((image_hash chunk = EmptyString
       \/ image_hash chunk ∈ image_wait_set_ (encode_cache_ s)
       \/ is_Some (image_stored_map_ (encode_cache_ s) !! image_hash chunk))
      /\ submit_encoder_task chunk s = s).
Proof.
  destruct s as [c queue]. unfold submit_encoder_task, prepare. simpl.
  destruct (decide (image_hash chunk = EmptyString)) as [Hempty | Hkey].
  { right. rewrite decide_True by done. auto. }
  destruct (decide (image_hash chunk ∈ image_wait_set_ c)) as [Hwait | Hwait].
  { right. auto. }
  destruct (decide (is_Some (image_stored_map_ c !! image_hash chunk))) as [Hold | Hnew].
  { right. auto. }
  left. rewrite decide_False by done. repeat split; try done.
  by apply eq_None_not_Some.
Qed.

Lemma store_wait_set (now : Z) (chunk : input_chunk) (embeddings : list Z) (c : cache) :
  image_hash chunk <> EmptyString ->
  image_wait_set_ (store now chunk embeddings c).2
  = image_wait_set_ c ∖ {[image_hash chunk]}.
Proof.
  intros Hkey. unfold store. rewrite decide_False by done. simpl.
  by rewrite maintain_wait_set.
Qed.

Lemma lookup_wait_set (chunk : input_chunk) (c : cache) :
  image_wait_set_ (lookup chunk c).2 = image_wait_set_ c.
Proof.
  unfold lookup. destruct (decide _); [done |]. by destruct (_ !! _).
Qed.

(** The worker's task leaves the cache alone or stores a vector. *)
Lemma encoder_task_cases (model_n_embd now : Z) (chunk : input_chunk)
      (outcome : encode_outcome) (c : cache) :
  encoder_task model_n_embd now chunk outcome c = c
  \/ exists embeddings,
       encoder_task model_n_embd now chunk outcome c = (store now chunk embeddings c).2.
Proof.
  unfold encoder_task. destruct chunk as [tokens | id n]; [by left |].
  destruct (negb _); [by left |].
  destruct (output_embd outcome) as [embd |]; [| by left].
  destruct (_ <? _); [| by left]. right. by eexists.
Qed.

Lemma reachable_in_step (s : scheduler) :
  reachable s -> in_step (encode_cache_ s) /\ queue_waits s.
Proof.
  induction 1 as [max_entries max_memory_mb now
                 | chunk s _ [Hc Hq]
                 | model_n_embd now outcome s _ [Hc Hq]
                 | chunk s _ [Hc Hq]].
  - split; [apply new_cache_in_step |]. split; simpl.
    + apply NoDup_nil_2.
    + by intros chunk ?%elem_of_nil.
  - destruct (submit_encoder_task_cases chunk s)
      as [(Hkey & Hwait & Hnew & -> & Hset) | [_ ->]]; [| done].
    split; [by apply prepare_in_step |].
    destruct Hq as [Q1 Q2]. split; simpl.
    + rewrite fmap_app. apply NoDup_app. split; [done |].
      split; [| apply NoDup_singleton].
      intros key (chunk' & -> & Hin)%list_elem_of_fmap Heq.
      apply list_elem_of_singleton in Heq. apply Hwait. rewrite <- Heq.
      by apply Q2.
    + intros chunk' [Hin | ->%list_elem_of_singleton]%elem_of_app.
      * destruct (Q2 chunk' Hin) as [? ?]. split; [done |]. rewrite Hset.
        apply elem_of_union. by right.
      * split; [done |]. rewrite Hset.
        apply elem_of_union. left. by apply elem_of_singleton.
  - unfold process_encoder. destruct (encoder_queue_ s) as [|chunk rest] eqn:Hqueue;
      [done |].
    destruct Hq as [Q1 Q2]. rewrite Hqueue in Q1, Q2.
    destruct (Q2 chunk) as [Hkey Hwait]; [by left |].
    rewrite fmap_cons in Q1. apply NoDup_cons in Q1 as [Hfresh Q1].
    simpl. destruct (encoder_task_cases model_n_embd now chunk outcome (encode_cache_ s))
      as [-> | [embeddings ->]].
    + split; [done |]. split; simpl; [done |].
      intros chunk' Hin. apply Q2. by right.
    + split; [by apply store_in_step |]. split; simpl; [done |].
      intros chunk' Hin. destruct (Q2 chunk') as [? ?]; [by right |].
      split; [done |]. rewrite store_wait_set by done.
      apply elem_of_difference. split; [done |].
      intros Heq%elem_of_singleton. apply Hfresh. rewrite <- Heq.
      by apply list_elem_of_fmap_2.
  - unfold wait_for_result. destruct (waiting chunk (encode_cache_ s)); [done |].
    pose proof (lookup_in_step chunk _ Hc) as Hc'.
    pose proof (lookup_wait_set chunk (encode_cache_ s)) as Hset.
    destruct (lookup chunk (encode_cache_ s)) as [res c']. simpl in *.
    split; [done |]. destruct Hq as [Q1 Q2]. split; simpl; [done |].
    intros chunk' Hin. rewrite Hset. by apply Q2.
Qed.

(** X11: However the scheduler is used, its cache stays in step: the order
    list names every stored key once and no other key, the counters
    agree with the stored vectors, no waiting key is stored, and the
    queue holds image chunks with distinct keys that all wait. *)
Theorem scheduler_keeps_cache_in_step (s : scheduler) :
  reachable s -> in_step (encode_cache_ s) /\ queue_waits s.
Proof. apply reachable_in_step. Qed.

(** X12: Submitting a chunk twice in a row is submitting it once: an image
    whose key waits or is stored is not queued again. *)
Theorem submit_encoder_task_idempotent (chunk : input_chunk) (s : scheduler) :
  submit_encoder_task chunk (submit_encoder_task chunk s) = submit_encoder_task chunk s.
Proof.
  destruct (submit_encoder_task_cases chunk s)
    as [(Hkey & Hwait & Hnew & -> & Hset) | [_ Hsame]].
  - destruct (submit_encoder_task_cases chunk
                {| encode_cache_ := (prepare chunk (encode_cache_ s)).2;
                   encoder_queue_ := encoder_queue_ s ++ [chunk] |})
      as [(_ & Hwait' & _) | [_ ->]]; [| done].
    exfalso. apply Hwait'. simpl. rewrite Hset.
    apply elem_of_union. left. by apply elem_of_singleton.
  - by rewrite !Hsame.
Qed.

(** X13: The encoder's round trip: an image chunk that neither waits nor is
    stored is submitted to an idle scheduler, the worker encodes it with
    success, and [blocking_encoder] returns the first
    [n_tokens * n_embd] floats of the encoder's output. *)
Theorem blocking_encoder_returns_encoding (model_n_embd now : Z) (id : string) (n : nat)
        (embd : list Z) (s : scheduler) :
  id <> EmptyString ->
  encoder_queue_ s = [] ->
  id ∉ image_wait_set_ (encode_cache_ s) ->
  image_stored_map_ (encode_cache_ s) !! id = None ->
  0 < Z.of_nat n * model_n_embd ->
  (blocking_encoder model_n_embd now
     [{| encode_ret := 0; output_embd := Some embd |}] (ImageChunk id n) s).1
  = Returned (Some (take (Z.to_nat (Z.of_nat n * model_n_embd)) embd)).
Proof.
  intros Hid Hidle Hwait Hnew Hpos. unfold blocking_encoder. simpl fold_left.
  destruct (submit_encoder_task_cases (ImageChunk id n) s)
    as [(_ & _ & _ & -> & Hset) | [Hno _]].
  2: { simpl in Hno. destruct Hno as [? | [? | Hold]]; [done | done |].
       rewrite Hnew in Hold. by destruct Hold. }
  unfold process_encoder. simpl encoder_queue_. rewrite Hidle. simpl app.
  cbn [encode_cache_ encoder_task encode_ret output_embd negb chunk_n_tokens].
  change (0 =? 0) with true. cbn [negb]. rewrite (proj2 (Z.ltb_lt _ _) Hpos).
  set (stored := store now (ImageChunk id n) _ _).
  pose proof (ImageCacheFacts.store_then_lookup now id n
                (take (Z.to_nat (Z.of_nat n * model_n_embd)) embd)
                (prepare (ImageChunk id n) (encode_cache_ s)).2 Hid)
    as (_ & Hlookup & Hwaiting & _).
  fold stored in Hlookup, Hwaiting.
  unfold wait_for_result. cbn [encode_cache_]. rewrite Hwaiting.
  destruct (lookup (ImageChunk id n) stored.2) as [res c'] eqn:Hres.
  simpl in *. by subst res.
Qed.

(** X14: An image that is stored is served from the cache: the submission
    queues nothing, and [blocking_encoder] returns the stored vector
    without a turn of the worker. *)
Theorem blocking_encoder_serves_stored (model_n_embd now : Z) (id : string) (n : nat)
        (value : list Z) (s : scheduler) :
  id <> EmptyString ->
  id ∉ image_wait_set_ (encode_cache_ s) ->
  image_stored_map_ (encode_cache_ s) !! id = Some value ->
  submit_encoder_task (ImageChunk id n) s = s
  /\ (blocking_encoder model_n_embd now [] (ImageChunk id n) s).1 = Returned (Some value).
Proof.
  intros Hid Hwait Hold.
  assert (Hsame : submit_encoder_task (ImageChunk id n) s = s).
  { destruct (submit_encoder_task_cases (ImageChunk id n) s)
      as [(_ & _ & Hnew & _) | [_ ->]]; [| done].
    simpl in Hnew. congruence. }
  split; [done |]. unfold blocking_encoder. simpl fold_left. rewrite Hsame.
  unfold wait_for_result, waiting, lookup. simpl.
  rewrite !decide_False by done. rewrite bool_decide_eq_false_2 by done.
  by rewrite Hold.
Qed.

End EncoderSchedulerStates.


(** ** Eviction from the chunk cache *)

Module ChunkCacheEviction.
Import ChunkInferCache.

Lemma occupied_true (m : Z * SeqEntryList) : occupied m = true <-> seq_entries m.2 <> [].
Proof. unfold occupied. by destruct (seq_entries m.2). Qed.

Lemma filter_all {A : Type} (P : A -> Prop) `{!forall x, Decision (P x)} (l : list A) :
  Forall P l -> filter P l = l.
Proof.
  induction 1 as [|x l Hx _ IH]; [done |]. rewrite filter_cons_True by done. by f_equal.
Qed.

Lemma filter_none {A : Type} (P : A -> Prop) `{!forall x, Decision (P x)} (l : list A) :
  Forall (fun x => ~ P x) l -> filter P l = [].
Proof.
  induction 1 as [|x l Hx _ IH]; [done |]. by rewrite filter_cons_False.
Qed.

Lemma filter_length_all {A : Type} (P : A -> Prop) `{!forall x, Decision (P x)}
      (l : list A) :
  length (filter P l) = length l -> Forall P l.
Proof.
  induction l as [|x l IH]; [done |]. rewrite filter_cons.
  destruct (decide (P x)) as [Hx | Hx]; simpl; intros Hlen.
  - apply Forall_cons. split; [done |]. apply IH. lia.
  - pose proof (length_filter P l). lia.
Qed.

Lemma to_size_t_small (z : Z) : 0 <= z < 2 ^ 64 -> to_size_t z = z.
Proof. intros Hz. unfold to_size_t. by apply Z.mod_small. Qed.

Lemma to_int32_small (z : Z) : - 2 ^ 31 <= z < 2 ^ 31 -> to_int32 z = z.
Proof. intros Hz. unfold to_int32. rewrite Z.mod_small; lia. Qed.

(** [maintain] does nothing while a slot is free. *)
Lemma maintain_idle (c : cache) (m : Z * SeqEntryList) :
  m ∈ use_seq_mem_ c -> seq_entries m.2 = [] -> maintain c = c.
Proof.
  intros Hm Hempty. unfold maintain.
  rewrite (proj2 (Z.ltb_lt _ _)); [done |].
  apply inj_lt. apply (length_filter_lt _ _ m); [done |].
  rewrite occupied_true. by intros Hne.
Qed.

(** With every slot occupied, the slots to delete are the first
    [size - floor(0.8 size)] of the slots sorted by access time. *)
Lemma slots_to_delete_full (slots : list (Z * SeqEntryList)) :
  Forall (fun m => occupied m = true) slots ->
  0 < Z.of_nat (length slots) < 2 ^ 22 ->
  slots_to_delete slots
  = (take (Z.to_nat (Z.of_nat (length slots) - 4 * Z.of_nat (length slots) / 5))
          (merge_sort accessed_before slots)).*1.
Proof.
  intros Hall Hsize. unfold slots_to_delete. rewrite filter_all by done.
  rewrite Z.ltb_irrefl, Float32Facts.scale_0_8_floor by lia.
  set (n := Z.of_nat (length slots)) in *.
  assert (0 <= 4 * n / 5 < n) by (Z.div_mod_to_equations; lia).
  rewrite (to_size_t_small (4 * n / 5)) by lia.
  rewrite (to_int32_small n), (to_int32_small (4 * n / 5)) by lia.
  rewrite (to_int32_small (n - 4 * n / 5)) by lia.
  by rewrite (to_size_t_small (n - 4 * n / 5)) by lia.
Qed.

(** Evicting one sequence id clears the slot of that id. *)
Lemma evict_seq_slots (c : cache) (keys : list string) (seq_id : Z) :
  NoDup (use_seq_mem_ c).*1 ->
  use_seq_mem_ (evict_seq (c, keys) seq_id).1
  = (fun m => if decide (m.1 = seq_id) then clear_slot m else m) <$> use_seq_mem_ c.
Proof.
  intros Hnd. unfold evict_seq.
  destruct (list_find _ _) as [[i m] |] eqn:Hfind.
  - apply list_find_Some in Hfind as (Hi & Hkey & _).
    destruct (release _ _ _) as [heap keys']. simpl.
    apply list_eq. intros j. rewrite list_lookup_fmap.
    destruct (decide (i = j)) as [<- | Hne].
    + rewrite list_lookup_insert_eq by (by eapply lookup_lt_Some).
      rewrite Hi. simpl. by rewrite decide_True.
    + rewrite list_lookup_insert_ne by done.
      destruct (use_seq_mem_ c !! j) as [y |] eqn:Hj; [| done]. simpl.
      rewrite decide_False; [done |]. intros Hy. apply Hne.
      apply (NoDup_lookup _ _ _ seq_id Hnd).
      * by rewrite list_lookup_fmap, Hi; simpl; rewrite Hkey.
      * by rewrite list_lookup_fmap, Hj; simpl; rewrite Hy.
  - apply list_find_None in Hfind. simpl.
    rewrite <- (list_fmap_id (use_seq_mem_ c)) at 1.
    apply list_fmap_ext. intros j m Hm. cbv beta.
    rewrite decide_False; [done |].
    by apply (proj1 (Forall_lookup _ _) Hfind j m).
Qed.

Lemma fold_evict_seq_slots (to_delete : list Z) (c : cache) (keys : list string) :
  NoDup (use_seq_mem_ c).*1 ->
  use_seq_mem_ (fold_left evict_seq to_delete (c, keys)).1
  = (fun m => if decide (m.1 ∈ to_delete) then clear_slot m else m) <$> use_seq_mem_ c.
Proof.
  revert c keys. induction to_delete as [|seq_id to_delete IH]; intros c keys Hnd.
  - cbn [fold_left fst]. rewrite <- (list_fmap_id (use_seq_mem_ c)) at 1.
    apply list_fmap_ext. intros j m _. cbv beta.
    by rewrite decide_False by apply not_elem_of_nil.
  - cbn [fold_left]. pose proof (evict_seq_slots c keys seq_id Hnd) as Hstep.
    destruct (evict_seq (c, keys) seq_id) as [c1 keys1]. simpl in Hstep.
    rewrite IH, Hstep.
    + rewrite <- list_fmap_compose. apply list_fmap_ext. intros j m _. simpl.
      destruct (decide (m.1 = seq_id)) as [Hm | Hm].
      * rewrite (decide_True (P := m.1 ∈ seq_id :: to_delete)) by (rewrite Hm; by left).
        by destruct (decide _).
      * destruct (decide (m.1 ∈ to_delete)) as [Hin | Hin].
        -- by rewrite (decide_True (P := m.1 ∈ seq_id :: to_delete)) by (by right).
        -- rewrite (decide_False (P := m.1 ∈ seq_id :: to_delete)); [done |].
           by intros [? | ?]%elem_of_cons.
    + rewrite Hstep, <- list_fmap_compose.
      erewrite list_fmap_ext; [exact Hnd |].
      intros j m _. simpl. by destruct (decide _).
Qed.

Lemma maintain_slots (c : cache) :
  NoDup (use_seq_mem_ c).*1 ->
  Forall (fun m => occupied m = true) (use_seq_mem_ c) ->
  use_seq_mem_ (maintain c)
  = (fun m => if decide (m.1 ∈ slots_to_delete (use_seq_mem_ c)) then clear_slot m else m)
      <$> use_seq_mem_ c.
Proof.
  intros Hnd Hall. unfold maintain. rewrite filter_all by done.
  rewrite Z.ltb_irrefl. unfold evict.
  pose proof (fold_evict_seq_slots (slots_to_delete (use_seq_mem_ c)) c [] Hnd) as Hfold.
  by destruct (fold_left evict_seq _ _) as [c1 keys1].
Qed.

(** Among occupied slots, the ones still occupied after the clearing
    are those whose id was not to be deleted. *)
Lemma occupied_after_clearing (slots : list (Z * SeqEntryList)) (to_delete : list Z) :
  Forall (fun m => occupied m = true) slots ->
  length (filter (fun m => occupied m = true)
                 ((fun m => if decide (m.1 ∈ to_delete) then clear_slot m else m) <$> slots))
  = length (filter (fun m => m.1 ∉ to_delete) slots).
Proof.
  induction 1 as [|m slots Hm _ IH]; [done |].
  rewrite fmap_cons, !filter_cons.
  destruct (decide (m.1 ∈ to_delete)) as [Hin | Hin].
  - rewrite (decide_False (P := occupied (clear_slot m) = true)) by done.
    by rewrite (decide_False (P := m.1 ∉ to_delete)) by (intros Hnot; by apply Hnot).
  - rewrite (decide_True (P := occupied m = true)) by done.
    rewrite (decide_True (P := m.1 ∉ to_delete)) by done. simpl. by rewrite IH.
Qed.

Lemma kept_after_prefix (slots sorted : list (Z * SeqEntryList)) (k : nat) :
  NoDup slots.*1 -> sorted ≡ₚ slots ->
  length (filter (fun m => m.1 ∉ (take k sorted).*1) slots) = (length slots - k)%nat.
Proof.
  intros Hnd Hperm.
  assert (Hnd' : NoDup sorted.*1) by (by rewrite Hperm).
  rewrite <- Hperm.
  rewrite <- (take_drop k sorted), fmap_app in Hnd'.
  apply NoDup_app in Hnd' as (_ & Hdisjoint & _).
  set (P := fun m : Z * SeqEntryList => m.1 ∉ (take k sorted).*1).
  rewrite <- (take_drop k sorted) at 1.
  rewrite filter_app, !length_app.
  rewrite (filter_none P (take k sorted)), (filter_all P (drop k sorted)).
  - simpl. rewrite length_drop. lia.
  - apply Forall_forall. intros m Hm Hin. apply (Hdisjoint m.1 Hin).
    by apply list_elem_of_fmap_2.
  - apply Forall_forall. intros m Hm Hnotin. apply Hnotin.
    by apply list_elem_of_fmap_2.
Qed.

Lemma maintain_full_count (c : cache) :
  NoDup (use_seq_mem_ c).*1 ->
  0 < Z.of_nat (length (use_seq_mem_ c)) < 2 ^ 22 ->
  Forall (fun m => seq_entries m.2 <> []) (use_seq_mem_ c) ->
  Z.of_nat (length (filter (fun m => seq_entries m.2 <> []) (use_seq_mem_ (maintain c))))
  = 4 * Z.of_nat (length (use_seq_mem_ c)) / 5.
Proof.
  intros Hnd Hsize Hfull.
  assert (Hall : Forall (fun m => occupied m = true) (use_seq_mem_ c)).
  { eapply Forall_impl; [exact Hfull |]. intros m. by rewrite occupied_true. }
  rewrite (list_filter_iff _ (fun m => occupied m = true))
    by (intros m; by rewrite occupied_true).
  rewrite maintain_slots, occupied_after_clearing by done.
  rewrite slots_to_delete_full by done.
  rewrite kept_after_prefix by (done || apply merge_sort_Permutation).
  set (n := Z.of_nat (length (use_seq_mem_ c))) in *.
  assert (0 <= 4 * n / 5 < n) by (Z.div_mod_to_equations; lia).
  rewrite Nat2Z.inj_sub by lia. fold n. lia.
Qed.

Lemma maintain_length (c : cache) :
  NoDup (use_seq_mem_ c).*1 ->
  length (use_seq_mem_ (maintain c)) = length (use_seq_mem_ c).
Proof.
  intros Hnd.
  destruct (decide (Exists (fun m => seq_entries m.2 = []) (use_seq_mem_ c)))
    as [(m & Hm & Hempty)%Exists_exists | Hfull].
  - by rewrite (maintain_idle c m).
  - apply (not_Exists_Forall _) in Hfull.
    rewrite maintain_slots, length_fmap; [done | done |].
    eapply Forall_impl; [exact Hfull |]. intros m. by rewrite occupied_true.
Qed.

(** After [maintain] a slot is free. *)
Lemma maintain_leaves_free_slot (c : cache) :
  NoDup (use_seq_mem_ c).*1 ->
  0 < Z.of_nat (length (use_seq_mem_ c)) < 2 ^ 22 ->
  exists m, m ∈ use_seq_mem_ (maintain c) /\ seq_entries m.2 = [].
Proof.
  intros Hnd Hsize.
  destruct (decide (Exists (fun m => seq_entries m.2 = []) (use_seq_mem_ c)))
    as [(m & Hm & Hempty)%Exists_exists | Hfull].
  - exists m. by rewrite (maintain_idle c m).
  - apply (not_Exists_Forall _) in Hfull.
    pose proof (maintain_full_count c Hnd Hsize Hfull) as Hcount.
    pose proof (maintain_length c Hnd) as Hlen.
    destruct (decide (Forall (fun m => seq_entries m.2 <> []) (use_seq_mem_ (maintain c))))
      as [Hall | Hsome].
    + rewrite filter_all in Hcount by done.
      assert (4 * Z.of_nat (length (use_seq_mem_ c)) / 5
              < Z.of_nat (length (use_seq_mem_ c))) by (Z.div_mod_to_equations; lia).
      lia.
    + apply (not_Forall_Exists _) in Hsome.
      apply Exists_exists in Hsome as (m & Hm & Hempty). exists m. split; [done |].
      simpl in Hempty. by destruct (seq_entries m.2); [| destruct Hempty].
Qed.

(** X15: A full chunk cache is brought down to 80%: when every slot is
    occupied, [maintain] clears slots until exactly [floor(0.8 size)]
    remain occupied; and it touches nothing while a slot is free. *)
Theorem maintain_occupancy (c : cache) :
  NoDup (use_seq_mem_ c).*1 ->
  0 < Z.of_nat (length (use_seq_mem_ c)) < 2 ^ 22 ->
  (Forall (fun m => seq_entries m.2 <> []) (use_seq_mem_ c) ->
   Z.of_nat (length (filter (fun m => seq_entries m.2 <> []) (use_seq_mem_ (maintain c))))
   = 4 * Z.of_nat (length (use_seq_mem_ c)) / 5)
  /\ (Exists (fun m => seq_entries m.2 = []) (use_seq_mem_ c) -> maintain c = c).
Proof.
  intros Hnd Hsize. split.
  - by apply maintain_full_count.
  - intros (m & Hm & Hempty)%Exists_exists. by apply (maintain_idle c m).
Qed.

#[local] Instance accessed_before_total : Total accessed_before.
Proof. intros a b. unfold accessed_before. lia. Qed.

#[local] Instance accessed_before_transitive : Transitive accessed_before.
Proof. intros a b d. unfold accessed_before. lia. Qed.

(** X16: Eviction is least recently used first: a slot [maintain] picks for
    deletion was accessed no later than any slot it keeps. *)
Theorem slots_to_delete_least_recent (slots : list (Z * SeqEntryList))
        (m m' : Z * SeqEntryList) :
  NoDup slots.*1 ->
  m ∈ slots -> m' ∈ slots ->
  m.1 ∈ slots_to_delete slots -> m'.1 ∉ slots_to_delete slots ->
  last_access m.2 <= last_access m'.2.
Proof.
  intros Hnd Hm Hm'. unfold slots_to_delete.
  destruct (Z.ltb_spec (Z.of_nat (length (filter (fun m => occupied m = true) slots)))
                       (Z.of_nat (length slots))) as [Hfree | Hfull];
    [by intros ?%elem_of_nil |].
  assert (Hall : Forall (fun m => occupied m = true) slots).
  { apply (filter_length_all (fun m => occupied m = true)). pose proof (length_filter (fun m => occupied m = true) slots).
    lia. }
  rewrite filter_all by done.
  set (sorted := merge_sort accessed_before slots).
  set (k := Z.to_nat _).
  assert (Hperm : sorted ≡ₚ slots) by apply merge_sort_Permutation.
  assert (Hnd' : NoDup sorted.*1) by (by rewrite Hperm).
  assert (Hkey : forall a b, a ∈ sorted -> b ∈ sorted -> a.1 = b.1 -> a = b).
  { intros a b [i Hi]%list_elem_of_lookup [j Hj]%list_elem_of_lookup Hab.
    assert (i = j) as ->; [| congruence].
    apply (NoDup_lookup _ _ _ a.1 Hnd').
    - by rewrite list_lookup_fmap, Hi.
    - by rewrite list_lookup_fmap, Hj; simpl; rewrite Hab. }
  intros Hdel Hkeep.
  change (map fst (take k sorted)) with ((take k sorted).*1) in Hdel, Hkeep.
  apply list_elem_of_fmap in Hdel as (m1 & Hm1 & Hin1).
  assert (m1 = m) as ->.
  { apply Hkey; [by apply (subseteq_take k sorted) | by rewrite Hperm | done]. }
  assert (Hin' : m' ∈ drop k sorted).
  { rewrite <- Hperm, <- (take_drop k sorted) in Hm'.
    apply elem_of_app in Hm' as [Hin | Hin]; [| done].
    exfalso. apply Hkeep. by apply list_elem_of_fmap_2. }
  pose proof (StronglySorted_merge_sort accessed_before slots) as Hsorted.
  fold sorted in Hsorted. rewrite <- (take_drop k sorted) in Hsorted.
  by apply (StronglySorted_app_1_elem_of _ _ _ m m' Hsorted).
Qed.

End ChunkCacheEviction.


(** ** The build protocol of the chunk cache *)

Module ChunkCacheProtocol.
Import ChunkInferCache ChunkCacheEviction.

Lemma fold_evict_seq_wait_set (to_delete : list Z) (c : cache) (keys : list string) :
  cache_wait_set_ (fold_left evict_seq to_delete (c, keys)).1 = cache_wait_set_ c.
Proof.
  revert c keys. induction to_delete as [|seq_id to_delete IH]; intros c keys; [done |].
  cbn [fold_left]. destruct (evict_seq (c, keys) seq_id) as [c1 keys1] eqn:Hstep.
  rewrite IH. unfold evict_seq in Hstep.
  destruct (list_find _ _) as [[i m] |]; [| by injection Hstep as <- _].
  destruct (release _ _ _). by injection Hstep as <- _.
Qed.

Lemma chunk_maintain_wait_set (c : cache) : cache_wait_set_ (maintain c) = cache_wait_set_ c.
Proof.
  unfold maintain. destruct (_ <? _); [done |]. unfold evict.
  pose proof (fold_evict_seq_wait_set (slots_to_delete (use_seq_mem_ c)) c []) as Hw.
  by destruct (fold_left evict_seq _ _) as [c1 keys1].
Qed.






(** X19: [prepare] and [unprepared] undo each other: a caller that became the
    builder of a hash and gives up leaves the cache as it found it; in
    between the hash waits and nobody else can become its builder. *)
Theorem prepare_unprepared_round_trip (h : string) (c c' : cache) :
  prepare h c = (true, c') ->
  unprepared h c' = c
  /\ waiting h c' = true
  /\ prepare h c' = (false, c').
Proof.
  unfold prepare.
  destruct (decide (h ∈ cache_wait_set_ c)) as [| Hw]; [done |].
  destruct (decide (is_Some (cache_map_ c !! h))) as [| Hnew]; [done |].
  intros [= <-].
  assert (Hin : h ∈ cache_wait_set_ (set_wait_set ({[h]} ∪ cache_wait_set_ c) c)).
  { simpl. apply elem_of_union. left. by apply elem_of_singleton. }
  split; [| split].
  - unfold unprepared, set_wait_set. simpl. destruct c as [heap w map slots tasks].
    simpl in *. f_equal. apply set_eq. intros x.
    rewrite elem_of_difference, elem_of_union, !elem_of_singleton.
    split; [by intros [[-> | ?] ?] |]. intros Hx. split; [by right |]. by intros ->.
  - unfold waiting. by apply bool_decide_eq_true.
  - by rewrite decide_True.
Qed.

(** *** [store] always finds room *)

Lemma select_target_finds_free (slots : list (Z * SeqEntryList)) (pre_entries : list nat)
      (m : Z * SeqEntryList) :
  m ∈ slots -> seq_entries m.2 = [] -> is_Some (select_target slots pre_entries).
Proof.
  intros Hm Hempty. unfold select_target.
  destruct (match last pre_entries with
            | Some e => scan_slots (ends_with e) slots 0 None
            | None => None
            end) as [t |]; [by eexists |].
  destruct (StoreFacts.scan_slots_found is_empty_slot slots 0 None m Hm)
    as (t & _ & -> & _); [by apply StoreFacts.is_empty_slot_true | by eexists].
Qed.

Lemma store_accepts (now : Z) (chunk_hashs : list string) (chunk_id : nat)
      (chunk_hash : string) (seq_id last_token n_past : Z) (c : cache) :
  NoDup (use_seq_mem_ c).*1 ->
  0 < Z.of_nat (length (use_seq_mem_ c)) < 2 ^ 22 ->
  chunk_hashs !! chunk_id = Some chunk_hash ->
  exists c',
    store now chunk_hashs chunk_id seq_id last_token n_past c = Some (true, c')
    /\ cache_wait_set_ c' = cache_wait_set_ c ∖ {[chunk_hash]}
    /\ (is_Some (cache_map_ (maintain c) !! chunk_hash) /\ cache_map_ c' = cache_map_ (maintain c)
        \/ cache_map_ (maintain c) !! chunk_hash = None
           /\ exists t m,
                select_target (use_seq_mem_ (maintain c))
                  (collect_pre (cache_map_ (maintain c)) chunk_hashs chunk_id).*1 = Some t
                /\ use_seq_mem_ (maintain c) !! t = Some m
                /\ c' = (store_locked now chunk_hashs chunk_id chunk_hash seq_id
                                      last_token n_past (maintain c)).2
                /\ cache_map_ c'
                   = <[chunk_hash := length (entries (maintain c))]>
                       (cache_map_ (maintain c))).
Proof.
  intros Hnd Hsize Hh. unfold store. rewrite Hh.
  destruct (cache_map_ (maintain c) !! chunk_hash) as [e |] eqn:Hmap.
  - rewrite StoreFacts.store_locked_cached by (done || by eexists).
    eexists. split; [done |]. simpl. rewrite chunk_maintain_wait_set. split; [done |].
    left. split; [by eexists | done].
  - destruct (maintain_leaves_free_slot c Hnd Hsize) as (m & Hm & Hempty).
    destruct (select_target_finds_free _
                (collect_pre (cache_map_ (maintain c)) chunk_hashs chunk_id).*1 m Hm Hempty)
      as [t Ht].
    destruct (StoreFacts.select_target_some _ _ _ Ht) as (m' & Hm' & _).
    pose proof (StoreFacts.store_locked_target now chunk_hashs chunk_id chunk_hash
                  seq_id last_token n_past (maintain c) t m' Hh Hmap Ht Hm') as Hstore.
    simpl in Hstore. rewrite Hstore. eexists. split; [done |]. simpl.
    rewrite chunk_maintain_wait_set. split; [done |]. right. split; [done |].
    exists t, m'. by repeat split.
Qed.

(** X20: [store] is never turned away for lack of room: in a cache with at
    least one slot, whatever it holds, [store] returns true, and
    afterwards the hash is stored and waits no more. *)
Theorem store_never_rejects (now : Z) (chunk_hashs : list string) (chunk_id : nat)
        (chunk_hash : string) (seq_id last_token n_past : Z) (c : cache) :
  NoDup (use_seq_mem_ c).*1 ->
  0 < Z.of_nat (length (use_seq_mem_ c)) < 2 ^ 22 ->
  chunk_hashs !! chunk_id = Some chunk_hash ->
  exists c',
    store now chunk_hashs chunk_id seq_id last_token n_past c = Some (true, c')
    /\ storing chunk_hash c' = true
    /\ waiting chunk_hash c' = false.
Proof.
  intros Hnd Hsize Hh.
  destruct (store_accepts now chunk_hashs chunk_id chunk_hash seq_id last_token n_past c
              Hnd Hsize Hh) as (c' & Hstore & Hw & Hm).
  exists c'. split; [done |]. split.
  - unfold storing. apply bool_decide_eq_true.
    destruct Hm as [[Hold ->] | (_ & _ & _ & _ & _ & _ & ->)]; [done |].
    rewrite lookup_insert_eq. by eexists.
  - unfold waiting. apply bool_decide_eq_false. rewrite Hw.
    intros [_ Hne]%elem_of_difference. by apply Hne, elem_of_singleton.
Qed.



(** *** Applying a hit *)



End ChunkCacheProtocol.


(** ** The context's sequences *)

Module MicoCommonFacts.
Import MicoCommon.

Lemma seq_state_get (id id' : Z) (seqs : gmap Z LlamaSeqState) :
  seq_state id' (get_seq_state id seqs).2 = seq_state id' seqs.
Proof.
  unfold get_seq_state, seq_state. simpl.
  destruct (decide (id = id')) as [-> | Hne].
  - by rewrite lookup_insert_eq.
  - by rewrite lookup_insert_ne.
Qed.

Lemma first_free_S (count : nat) (i : Z) (seqs : gmap Z LlamaSeqState) :
  first_free (S count) i seqs
  = if negb (is_infering (seq_state i seqs))
    then (i, <[i := seq_state i seqs]> seqs)
    else first_free count (i + 1) (<[i := seq_state i seqs]> seqs).
Proof. reflexivity. Qed.

(** The loop of [set_seq_id] creates missing states and changes none;
    it stops at the first sequence that is not inferring. *)
Lemma first_free_spec (count : nat) (i : Z) (seqs : gmap Z LlamaSeqState) :
  (forall id, seq_state id (first_free count i seqs).2 = seq_state id seqs)
  /\ (((first_free count i seqs).1 = -1
       /\ forall j, i <= j < i + Z.of_nat count -> is_infering (seq_state j seqs) = true)
      \/ (i <= (first_free count i seqs).1 < i + Z.of_nat count
          /\ is_infering (seq_state (first_free count i seqs).1 seqs) = false
          /\ forall j, i <= j < (first_free count i seqs).1 ->
                       is_infering (seq_state j seqs) = true)).
Proof.
  revert i seqs. induction count as [|count IH]; intros i seqs.
  - simpl. split; [done |]. left. split; [done |]. lia.
  - rewrite first_free_S.
    destruct (is_infering (seq_state i seqs)) eqn:Hi; cbn [negb fst snd].
    + destruct (IH (i + 1) (<[i := seq_state i seqs]> seqs)) as [Hsame Hcases].
      assert (Hget : forall id, seq_state id (<[i := seq_state i seqs]> seqs)
                                = seq_state id seqs).
      { intros id. apply (seq_state_get i id seqs). }
      split; [intros id; by rewrite Hsame, Hget |].
      destruct Hcases as [[Hnone Hall] | (Hrange & Hfree & Hbefore)].
      * left. split; [done |]. intros j Hj.
        destruct (decide (j = i)) as [-> | Hne]; [done |].
        rewrite <- Hget. apply Hall. lia.
      * right. split; [lia |]. rewrite Hget in Hfree. split; [done |].
        intros j Hj. destruct (decide (j = i)) as [-> | Hne]; [done |].
        rewrite <- Hget. apply Hbefore. lia.
    + split; [intros id; apply (seq_state_get i id seqs) |].
      right. split; [lia |]. split; [done |]. lia.
Qed.

(** X23: [set_seq_id] gives a request the first sequence that is not
    inferring, and [get_seq_id] finds it again; with every sequence
    inferring it answers -1 and maps nothing.  It changes no sequence's
    state and no other request's sequence. *)
Theorem set_seq_id_first_free (cmpl_id : Z) (ctx : LlamaMicoContext) :
  (forall id, seq_state id (process_seqs (set_seq_id cmpl_id ctx).2)
              = seq_state id (process_seqs ctx))
  /\ (((set_seq_id cmpl_id ctx).1 = -1
       /\ (forall j, 0 <= j < n_seq_max ctx ->
                     is_infering (seq_state j (process_seqs ctx)) = true)
       /\ cmpl_to_seq (set_seq_id cmpl_id ctx).2 = cmpl_to_seq ctx)
      \/ (0 <= (set_seq_id cmpl_id ctx).1 < n_seq_max ctx
          /\ is_infering (seq_state (set_seq_id cmpl_id ctx).1 (process_seqs ctx)) = false
          /\ (forall j, 0 <= j < (set_seq_id cmpl_id ctx).1 ->
                        is_infering (seq_state j (process_seqs ctx)) = true)
          /\ get_seq_id cmpl_id (set_seq_id cmpl_id ctx).2 = (set_seq_id cmpl_id ctx).1
          /\ forall other, other <> cmpl_id ->
               get_seq_id other (set_seq_id cmpl_id ctx).2 = get_seq_id other ctx)).
Proof.
  unfold set_seq_id.
  destruct (first_free_spec (Z.to_nat (n_seq_max ctx)) 0 (process_seqs ctx))
    as [Hsame Hcases].
  destruct (first_free _ _ _) as [seq_id seqs]. simpl in *.
  split; [done |].
  destruct Hcases as [[-> Hall] | (Hrange & Hfree & Hbefore)].
  - left. split; [done |]. split; [| done]. intros j Hj. apply Hall. lia.
  - right. split; [lia |]. split; [done |]. split; [done |].
    rewrite (proj2 (Z.eqb_neq seq_id (-1))) by lia. simpl.
    unfold get_seq_id. simpl. split; [by rewrite lookup_insert_eq |].
    intros other Hne. by rewrite lookup_insert_ne.
Qed.

#[local] Instance key_before_total : Total key_before.
Proof. intros a b. unfold key_before. lia. Qed.

#[local] Instance key_before_transitive : Transitive key_before.
Proof. intros a b d. unfold key_before. lia. Qed.

Lemma in_key_order_elem (m : gmap Z Z) (k v : Z) :
  (k, v) ∈ in_key_order m <-> m !! k = Some v.
Proof.
  unfold in_key_order. rewrite merge_sort_Permutation. apply elem_of_map_to_list.
Qed.

Lemma strongly_sorted_lookup {A : Type} (R : relation A) (l : list A) (i j : nat) (x y : A) :
  StronglySorted R l -> l !! i = Some x -> l !! j = Some y -> (i < j)%nat -> R x y.
Proof.
  intros Hsorted. revert i j. induction Hsorted as [|a l _ IH Hall]; intros i j Hi Hj Hlt.
  - done.
  - destruct i as [|i], j as [|j]; try lia; simpl in *.
    + injection Hi as <-. apply (proj1 (Forall_forall _ _) Hall).
      by eapply list_elem_of_lookup_2.
    + apply (IH i j); [done | done | lia].
Qed.

(** X24: [erase_seq] always reports success.  It erases the least request id
    that is mapped to the sequence; when no request is mapped to it, it
    erases the mapping of request id 2^64 - 1, which is what -1 is as a
    [size_t]. *)
Theorem erase_seq_always_reports_success (seq_id : Z) (ctx : LlamaMicoContext) :
  (forall k v, cmpl_to_seq ctx !! k = Some v -> 0 <= k) ->
  (erase_seq seq_id ctx).1 = true
  /\ ((exists k, cmpl_to_seq ctx !! k = Some seq_id
                 /\ (forall k', cmpl_to_seq ctx !! k' = Some seq_id -> k <= k')
                 /\ cmpl_to_seq (erase_seq seq_id ctx).2 = delete k (cmpl_to_seq ctx))
      \/ ((forall k, cmpl_to_seq ctx !! k <> Some seq_id)
          /\ cmpl_to_seq (erase_seq seq_id ctx).2
             = delete (2 ^ 64 - 1) (cmpl_to_seq ctx))).
Proof.
  intros Hkeys. unfold erase_seq.
  destruct (list_find (fun it => it.2 = seq_id) (in_key_order (cmpl_to_seq ctx)))
    as [[i [k v]] |] eqn:Hfind.
  - apply list_find_Some in Hfind as (Hi & Hv & Hfirst). simpl in Hv. subst v. simpl.
    assert (Hk : cmpl_to_seq ctx !! k = Some seq_id).
    { apply in_key_order_elem. by eapply list_elem_of_lookup_2. }
    rewrite (proj2 (Z.leb_le 0 k)) by (by eapply Hkeys).
    split; [done |]. left. exists k. split; [done |]. split; [| done].
    intros k' Hk'. apply in_key_order_elem in Hk'.
    apply list_elem_of_lookup in Hk' as [j Hj].
    destruct (decide (j < i)%nat) as [Hlt | Hge].
    { by destruct (Hfirst j _ Hj Hlt). }
    destruct (decide (j = i)) as [-> | Hne]; [rewrite Hi in Hj; injection Hj; lia |].
    pose proof (StronglySorted_merge_sort key_before (map_to_list (cmpl_to_seq ctx)))
      as Hsorted.
    apply (strongly_sorted_lookup key_before _ i j (k, seq_id) (k', seq_id) Hsorted);
      [done | done | lia].
  - apply list_find_None in Hfind. simpl. split; [done |]. right. split; [| done].
    intros k Hk. apply in_key_order_elem in Hk.
    by apply (proj1 (Forall_forall _ _) Hfind (k, seq_id) Hk).
Qed.

(** [check_antiprompt] holds exactly when there are antiprompt tokens
    and the generated tokens end with them. *)
Lemma check_antiprompt_suffix (generated_tokens : list Z) (ctx : LlamaMicoContext) :
  check_antiprompt generated_tokens ctx = true
  <-> antiprompt_tokens ctx <> [] /\ antiprompt_tokens ctx `suffix_of` generated_tokens.
Proof.
  unfold check_antiprompt.
  destruct (decide (antiprompt_tokens ctx = [])) as [Hnil | Hnil].
  { rewrite bool_decide_eq_true_2 by done. simpl. split; [done | by intros [? _]]. }
  rewrite bool_decide_eq_false_2 by done. simpl.
  destruct (Nat.ltb_spec (length generated_tokens) (length (antiprompt_tokens ctx)))
    as [Hshort | Hlong].
  - split; [done |]. intros [_ Hsuffix%suffix_length]. lia.
  - rewrite bool_decide_eq_true. split.
    + intros Hdrop. split; [done |]. rewrite <- Hdrop. apply suffix_drop.
    + intros [_ [front Heq]]. rewrite Heq, length_app.
      replace (length front + length (antiprompt_tokens ctx)
               - length (antiprompt_tokens ctx))%nat with (length front) by lia.
      by rewrite drop_app_length.
Qed.

End MicoCommonFacts.


(** ** The decode jobs *)

Module LlmSchedulerFacts.
Import MicoCommon LlmScheduler.

Lemma running_count_up (r : gmap Z Z) (id k : Z) :
  running k (count_up r id)
  = if decide (id = k) then to_size_t (running k r + 1) else running k r.
Proof.
  unfold count_up, running. destruct (decide (id = k)) as [-> | Hne].
  - by rewrite lookup_insert_eq.
  - by rewrite lookup_insert_ne.
Qed.

Lemma running_count_down (r : gmap Z Z) (id k : Z) :
  running k (count_down r id)
  = if decide (id = k)
    then (if 0 <? running k r then running k r - 1 else running k r)
    else running k r.
Proof.
  unfold count_down, running. destruct (decide (id = k)) as [-> | Hne].
  - by rewrite lookup_insert_eq.
  - by rewrite lookup_insert_ne.
Qed.

Lemma fold_count_up (batch : list batch_token) (r : gmap Z Z) (k : Z) :
  0 <= running k r -> running k r + Z.of_nat (length batch) < 2 ^ 64 ->
  running k (fold_left (fun r t => count_up r (to_size_t (seq_id t))) batch r)
  = running k r
    + Z.of_nat (length (filter (fun t => to_size_t (seq_id t) = k) batch)).
Proof.
  revert r. induction batch as [|t batch IH]; intros r Hpos Hsmall.
  - simpl. lia.
  - cbn [fold_left]. simpl length in Hsmall.
    pose proof (running_count_up r (to_size_t (seq_id t)) k) as Hstep.
    rewrite filter_cons. destruct (decide (to_size_t (seq_id t) = k)) as [Heq | Hne].
    + rewrite (ChunkCacheEviction.to_size_t_small (running k r + 1)) in Hstep by lia.
      rewrite IH by lia. rewrite Hstep. simpl length. lia.
    + rewrite IH by lia. rewrite Hstep. lia.
Qed.

Lemma fold_count_down (batch : list batch_token) (r : gmap Z Z) (k : Z) :
  Z.of_nat (length (filter (fun t => to_size_t (seq_id t) = k) batch)) <= running k r ->
  running k (fold_left (fun r t => count_down r (to_size_t (seq_id t))) batch r)
  = running k r
    - Z.of_nat (length (filter (fun t => to_size_t (seq_id t) = k) batch)).
Proof.
  revert r. induction batch as [|t batch IH]; intros r Hcount.
  - simpl. lia.
  - cbn [fold_left].
    pose proof (running_count_down r (to_size_t (seq_id t)) k) as Hstep.
    rewrite filter_cons in Hcount |- *.
    destruct (decide (to_size_t (seq_id t) = k)) as [Heq | Hne].
    + simpl length in Hcount |- *.
      rewrite (proj2 (Z.ltb_lt 0 (running k r))) in Hstep by lia.
      rewrite IH by lia. rewrite Hstep. lia.
    + rewrite IH by lia. rewrite Hstep. lia.
Qed.

(** X25: A text job keeps the counters in balance.  From the submission until
    the job has run, [block_waitting_seq] holds back the callers of every
    sequence of the batch; once the job has run, every counter is what it
    was before the submission. *)
Theorem token_job_settles_counters (outcome : decode_outcome) (batch : list batch_token)
        (s : scheduler) :
  (forall k, 0 <= running k (running_seq_ s)
             /\ running k (running_seq_ s) + Z.of_nat (length batch) < 2 ^ 64) ->
  (forall t, t ∈ batch ->
             block_waitting_seq (seq_id t) (running_seq_ (submit_token_infer batch s))
             = false)
  /\ forall k, running k (running_seq_ (token_infer_task outcome batch
                                                        (submit_token_infer batch s)))
               = running k (running_seq_ s).
Proof.
  intros Hrange. split.
  - intros t Ht. unfold block_waitting_seq, submit_token_infer. simpl.
    destruct (Hrange (to_size_t (seq_id t))) as [Hpos Hsmall].
    rewrite fold_count_up by done. apply Z.leb_gt.
    assert (0 < length (filter (fun t' => to_size_t (seq_id t') = to_size_t (seq_id t))
                               batch))%nat; [| lia].
    assert (Hin : t ∈ filter (fun t' => to_size_t (seq_id t') = to_size_t (seq_id t)) batch)
      by (by apply list_elem_of_filter).
    destruct (filter _ batch); [by apply elem_of_nil in Hin | simpl; lia].
  - intros k. destruct (Hrange k) as [Hpos Hsmall].
    unfold token_infer_task, submit_token_infer. simpl.
    rewrite fold_count_down; rewrite fold_count_up by done; lia.
Qed.

(** *** What a job leaves in the sequence states *)

Lemma seq_state_store_last_token (id value k : Z) (seqs : gmap Z LlamaSeqState) :
  seq_state k (store_last_token id value seqs)
  = if decide (id = k)
    then {| last_token := value; n_past := n_past (seq_state k seqs);
            is_infering := is_infering (seq_state k seqs);
            respone := respone (seq_state k seqs) |}
    else seq_state k seqs.
Proof.
  unfold store_last_token. unfold seq_state at 1.
  destruct (decide (id = k)) as [-> | Hne].
  - by rewrite lookup_insert_eq.
  - by rewrite lookup_insert_ne.
Qed.

Lemma store_last_token_n_past (id value k : Z) (seqs : gmap Z LlamaSeqState) :
  n_past (seq_state k (store_last_token id value seqs)) = n_past (seq_state k seqs).
Proof. rewrite seq_state_store_last_token. by destruct (decide _). Qed.

Lemma fold_store_n_past {A : Type} (f : A -> Z) (g : A -> Z) (l : list A) (k : Z)
      (seqs : gmap Z LlamaSeqState) :
  n_past (seq_state k (fold_left (fun seqs a => store_last_token (f a) (g a) seqs) l seqs))
  = n_past (seq_state k seqs).
Proof.
  revert seqs. induction l as [|a l IH]; intros seqs; [done |].
  cbn [fold_left]. by rewrite IH, store_last_token_n_past.
Qed.

Lemma fold_store_last_token {A : Type} (f : A -> Z) (value : Z) (l : list A) (k : Z)
      (seqs : gmap Z LlamaSeqState) :
  last_token (seq_state k (fold_left (fun seqs a => store_last_token (f a) value seqs)
                                     l seqs))
  = if decide (k ∈ f <$> l) then value else last_token (seq_state k seqs).
Proof.
  revert seqs. induction l as [|a l IH]; intros seqs.
  - cbn [fold_left]. by destruct (decide _) as [?%elem_of_nil |].
  - cbn [fold_left]. rewrite IH, fmap_cons.
    destruct (decide (k ∈ f <$> l)) as [Hin | Hin].
    + by rewrite decide_True by (by right).
    + rewrite seq_state_store_last_token.
      destruct (decide (f a = k)) as [<- | Hne].
      * by rewrite decide_True by (by left).
      * rewrite decide_False; [done |]. by intros [? | ?]%elem_of_cons.
Qed.

Lemma store_sampled_n_past (sampled : nat -> Z) (i : nat) (batch : list batch_token)
      (k : Z) (seqs : gmap Z LlamaSeqState) :
  n_past (seq_state k (store_sampled sampled i batch seqs)) = n_past (seq_state k seqs).
Proof.
  revert i seqs. induction batch as [|t batch IH]; intros i seqs; [done |].
  cbn [store_sampled]. rewrite IH. destruct (logits t).
  - apply (fold_store_n_past to_size_t (fun _ => sampled i)).
  - apply store_last_token_n_past.
Qed.

Lemma store_sampled_app (sampled : nat -> Z) (i : nat) (l1 l2 : list batch_token)
      (seqs : gmap Z LlamaSeqState) :
  store_sampled sampled i (l1 ++ l2) seqs
  = store_sampled sampled (i + length l1) l2 (store_sampled sampled i l1 seqs).
Proof.
  revert i seqs. induction l1 as [|t l1 IH]; intros i seqs.
  - simpl. by rewrite Nat.add_0_r.
  - cbn [app store_sampled]. rewrite IH. simpl length. f_equal. lia.
Qed.

Lemma store_sampled_untouched (sampled : nat -> Z) (i : nat) (batch : list batch_token)
      (k : Z) (seqs : gmap Z LlamaSeqState) :
  (forall t id, t ∈ batch -> id ∈ seq_id t :: more_seq_ids t -> to_size_t id <> k) ->
  last_token (seq_state k (store_sampled sampled i batch seqs))
  = last_token (seq_state k seqs).
Proof.
  revert i seqs. induction batch as [|t batch IH]; intros i seqs Hother; [done |].
  cbn [store_sampled]. rewrite IH.
  - destruct (logits t).
    + rewrite (fold_store_last_token to_size_t). rewrite decide_False; [done |].
      intros (id & Heq & Hid)%list_elem_of_fmap.
      apply (Hother t id); [by left | done | done].
    + rewrite seq_state_store_last_token. rewrite decide_False; [done |].
      apply (Hother t (seq_id t)); by left.
  - intros t' id Ht'. apply Hother. by right.
Qed.

(** X26: What a text job leaves behind.  It moves no sequence's position.
    After a decode that failed, every sequence of the batch has
    [last_token = -1].  After a decode that worked, a sequence's
    [last_token] is decided by its last token in the batch: the token
    sampled at that index when the token asks for logits, and 0
    otherwise. *)
Theorem token_job_last_token (outcome : decode_outcome) (batch : list batch_token)
        (s : scheduler) :
  (forall k, n_past (seq_state k (process_seqs (token_infer_task outcome batch s)))
             = n_past (seq_state k (process_seqs s)))
  /\ (decode_ret outcome <> 0 ->
      forall t, t ∈ batch ->
        last_token (seq_state (to_size_t (seq_id t))
                              (process_seqs (token_infer_task outcome batch s))) = -1)
  /\ (decode_ret outcome = 0 ->
      forall l1 t l2,
        batch = l1 ++ t :: l2 ->
        (forall t' id, t' ∈ l2 -> id ∈ seq_id t' :: more_seq_ids t' ->
                       to_size_t id <> to_size_t (seq_id t)) ->
        last_token (seq_state (to_size_t (seq_id t))
                              (process_seqs (token_infer_task outcome batch s)))
        = if logits t then sampled outcome (length l1) else 0).
Proof.
  unfold token_infer_task. simpl. split; [| split].
  - intros k. destruct (negb _).
    + apply (fold_store_n_past (fun t => to_size_t (seq_id t)) (fun _ => -1)).
    + apply store_sampled_n_past.
  - intros Hfail t Ht. rewrite (proj2 (Z.eqb_neq _ _) Hfail). simpl.
    rewrite (fold_store_last_token (fun t => to_size_t (seq_id t))).
    rewrite decide_True; [done |].
    apply list_elem_of_fmap. by exists t.
  - intros Hok l1 t l2 -> Hlater. rewrite Hok. simpl.
    rewrite store_sampled_app. cbn [store_sampled].
    rewrite store_sampled_untouched by done. simpl.
    destruct (logits t).
    + cbn [fold_left]. rewrite (fold_store_last_token to_size_t).
      destruct (decide _); [done |].
      rewrite seq_state_store_last_token. by rewrite decide_True.
    + rewrite seq_state_store_last_token. by rewrite decide_True.
Qed.

End LlmSchedulerFacts.


(** ** Forming the text batches *)

Module BatchFormingFacts.
Import MicoCommon LlmScheduler BatchForming.

(** *** Streams *)

Lemma added_cons (seq n : Z) (t : Z) (tokens : list Z) :
  added seq n (t :: tokens)
  = {| token := t; pos := n; seq_id := seq; more_seq_ids := []; logits := false |}
    :: added seq (n + 1) tokens.
Proof.
  unfold added. rewrite imap_cons. f_equal.
  - f_equal. lia.
  - apply imap_ext. intros j x _. simpl. f_equal. lia.
Qed.

Lemma added_app (seq n : Z) (l1 l2 : list Z) :
  added seq n (l1 ++ l2) = added seq n l1 ++ added seq (n + Z.of_nat (length l1)) l2.
Proof.
  revert n. induction l1 as [|t l1 IH]; intros n.
  - simpl. by rewrite Z.add_0_r.
  - cbn [app]. rewrite !added_cons, IH. cbn [app length]. do 3 f_equal. lia.
Qed.

Lemma length_added (seq n : Z) (tokens : list Z) :
  length (added seq n tokens) = length tokens.
Proof. apply length_imap. Qed.

Lemma added_seq_id (seq n : Z) (tokens : list Z) (t : batch_token) :
  t ∈ added seq n tokens -> seq_id t = seq.
Proof.
  revert n. induction tokens as [|x tokens IH]; intros n.
  - by intros ?%elem_of_nil.
  - rewrite added_cons. intros [-> | Hin]%elem_of_cons; [done | by eapply IH].
Qed.

Lemma length_flag_last (batch : list batch_token) :
  length (flag_last batch) = length batch.
Proof. unfold flag_last. destruct (last batch); [apply length_insert | done]. Qed.

Lemma flag_last_app (l1 l2 : list batch_token) :
  l2 <> [] -> flag_last (l1 ++ l2) = l1 ++ flag_last l2.
Proof.
  intros Hne. unfold flag_last. rewrite last_app.
  destruct (last l2) as [t |] eqn:Hlast.
  - rewrite length_app.
    replace (pred (length l1 + length l2)) with (length l1 + pred (length l2))%nat
      by (destruct l2; [done | simpl; lia]).
    apply insert_app_r.
  - by apply last_None in Hlast.
Qed.

Lemma flag_last_seq_id (batch : list batch_token) (k : Z) :
  length (filter (fun t => to_size_t (seq_id t) = k) (flag_last batch))
  = length (filter (fun t => to_size_t (seq_id t) = k) batch).
Proof.
  unfold flag_last. destruct (last batch) as [t |] eqn:Hlast; [| done].
  destruct (proj1 (last_Some batch t) Hlast) as [front ->].
  rewrite length_app. simpl length.
  replace (pred (length front + 1)) with (length front + 0)%nat by lia.
  rewrite insert_app_r. simpl. rewrite !filter_app, !filter_cons. simpl.
  destruct (decide _); by rewrite !length_app.
Qed.

(** *** Positions *)

Lemma n_past_store_n_past (id value k : Z) (seqs : gmap Z LlamaSeqState) :
  n_past (seq_state k (store_n_past id value seqs))
  = if decide (id = k) then value else n_past (seq_state k seqs).
Proof.
  unfold store_n_past. unfold seq_state at 1.
  destruct (decide (id = k)) as [-> | Hne].
  - by rewrite lookup_insert_eq.
  - by rewrite lookup_insert_ne.
Qed.

Lemma buffer_stream_ext (text_buffer : list SycChunkTask) (seqs1 seqs2 : gmap Z LlamaSeqState) :
  (forall id, n_past (seq_state id seqs1) = n_past (seq_state id seqs2)) ->
  buffer_stream text_buffer seqs1 = buffer_stream text_buffer seqs2.
Proof.
  revert seqs1 seqs2. induction text_buffer as [|task rest IH]; intros seqs1 seqs2 Hsame;
    [done |].
  cbn [buffer_stream]. rewrite Hsame. f_equal. apply IH.
  intros id. rewrite !n_past_store_n_past. by destruct (decide _).
Qed.

(** *** The inner loop *)

Lemma fill_batch_spec (n_batch seq : Z) (tokens : list Z) (b : batcher) (n : Z) :
  n = n_past (seq_state (to_size_t seq) (process_seqs (llm_scheduler_ b))) ->
  0 <= n -> n + Z.of_nat (length tokens) < 2 ^ 31 ->
  let m := (length tokens `min` Z.to_nat (n_batch - Z.of_nat (length (text_batch b))))%nat in
  (fill_batch n_batch seq tokens b).1 = drop m tokens
  /\ text_batch (fill_batch n_batch seq tokens b).2
     = text_batch b ++ added seq n (take m tokens)
  /\ last_uncomplie (fill_batch n_batch seq tokens b).2 = last_uncomplie b
  /\ submitted (fill_batch n_batch seq tokens b).2 = submitted b
  /\ statuses (fill_batch n_batch seq tokens b).2 = statuses b
  /\ running_seq_ (llm_scheduler_ (fill_batch n_batch seq tokens b).2)
     = running_seq_ (llm_scheduler_ b)
  /\ forall id,
       n_past (seq_state id (process_seqs (llm_scheduler_ (fill_batch n_batch seq tokens b).2)))
       = if decide (to_size_t seq = id) then n + Z.of_nat m
         else n_past (seq_state id (process_seqs (llm_scheduler_ b))).
Proof.
  revert b n. induction tokens as [|t tokens IH]; intros b n Hn Hpos Hsmall m.
  - subst m. simpl. rewrite app_nil_r. repeat split.
    intros id. destruct (decide _) as [<- | ?]; [lia | done].
  - cbn [fill_batch].
    destruct (Z.ltb_spec (Z.of_nat (length (text_batch b))) n_batch) as [Hroom | Hfull].
    + set (b1 := {| text_batch := _ |}).
      simpl length in Hsmall.
      destruct (IH b1 (n + 1)) as (H1 & H2 & H3 & H4 & H5 & H6 & H7).
      { subst b1. simpl. rewrite n_past_store_n_past, decide_True by done.
        rewrite <- Hn. rewrite ChunkCacheEviction.to_size_t_small; [done | lia]. }
      { lia. }
      { lia. }
      assert (Hm : m = S (length tokens
                          `min` Z.to_nat (n_batch - Z.of_nat (length (text_batch b1))))).
      { subst m b1. cbn [text_batch]. unfold common_batch_add.
        rewrite length_app. cbn [length]. lia. }
      rewrite Hm. cbn [drop take]. rewrite H1, H2, H3, H4, H5, H6.
      split; [done |]. split.
      { subst b1. cbn [text_batch]. unfold common_batch_add.
        rewrite <- Hn, added_cons, <- app_assoc.
        by rewrite ChunkCacheEviction.to_int32_small by lia. }
      do 4 (split; [done |]).
      intros id. rewrite H7. subst b1. cbn [llm_scheduler_ process_seqs].
      destruct (decide _); [lia |]. by rewrite n_past_store_n_past, decide_False.
    + assert (m = 0%nat) as -> by (subst m; lia).
      simpl. rewrite app_nil_r. repeat split.
      intros id. destruct (decide _) as [<- | ?]; [lia | done].
Qed.

(** *** Marking tasks *)

Lemma fold_insert_lookup {A : Type} (x : A) (l : list nat) (st : list A) (t : nat) :
  fold_left (fun st t => <[t := x]> st) l st !! t
  = if decide (t ∈ l /\ (t < length st)%nat) then Some x else st !! t.
Proof.
  revert st. induction l as [|t0 l IH]; intros st.
  - cbn [fold_left]. rewrite decide_False; [done |]. by intros [?%elem_of_nil _].
  - cbn [fold_left]. rewrite IH, length_insert.
    destruct (decide (t ∈ l /\ (t < length st)%nat)) as [[Hin Hlt] | Hnot].
    + by rewrite decide_True by (split; [by right | done]).
    + destruct (decide (t = t0)) as [-> | Hne].
      * destruct (decide (t0 < length st)%nat) as [Hlt | Hge].
        -- rewrite list_lookup_insert_eq by done.
           by rewrite decide_True by (split; [by left | done]).
        -- rewrite list_insert_ge by lia.
           rewrite decide_False; [done |]. by intros [_ ?].
      * rewrite list_lookup_insert_ne by done.
        rewrite decide_False; [done |].
        intros [[? | Hin]%elem_of_cons Hlt]; [done |]. by apply Hnot.
Qed.

Lemma fold_insert_length {A : Type} (x : A) (l : list nat) (st : list A) :
  length (fold_left (fun st t => <[t := x]> st) l st) = length st.
Proof.
  revert st. induction l as [|t0 l IH]; intros st; [done |].
  cbn [fold_left]. by rewrite IH, length_insert.
Qed.

Lemma mark_in_progress_lookup (from to : Z) (st : list BatchScheduler.TaskStatus) (t : nat) :
  0 <= from ->
  mark_in_progress from to st !! t
  = if decide (from <= Z.of_nat t <= to /\ (t < length st)%nat)
    then Some BatchScheduler.IN_PROGRESS else st !! t.
Proof.
  intros Hfrom. unfold mark_in_progress. rewrite fold_insert_lookup.
  destruct (decide (from <= Z.of_nat t <= to /\ (t < length st)%nat)) as [[Hin Hlt] | Hnot].
  - rewrite decide_True; [done |]. split; [| done]. apply elem_of_seq. lia.
  - rewrite decide_False; [done |]. intros [Hin%elem_of_seq Hlt]. apply Hnot. lia.
Qed.

Lemma mark_in_progress_length (from to : Z) (st : list BatchScheduler.TaskStatus) :
  length (mark_in_progress from to st) = length st.
Proof. apply fold_insert_length. Qed.

Lemma forming_positions_ext (n_batch : Z) (text_buffer : list SycChunkTask)
      (status : list BatchScheduler.TaskStatus) (i : nat)
      (formed : list batch_token) (positions positions' : Z -> Z) (b : batcher) :
  (forall id, positions id = positions' id) ->
  forming n_batch text_buffer status i formed positions b ->
  forming n_batch text_buffer status i formed positions' b.
Proof.
  intros Hsame [H1 H2 H3 H4 H5 H6 H7 H8 H9 H10]. split; try done.
  intros id. by rewrite H4.
Qed.

(** *** The loop over the tokens of one task *)

Lemma chunk_tokens_loop_nil (fuel : nat) (n_batch i : Z) (task : SycChunkTask) (b : batcher) :
  chunk_tokens_loop fuel n_batch i task [] b = Some b.
Proof. by destruct fuel. Qed.

Section one_task.
Variables (n_batch : Z) (text_buffer : list SycChunkTask).
Variables (status : list BatchScheduler.TaskStatus) (i : nat) (task : SycChunkTask).
Variables (before : list batch_token) (positions : Z -> Z) (n0 : Z).
Hypothesis (Hbatch : 0 < n_batch).
Hypothesis (Htask : text_buffer !! i = Some task).
Hypothesis (Hindex : Z.of_nat i + 1 < 2 ^ 31).
Hypothesis (Hn0 : 0 <= n0).
Hypothesis (Hsmall : n0 + Z.of_nat (length (tokens_text (input_chunk_ task))) < 2 ^ 31).

Lemma chunk_tokens_loop_spec (fuel : nat) (k : nat) (b : batcher) :
  let all := tokens_text (input_chunk_ task) in
  (k < length all)%nat -> (length all - k < fuel)%nat ->
  forming n_batch text_buffer status i (before ++ added (cmpl_id task) n0 (take k all))
          (fun id => if decide (to_size_t (cmpl_id task) = id)
                     then n0 + Z.of_nat k else positions id) b ->
  exists b',
    chunk_tokens_loop fuel n_batch (Z.of_nat i) task (drop k all) b = Some b'
    /\ forming n_batch text_buffer status (S i) (before ++ task_stream task n0)
               (fun id => if decide (to_size_t (cmpl_id task) = id)
                          then n0 + Z.of_nat (length all) else positions id) b'.
Proof.
  intros all. pose proof Hsmall as Hsmall'. fold all in Hsmall'.
  revert k b. induction fuel as [|fuel IH]; intros k b Hk Hfuel Hb; [lia |].
  destruct (drop k all) as [|t0 rest0] eqn:Hdrop.
  { apply (f_equal length) in Hdrop. rewrite length_drop in Hdrop. simpl in Hdrop. lia. }
  cbn [chunk_tokens_loop]. rewrite <- Hdrop.
  assert (Hne_all : tokens_text (input_chunk_ task) <> []).
  { intros Hnil. fold all in Hnil. rewrite Hnil in Hk. simpl in Hk. lia. }
  destruct Hb as [B1 B2 B3 B4 B5 B6 B7 B8 B9 B10].
  pose proof (B4 (to_size_t (cmpl_id task))) as Hnp. rewrite decide_True in Hnp by done.
  destruct (fill_batch_spec n_batch (cmpl_id task) (drop k all) b (n0 + Z.of_nat k))
    as (F1 & F2 & F3 & F4 & F5 & F6 & F7).
  { done. }
  { lia. }
  { rewrite length_drop. lia. }
  set (m := (length (drop k all)
             `min` Z.to_nat (n_batch - Z.of_nat (length (text_batch b))))%nat) in *.
  assert (Hm1 : (1 <= m)%nat).
  { subst m. rewrite length_drop. lia. }
  assert (Hm2 : (m <= length all - k)%nat).
  { subst m. rewrite length_drop. lia. }
  destruct (fill_batch n_batch (cmpl_id task) (drop k all) b) as [rest b1].
  cbn [fst snd] in F1, F2, F3, F4, F5, F6, F7.
  assert (Hlen1 : length (text_batch b1) = (length (text_batch b) + m)%nat).
  { rewrite F2, length_app, length_added, length_take, length_drop. lia. }
  assert (Hpos1 : forall id, n_past (seq_state id (process_seqs (llm_scheduler_ b1)))
                             = if decide (to_size_t (cmpl_id task) = id)
                               then n0 + Z.of_nat (k + m) else positions id).
  { intros id. rewrite F7. destruct (decide _) as [Heq | Hne]; [lia |].
    rewrite B4. by rewrite decide_False. }
  rewrite drop_drop in F1.
  destruct (decide ((k + m)%nat = length all)) as [Hdone | Hmore].
  - (* the chunk's last token has been added *)
    assert (rest = []) as ->.
    { rewrite F1. apply drop_ge. lia. }
    rewrite bool_decide_eq_true_2 by done. cbn [andb].
    set (batch := if is_last_chunk task then flag_last (text_batch b1) else text_batch b1).
    assert (Hlen : length batch = length (text_batch b1)).
    { subst batch. destruct (is_last_chunk task); [apply length_flag_last | done]. }
    assert (Hstream : concat (submitted b) ++ batch = before ++ task_stream task n0).
    { assert (Hnew : take m (drop k all) = drop k all).
      { apply take_ge. rewrite length_drop. lia. }
      assert (Hne : added (cmpl_id task) (n0 + Z.of_nat k) (drop k all) <> []).
      { rewrite Hdrop, added_cons. done. }
      assert (Hall : added (cmpl_id task) n0 all
                     = added (cmpl_id task) n0 (take k all)
                       ++ added (cmpl_id task) (n0 + Z.of_nat k) (drop k all)).
      { rewrite <- (take_drop k all) at 1. rewrite added_app, length_take.
        do 3 f_equal. lia. }
      subst batch. unfold task_stream. fold all. rewrite F2, Hnew, Hall.
      destruct (is_last_chunk task).
      - rewrite !flag_last_app by done. by rewrite !app_assoc, B1.
      - by rewrite !app_assoc, B1. }
    destruct (Z.eqb_spec (Z.of_nat (length batch)) n_batch) as [Hfull | Hnotfull].
    + rewrite chunk_tokens_loop_nil. eexists. split; [reflexivity |].
      split; unfold submit_token_infer;
        cbn [text_batch last_uncomplie submitted llm_scheduler_ statuses process_seqs running_seq_].
      * rewrite app_nil_r, concat_app, F4. simpl. by rewrite app_nil_r.
      * rewrite F4. apply Forall_app. split; [done |]. by apply Forall_singleton.
      * simpl. lia.
      * intros id. rewrite Hpos1. destruct (decide _); [| done]. rewrite <- Hdone. done.
      * rewrite ChunkCacheEviction.to_int32_small; lia.
      * rewrite ChunkCacheEviction.to_int32_small by lia. intros t Ht Hlt.
        rewrite F5, F3, mark_in_progress_lookup by lia.
        destruct (decide _) as [_ | Hnot]; [done |].
        apply B6; [| done]. rewrite B8 in Hnot. lia.
      * intros _ t task' Ht Hlt. rewrite ChunkCacheEviction.to_int32_small in Ht; lia.
      * by rewrite F5, mark_in_progress_length.
      * rewrite ChunkCacheEviction.to_int32_small by lia. intros t Ht.
        rewrite F5, F3, mark_in_progress_lookup by lia.
        rewrite decide_False by lia. apply B9. lia.
      * intros t Ht. exists i, task. split; [| done].
        rewrite ChunkCacheEviction.to_int32_small in Ht; lia.
    + rewrite chunk_tokens_loop_nil. eexists. split; [reflexivity |].
      split; unfold submit_token_infer;
        cbn [text_batch last_uncomplie submitted llm_scheduler_ statuses process_seqs running_seq_].
      * by rewrite F4.
      * by rewrite F4.
      * lia.
      * intros id. rewrite Hpos1. destruct (decide _); [| done]. rewrite <- Hdone. done.
      * rewrite F3. lia.
      * intros t Ht Hlt. rewrite F5. apply B6; [by rewrite <- F3 | done].
      * intros Hempty. apply (f_equal length) in Hempty. simpl in Hempty. lia.
      * by rewrite F5.
      * intros t Ht. rewrite F5. apply B9. by rewrite <- F3.
      * intros t Ht. apply B10. by rewrite <- F3.
  - (* the batch is full and tokens remain *)
    assert (Hrest : rest <> []).
    { rewrite F1. intros Hnil%(f_equal length). rewrite length_drop in Hnil.
      simpl in Hnil. lia. }
    rewrite bool_decide_eq_false_2 by done. cbn [andb].
    assert (Hfull : Z.of_nat (length (text_batch b1)) = n_batch).
    { rewrite Hlen1. subst m. rewrite length_drop in *. lia. }
    rewrite (proj2 (Z.eqb_eq _ _) Hfull). rewrite F1.
    apply IH; [lia | lia |].
    split; unfold submit_token_infer;
      cbn [text_batch last_uncomplie submitted llm_scheduler_ statuses process_seqs running_seq_].
    + rewrite app_nil_r, concat_app, F4. simpl. rewrite app_nil_r, F2, app_assoc, B1.
      rewrite <- app_assoc. f_equal.
      rewrite <- (take_take_drop all k m), added_app, length_take.
      do 3 f_equal. lia.
    + rewrite F4. apply Forall_app. split; [done |]. by apply Forall_singleton.
    + done.
    + intros id. apply Hpos1.
    + rewrite ChunkCacheEviction.to_int32_small; lia.
    + rewrite ChunkCacheEviction.to_int32_small by lia. intros t Ht Hlt.
      rewrite F5, F3, mark_in_progress_lookup by lia.
      destruct (decide _) as [_ | Hnot]; [done |].
      apply B6; [| done]. rewrite B8 in Hnot. lia.
    + intros _ t task' Ht Hlt. rewrite ChunkCacheEviction.to_int32_small in Ht; lia.
    + by rewrite F5, mark_in_progress_length.
    + rewrite ChunkCacheEviction.to_int32_small by lia. intros t Ht.
      rewrite F5, F3, mark_in_progress_lookup by lia.
      rewrite decide_False by lia. apply B9. lia.
    + intros t Ht. exists i, task. split; [| done].
      rewrite ChunkCacheEviction.to_int32_small in Ht; lia.
Qed.

(** A task is dealt with: its tokens join the stream, its sequence's
    position moves past them. *)
Lemma task_formed (fuel : nat) (b : batcher) :
  (length (tokens_text (input_chunk_ task)) < fuel)%nat ->
  positions (to_size_t (cmpl_id task)) = n0 ->
  forming n_batch text_buffer status i before positions b ->
  exists b',
    chunk_tokens_loop fuel n_batch (Z.of_nat i) task (tokens_text (input_chunk_ task)) b
    = Some b'
    /\ forming n_batch text_buffer status (S i) (before ++ task_stream task n0)
               (fun id => if decide (to_size_t (cmpl_id task) = id)
                          then n0 + Z.of_nat (length (tokens_text (input_chunk_ task)))
                          else positions id) b'.
Proof.
  intros Hfuel Hn Hb.
  destruct (decide (tokens_text (input_chunk_ task) = [])) as [Hall | Hall].
  - exists b. split; [rewrite Hall; by destruct fuel |].
    unfold task_stream. rewrite Hall.
    assert (Hnil : (if is_last_chunk task then flag_last (added (cmpl_id task) n0 [])
                    else added (cmpl_id task) n0 []) = []) by (by destruct (is_last_chunk task)).
    rewrite Hnil, app_nil_r.
    destruct Hb as [B1 B2 B3 B4 B5 B6 B7 B8 B9 B10]. split; try done.
    + intros id. rewrite B4. destruct (decide _) as [<- | ?]; [simpl; lia | done].
    + lia.
    + intros Hempty t task' Ht Hlt Htask'.
      destruct (decide (t = i)) as [-> | Hne].
      * rewrite Htask in Htask'. by injection Htask' as <-.
      * apply (B7 Hempty t task' Ht); [lia | done].
  - destruct (chunk_tokens_loop_spec fuel 0 b) as (b' & Hloop & Hform).
    + destruct (tokens_text (input_chunk_ task)); [done | simpl; lia].
    + lia.
    + rewrite take_0. change (added (cmpl_id task) n0 []) with (@nil batch_token).
      rewrite app_nil_r. eapply forming_positions_ext; [| exact Hb].
      intros id. simpl. destruct (decide _) as [<- | ?]; [lia | done].
    + exists b'. split; [exact Hloop | exact Hform].
Qed.

End one_task.

(** *** The loop over the buffer *)

Lemma text_size_cons (task : SycChunkTask) (rest : list SycChunkTask) :
  text_size (task :: rest)
  = (length (tokens_text (input_chunk_ task)) + text_size rest)%nat.
Proof. unfold text_size. cbn [map mjoin]. apply length_app. Qed.

Lemma tokens_of_cons (id : Z) (task : SycChunkTask) (rest : list SycChunkTask) :
  tokens_of id (task :: rest)
  = ((if decide (to_size_t (cmpl_id task) = id)
      then length (tokens_text (input_chunk_ task)) else 0)
     + tokens_of id rest)%nat.
Proof.
  unfold tokens_of. rewrite filter_cons.
  destruct (decide _); [| done]. cbn [map mjoin]. apply length_app.
Qed.

Lemma length_task_stream (task : SycChunkTask) (n : Z) :
  length (task_stream task n) = length (tokens_text (input_chunk_ task)).
Proof.
  unfold task_stream. destruct (is_last_chunk task).
  - by rewrite length_flag_last, length_added.
  - apply length_added.
Qed.

Lemma length_buffer_stream (text_buffer : list SycChunkTask) (seqs : gmap Z LlamaSeqState) :
  length (buffer_stream text_buffer seqs) = text_size text_buffer.
Proof.
  revert seqs. induction text_buffer as [|task rest IH]; intros seqs; [done |].
  cbn [buffer_stream]. by rewrite length_app, length_task_stream, IH, text_size_cons.
Qed.

Lemma buffer_loop_spec (fuel : nat) (n_batch : Z) (text_buffer : list SycChunkTask)
      (status : list BatchScheduler.TaskStatus) :
  0 < n_batch -> Z.of_nat (length text_buffer) + 1 < 2 ^ 31 ->
  forall (rest : list SycChunkTask) (i : nat) (before : list batch_token) (b : batcher),
    (forall j task, rest !! j = Some task -> text_buffer !! (i + j)%nat = Some task) ->
    (i + length rest = length text_buffer)%nat ->
    (text_size rest < fuel)%nat ->
    (forall id, 0 <= n_past (seq_state id (process_seqs (llm_scheduler_ b)))
                /\ n_past (seq_state id (process_seqs (llm_scheduler_ b)))
                   + Z.of_nat (text_size rest) < 2 ^ 31) ->
    forming n_batch text_buffer status i before
            (fun id => n_past (seq_state id (process_seqs (llm_scheduler_ b)))) b ->
    exists b',
      buffer_loop fuel n_batch (Z.of_nat i) rest b = Some b'
      /\ forming n_batch text_buffer status (length text_buffer)
                 (before ++ buffer_stream rest (process_seqs (llm_scheduler_ b)))
                 (fun id => n_past (seq_state id (process_seqs (llm_scheduler_ b)))
                            + Z.of_nat (tokens_of id rest)) b'.
Proof.
  intros Hbatch Hlen rest. induction rest as [|task rest IH];
    intros i before b Hrest Hi Hfuel Hpos Hb.
  - exists b. split; [done |]. simpl in Hi. rewrite Nat.add_0_r in Hi. subst i.
    cbn [buffer_stream]. rewrite app_nil_r.
    eapply forming_positions_ext; [| exact Hb].
    intros id. unfold tokens_of. rewrite filter_nil. simpl. lia.
  - cbn [buffer_loop]. rewrite text_size_cons in Hfuel, Hpos.
    cbn [length] in Hi.
    set (id0 := to_size_t (cmpl_id task)).
    set (n0 := n_past (seq_state id0 (process_seqs (llm_scheduler_ b)))).
    destruct (task_formed n_batch text_buffer status i task before
                (fun id => n_past (seq_state id (process_seqs (llm_scheduler_ b)))) n0)
      with (fuel := fuel) (b := b) as (b1 & Hrun & Hb1).
    { done. }
    { specialize (Hrest 0%nat task eq_refl). by rewrite Nat.add_0_r in Hrest. }
    { lia. }
    { apply Hpos. }
    { specialize (Hpos id0). fold n0 in Hpos. lia. }
    { lia. }
    { done. }
    { done. }
    rewrite Hrun. replace (Z.of_nat i + 1) with (Z.of_nat (S i)) by lia.
    pose proof (formed_positions _ _ _ _ _ _ _ Hb1) as Hnext.
    destruct (IH (S i) (before ++ task_stream task n0) b1) as (b' & Hloop & Hb').
    + intros j task' Hj. replace (S i + j)%nat with (i + S j)%nat by lia.
      by apply Hrest.
    + lia.
    + lia.
    + intros id. rewrite Hnext. specialize (Hpos id).
      subst n0 id0. destruct (decide _) as [<- | ?]; lia.
    + eapply forming_positions_ext; [| exact Hb1]. intros id. by rewrite Hnext.
    + exists b'. split; [done |].
      cbn [buffer_stream]. fold id0 n0.
      replace (buffer_stream rest (store_n_past id0
                 (n0 + Z.of_nat (length (tokens_text (input_chunk_ task))))
                 (process_seqs (llm_scheduler_ b))))
        with (buffer_stream rest (process_seqs (llm_scheduler_ b1))).
      2:{ apply buffer_stream_ext. intros id.
          by rewrite Hnext, n_past_store_n_past. }
      rewrite app_assoc.
      eapply forming_positions_ext; [| exact Hb'].
      intros id. cbn beta. rewrite Hnext, tokens_of_cons. fold id0.
      destruct (decide (id0 = id)) as [<- | ?]; subst n0; lia.
Qed.

(** [process_text_batch] reaches its last test with the invariant. *)
Lemma buffer_formed (fuel : nat) (n_batch : Z) (text_buffer : list SycChunkTask)
      (s : scheduler) (status : list BatchScheduler.TaskStatus) :
  0 < n_batch -> Z.of_nat (length text_buffer) + 1 < 2 ^ 31 ->
  (text_size text_buffer < fuel)%nat ->
  (forall id, 0 <= n_past (seq_state id (process_seqs s))
              /\ n_past (seq_state id (process_seqs s))
                 + Z.of_nat (text_size text_buffer) < 2 ^ 31) ->
  length status = length text_buffer ->
  exists b,
    buffer_loop fuel n_batch 0 text_buffer
                {| text_batch := []; last_uncomplie := 0; submitted := [];
                   llm_scheduler_ := s; statuses := status |} = Some b
    /\ forming n_batch text_buffer status (length text_buffer)
               (buffer_stream text_buffer (process_seqs s))
               (fun id => n_past (seq_state id (process_seqs s))
                          + Z.of_nat (tokens_of id text_buffer)) b.
Proof.
  intros Hbatch Hlen Hfuel Hpos Hstatus.
  apply (buffer_loop_spec fuel n_batch text_buffer status Hbatch Hlen text_buffer 0 []
           {| text_batch := []; last_uncomplie := 0; submitted := [];
              llm_scheduler_ := s; statuses := status |}); try done.
  split; cbn [text_batch last_uncomplie submitted llm_scheduler_ statuses]; try done.
  - intros t Ht. lia.
  - intros _ t task _ Ht. lia.
  - intros t Ht. lia.
Qed.

Lemma length_concat_full (n : Z) (batches : list (list batch_token)) :
  Forall (fun batch => Z.of_nat (length batch) = n) batches ->
  Z.of_nat (length (concat batches)) = n * Z.of_nat (length batches).
Proof.
  induction 1 as [|batch batches Hn _ IH]; [simpl; lia |].
  cbn [concat length]. rewrite length_app. lia.
Qed.

(** The batch in the making at the end is what is left of the tokens
    after the full batches. *)
Lemma formed_remainder (n_batch : Z) (text_buffer : list SycChunkTask)
      (status : list BatchScheduler.TaskStatus) (i : nat) (seqs : gmap Z LlamaSeqState)
      (positions : Z -> Z) (b : batcher) :
  0 < n_batch ->
  forming n_batch text_buffer status i (buffer_stream text_buffer seqs) positions b ->
  Z.of_nat (length (text_batch b)) = Z.of_nat (text_size text_buffer) mod n_batch.
Proof.
  intros Hbatch [B1 B2 B3 _ _ _ _ _ _ _].
  apply (f_equal length) in B1.
  rewrite length_app, length_buffer_stream in B1.
  pose proof (length_concat_full _ _ B2) as Hfull.
  replace (Z.of_nat (text_size text_buffer))
    with (Z.of_nat (length (text_batch b)) + Z.of_nat (length (submitted b)) * n_batch)
    by lia.
  rewrite Z_mod_plus_full. symmetry. apply Z.mod_small. lia.
Qed.

(** X27: with a batch size of at least one, [process_text_batch] comes
    to an end, and the batches it hands to [submit_token_infer], one
    after another, are the tokens of the buffer's tasks in order, each
    at the next position of its sequence and the last token of a last
    chunk asking for logits; no batch is empty or longer than [n_batch],
    and every batch but the last holds exactly [n_batch] tokens. *)
Theorem process_text_batch_cuts_stream (fuel : nat) (n_batch : Z)
        (text_buffer : list SycChunkTask) (s : scheduler)
        (status : list BatchScheduler.TaskStatus) :
  0 < n_batch -> Z.of_nat (length text_buffer) + 1 < 2 ^ 31 ->
  (text_size text_buffer < fuel)%nat ->
  (forall id, 0 <= n_past (seq_state id (process_seqs s))
              /\ n_past (seq_state id (process_seqs s))
                 + Z.of_nat (text_size text_buffer) < 2 ^ 31) ->
  length status = length text_buffer ->
  exists b,
    process_text_batch fuel n_batch text_buffer s status = Some b
    /\ concat (submitted b) = buffer_stream text_buffer (process_seqs s)
    /\ Forall (fun batch => 0 < Z.of_nat (length batch) <= n_batch) (submitted b)
    /\ forall front last, submitted b = front ++ [last] ->
         Forall (fun batch => Z.of_nat (length batch) = n_batch) front.
Proof.
  intros Hbatch Hlen Hfuel Hpos Hstatus.
  destruct (buffer_formed fuel n_batch text_buffer s status) as (b0 & Hrun & Hb0);
    try done.
  unfold process_text_batch. rewrite Hrun.
  destruct Hb0 as [B1 B2 B3 _ _ _ _ _ _ _].
  assert (Hfull : Forall (fun batch => 0 < Z.of_nat (length batch) <= n_batch) (submitted b0)).
  { eapply Forall_impl; [exact B2 |]. intros batch Hn. cbv beta in Hn. lia. }
  destruct (Z.ltb_spec 0 (Z.of_nat (length (text_batch b0)))) as [Hsome | Hnone].
  - eexists. split; [reflexivity |]. cbn [submitted].
    split; [| split].
    + rewrite concat_app. simpl. by rewrite app_nil_r.
    + apply Forall_app. split; [done |]. apply Forall_singleton. lia.
    + intros front last [Heq _]%app_inj_tail. by rewrite <- Heq.
  - exists b0. split; [done |].
    assert (text_batch b0 = []) as Hnil by (destruct (text_batch b0); [done | simpl in Hnone; lia]).
    rewrite Hnil, app_nil_r in B1.
    split; [done |]. split; [done |].
    intros front last Hsub. rewrite Hsub in B2. by apply Forall_app in B2 as [? _].
Qed.

(** X28: when [process_text_batch] is done, the [n_past] of every
    sequence has moved on by the number of tokens the buffer held for
    that sequence, and by nothing else. *)
Theorem process_text_batch_advances_n_past (fuel : nat) (n_batch : Z)
        (text_buffer : list SycChunkTask) (s : scheduler)
        (status : list BatchScheduler.TaskStatus) :
  0 < n_batch -> Z.of_nat (length text_buffer) + 1 < 2 ^ 31 ->
  (text_size text_buffer < fuel)%nat ->
  (forall id, 0 <= n_past (seq_state id (process_seqs s))
              /\ n_past (seq_state id (process_seqs s))
                 + Z.of_nat (text_size text_buffer) < 2 ^ 31) ->
  length status = length text_buffer ->
  exists b,
    process_text_batch fuel n_batch text_buffer s status = Some b
    /\ forall id, n_past (seq_state id (process_seqs (llm_scheduler_ b)))
                  = n_past (seq_state id (process_seqs s))
                    + Z.of_nat (tokens_of id text_buffer).
Proof.
  intros Hbatch Hlen Hfuel Hpos Hstatus.
  destruct (buffer_formed fuel n_batch text_buffer s status) as (b0 & Hrun & Hb0);
    try done.
  unfold process_text_batch. rewrite Hrun.
  pose proof (formed_positions _ _ _ _ _ _ _ Hb0) as Hnext.
  destruct (0 <? Z.of_nat (length (text_batch b0))).
  - eexists. split; [reflexivity |]. exact Hnext.
  - exists b0. by split.
Qed.

(** X29: when [process_text_batch] is done, every task that has tokens,
    and every task before it in the buffer, is [IN_PROGRESS]. *)
Theorem process_text_batch_marks_tasks (fuel : nat) (n_batch : Z)
        (text_buffer : list SycChunkTask) (s : scheduler)
        (status : list BatchScheduler.TaskStatus) :
  0 < n_batch -> Z.of_nat (length text_buffer) + 1 < 2 ^ 31 ->
  (text_size text_buffer < fuel)%nat ->
  (forall id, 0 <= n_past (seq_state id (process_seqs s))
              /\ n_past (seq_state id (process_seqs s))
                 + Z.of_nat (text_size text_buffer) < 2 ^ 31) ->
  length status = length text_buffer ->
  exists b,
    process_text_batch fuel n_batch text_buffer s status = Some b
    /\ forall t t' task,
         (t <= t')%nat -> text_buffer !! t' = Some task ->
         tokens_text (input_chunk_ task) <> [] ->
         statuses b !! t = Some BatchScheduler.IN_PROGRESS.
Proof.
  intros Hbatch Hlen Hfuel Hpos Hstatus.
  destruct (buffer_formed fuel n_batch text_buffer s status) as (b0 & Hrun & Hb0);
    try done.
  unfold process_text_batch. rewrite Hrun.
  destruct Hb0 as [_ _ _ _ B5 B6 B7 B8 _ _].
  destruct (Z.ltb_spec 0 (Z.of_nat (length (text_batch b0)))) as [Hsome | Hnone].
  - eexists. split; [reflexivity |]. cbn [statuses].
    intros t t' task Ht Htask _. apply lookup_lt_Some in Htask.
    rewrite mark_in_progress_lookup by lia.
    destruct (decide _) as [_ | Hnot]; [done |].
    apply B6; lia.
  - exists b0. split; [done |].
    assert (text_batch b0 = []) as Hnil by (destruct (text_batch b0); [done | simpl in Hnone; lia]).
    intros t t' task Ht Htask Htokens.
    pose proof (lookup_lt_Some _ _ _ Htask) as Hlt.
    destruct (decide (last_uncomplie b0 <= Z.of_nat t')) as [Hpending | Hmarked].
    + destruct Htokens. by apply (B7 Hnil t' task).
    + apply B6; lia.
Qed.

(** X30: a task without tokens that no task with tokens follows is
    marked only when a batch that is not full is left at the end: when
    the tokens of the buffer fill whole batches, it keeps the status it
    came with; otherwise every task of the buffer is [IN_PROGRESS]. *)
Theorem process_text_batch_trailing_tasks (fuel : nat) (n_batch : Z)
        (text_buffer : list SycChunkTask) (s : scheduler)
        (status : list BatchScheduler.TaskStatus) :
  0 < n_batch -> Z.of_nat (length text_buffer) + 1 < 2 ^ 31 ->
  (text_size text_buffer < fuel)%nat ->
  (forall id, 0 <= n_past (seq_state id (process_seqs s))
              /\ n_past (seq_state id (process_seqs s))
                 + Z.of_nat (text_size text_buffer) < 2 ^ 31) ->
  length status = length text_buffer ->
  exists b,
    process_text_batch fuel n_batch text_buffer s status = Some b
    /\ (Z.of_nat (text_size text_buffer) mod n_batch = 0 ->
        forall t, (forall t' task, (t <= t')%nat -> text_buffer !! t' = Some task ->
                                   tokens_text (input_chunk_ task) = []) ->
                  statuses b !! t = status !! t)
    /\ (Z.of_nat (text_size text_buffer) mod n_batch <> 0 ->
        forall t, (t < length text_buffer)%nat ->
                  statuses b !! t = Some BatchScheduler.IN_PROGRESS).
Proof.
  intros Hbatch Hlen Hfuel Hpos Hstatus.
  destruct (buffer_formed fuel n_batch text_buffer s status) as (b0 & Hrun & Hb0);
    try done.
  unfold process_text_batch. rewrite Hrun.
  pose proof (formed_remainder _ _ _ _ _ _ _ Hbatch Hb0) as Hleft.
  destruct Hb0 as [_ _ _ _ B5 B6 B7 B8 B9 B10].
  destruct (Z.ltb_spec 0 (Z.of_nat (length (text_batch b0)))) as [Hsome | Hnone].
  - eexists. split; [reflexivity |]. cbn [statuses]. split; [lia |].
    intros _ t Ht. rewrite mark_in_progress_lookup by lia.
    destruct (decide _) as [_ | Hnot]; [done |].
    apply B6; lia.
  - exists b0. split; [done |]. split; [| lia].
    intros _ t Hempty. apply B9.
    destruct (decide (last_uncomplie b0 <= Z.of_nat t)) as [? | Hmarked]; [done |].
    destruct (B10 t) as (t' & task & Ht' & Htask & Htokens); [lia |].
    destruct Htokens. by apply (Hempty t' task).
Qed.

End BatchFormingFacts.


(** ** The further properties on concrete runs *)

Module Instances.
Import Examples.


Lemma hash_to_hex_injective_witness :
  255 <> 2 ^ 64 - 1
  /\ ChunkHash.hash_to_hex 255 <> ChunkHash.hash_to_hex (2 ^ 64 - 1).
Proof. split; [lia |]. apply ChunkHashKeys.hash_to_hex_injective; lia. Defined.

Lemma limit_prompt_tokens_no_empty_text_witness :
  TextChunk [] ∈ padded_prompt
  /\ TextChunk [] ∉ DialogUtil.limit_prompt_tokens padded_prompt 10.
Proof.
  split.
  - unfold padded_prompt. do 2 apply list_elem_of_further. apply list_elem_of_here.
  - apply CropFacts.limit_prompt_tokens_no_empty_text. vm_compute. reflexivity.
Defined.

Lemma limit_prompt_tokens_oversize_last_image_witness :
  DialogUtil.limit_prompt_tokens ([TextChunk [1; 2]] ++ [ImageChunk "a" 9]) 10 = [].
Proof.
  apply CropFacts.limit_prompt_tokens_oversize_last_image. vm_compute. reflexivity.
Defined.

Lemma image_store_lookup_round_trip_witness :
  (ImageEmbeddingCache.lookup (ImageChunk "a" 1)
     (ImageEmbeddingCache.store 1000 (ImageChunk "a" 1) [0; 0]
        (ImageEmbeddingCache.new_cache 2 1024 0)).2).1
  = Some [0; 0].
Proof.
  destruct (ImageCacheFacts.image_store_lookup_round_trip 1000 "a" 1 [0; 0]
              (ImageEmbeddingCache.new_cache 2 1024 0)) as (_ & Hfound & _).
  - discriminate.
  - exact Hfound.
Defined.

Lemma lookup_hit_moves_key_to_back_witness :
  (ImageEmbeddingCache.lookup (ImageChunk "a" 1) full_image_cache).1 = Some [0; 0]
  /\ last (ImageEmbeddingCache.embed_order
             (ImageEmbeddingCache.lookup (ImageChunk "a" 1) full_image_cache).2)
     = Some "a".
Proof.
  destruct (ImageCacheFacts.lookup_hit_moves_key_to_back "a" 1 [0; 0] full_image_cache)
    as (Hfound & Hlast & _).
  - discriminate.
  - vm_compute. reflexivity.
  - apply (bool_decide_unpack _). vm_compute. exact I.
  - split; [exact Hfound | exact Hlast].
Defined.

Lemma scheduler_keeps_cache_in_step_witness :
  ImageEmbeddingCache.in_step (EncoderScheduler.encode_cache_ encoder_failed)
  /\ EncoderScheduler.queue_waits encoder_failed.
Proof.
  apply EncoderSchedulerStates.scheduler_keeps_cache_in_step.
  apply EncoderScheduler.reachable_process_encoder.
  apply EncoderScheduler.reachable_submit_encoder_task.
  apply (EncoderScheduler.reachable_new 100 1024 0).
Defined.

Lemma blocking_encoder_returns_encoding_witness :
  (EncoderScheduler.blocking_encoder 2 1000
     [{| EncoderScheduler.encode_ret := 0;
         EncoderScheduler.output_embd := Some [1; 2; 3; 4; 5; 6; 7; 8; 9] |}]
     (ImageChunk "img" 4) (EncoderScheduler.new_scheduler 100 1024 0)).1
  = EncoderScheduler.Returned (Some (take (Z.to_nat (Z.of_nat 4 * 2)) [1; 2; 3; 4; 5; 6; 7; 8; 9])).
Proof.
  apply EncoderSchedulerStates.blocking_encoder_returns_encoding.
  - discriminate.
  - reflexivity.
  - apply (bool_decide_unpack _). vm_compute. exact I.
  - vm_compute. reflexivity.
  - lia.
Defined.

Lemma blocking_encoder_serves_stored_witness :
  EncoderScheduler.submit_encoder_task (ImageChunk "img" 4) encoder_done = encoder_done
  /\ (EncoderScheduler.blocking_encoder 2 2000 [] (ImageChunk "img" 4) encoder_done).1
     = EncoderScheduler.Returned (Some [1; 2; 3; 4; 5; 6; 7; 8]).
Proof.
  apply EncoderSchedulerStates.blocking_encoder_serves_stored.
  - discriminate.
  - apply (bool_decide_unpack _). vm_compute. exact I.
  - vm_compute. reflexivity.
Defined.

Lemma maintain_occupancy_witness :
  Z.of_nat (length (filter (fun m => ChunkInferCache.seq_entries m.2 <> [])
                           (ChunkInferCache.use_seq_mem_
                              (ChunkInferCache.maintain full_chunk_cache))))
  = 4 * Z.of_nat (length (ChunkInferCache.use_seq_mem_ full_chunk_cache)) / 5.
Proof.
  destruct (ChunkCacheEviction.maintain_occupancy full_chunk_cache) as [Hfull _].
  - apply (bool_decide_unpack _). vm_compute. exact I.
  - vm_compute. split; reflexivity.
  - apply Hfull. apply (bool_decide_unpack _). vm_compute. exact I.
Defined.

Lemma slots_to_delete_least_recent_witness :
  ChunkInferCache.slots_to_delete (ChunkInferCache.use_seq_mem_ full_chunk_cache) = [3]
  /\ forall m, m ∈ ChunkInferCache.use_seq_mem_ full_chunk_cache -> m.1 = 2 ->
               10 <= ChunkInferCache.last_access m.2.
Proof.
  split; [vm_compute; reflexivity |]. intros m Hm H2.
  apply (ChunkCacheEviction.slots_to_delete_least_recent
           (ChunkInferCache.use_seq_mem_ full_chunk_cache)
           (3, {| ChunkInferCache.cache_seq_id := 3; ChunkInferCache.last_pos := 4;
                  ChunkInferCache.seq_entries := [0%nat];
                  ChunkInferCache.last_access := 10 |}) m).
  - apply (bool_decide_unpack _). vm_compute. exact I.
  - vm_compute. apply list_elem_of_further, list_elem_of_here.
  - exact Hm.
  - vm_compute. apply list_elem_of_here.
  - rewrite H2. vm_compute. intros Hin. apply list_elem_of_singleton in Hin. discriminate.
Defined.



Lemma prepare_unprepared_round_trip_witness :
  ChunkInferCache.unprepared "h9" (ChunkInferCache.prepare "h9" warm_cache).2 = warm_cache
  /\ ChunkInferCache.prepare "h9" (ChunkInferCache.prepare "h9" warm_cache).2
     = (false, (ChunkInferCache.prepare "h9" warm_cache).2).
Proof.
  destruct (ChunkCacheProtocol.prepare_unprepared_round_trip
              "h9" warm_cache (ChunkInferCache.prepare "h9" warm_cache).2)
    as (Hundo & _ & Hagain).
  - vm_compute. reflexivity.
  - split; [exact Hundo | exact Hagain].
Defined.

Lemma store_never_rejects_witness :
  exists c',
    ChunkInferCache.store 30 ["c0"; "c1"] 0 1 6 9 full_chunk_cache = Some (true, c')
    /\ ChunkInferCache.storing "c0" c' = true.
Proof.
  destruct (ChunkCacheProtocol.store_never_rejects 30 ["c0"; "c1"] 0 "c0" 1 6 9
              full_chunk_cache) as (c' & Hstore & Hstoring & _).
  - apply (bool_decide_unpack _). vm_compute. exact I.
  - vm_compute. split; reflexivity.
  - reflexivity.
  - exists c'. split; [exact Hstore | exact Hstoring].
Defined.



Lemma erase_seq_always_reports_success_witness :
  (MicoCommon.erase_seq 5 busy_context).1 = true
  /\ MicoCommon.cmpl_to_seq busy_context !! 7 = Some 0
  /\ MicoCommon.cmpl_to_seq busy_context !! 9 = Some 1.
Proof.
  destruct (MicoCommonFacts.erase_seq_always_reports_success 5 busy_context) as [Hdone _].
  - intros k v Hk.
    apply (map_Forall_lookup_1 (fun k _ => 0 <= k) (MicoCommon.cmpl_to_seq busy_context) k v);
      [| exact Hk].
    apply (bool_decide_unpack _). vm_compute. exact I.
  - split; [exact Hdone |]. split; vm_compute; reflexivity.
Defined.

Lemma token_job_settles_counters_witness :
  LlmScheduler.block_waitting_seq 0
    (LlmScheduler.running_seq_ (LlmScheduler.submit_token_infer last_batch idle_scheduler))
  = false
  /\ LlmScheduler.running 0
       (LlmScheduler.running_seq_
          (LlmScheduler.token_infer_task
             {| LlmScheduler.decode_ret := 0; LlmScheduler.sampled := fun _ => 42 |}
             last_batch (LlmScheduler.submit_token_infer last_batch idle_scheduler)))
     = LlmScheduler.running 0 (LlmScheduler.running_seq_ idle_scheduler).
Proof.
  destruct (LlmSchedulerFacts.token_job_settles_counters
              {| LlmScheduler.decode_ret := 0; LlmScheduler.sampled := fun _ => 42 |}
              last_batch idle_scheduler) as [Hblocked Hsettled].
  - intros k. unfold LlmScheduler.running, idle_scheduler. cbn [LlmScheduler.running_seq_].
    rewrite lookup_empty. vm_compute. split; [discriminate | reflexivity].
  - split; [| exact (Hsettled 0)].
    apply (Hblocked {| LlmScheduler.token := 11; LlmScheduler.pos := 0;
                       LlmScheduler.seq_id := 0; LlmScheduler.more_seq_ids := [];
                       LlmScheduler.logits := false |}).
    vm_compute. apply list_elem_of_here.
Defined.

Lemma idle_scheduler_positions (n : Z) (id : Z) :
  0 <= n < 2 ^ 31 ->
  0 <= MicoCommon.n_past
         (MicoCommon.seq_state id (LlmScheduler.process_seqs idle_scheduler))
  /\ MicoCommon.n_past
       (MicoCommon.seq_state id (LlmScheduler.process_seqs idle_scheduler)) + n < 2 ^ 31.
Proof.
  intros Hn. unfold MicoCommon.seq_state, idle_scheduler. cbn [LlmScheduler.process_seqs].
  rewrite lookup_empty. cbn [default MicoCommon.new_seq_state MicoCommon.n_past]. lia.
Qed.

Lemma process_text_batch_cuts_stream_witness :
  exists b,
    BatchForming.process_text_batch 10 2 text_buffer idle_scheduler text_statuses = Some b
    /\ concat (BatchForming.submitted b)
       = BatchForming.buffer_stream text_buffer (LlmScheduler.process_seqs idle_scheduler)
    /\ Forall (fun batch => 0 < Z.of_nat (length batch) <= 2) (BatchForming.submitted b).
Proof.
  destruct (BatchFormingFacts.process_text_batch_cuts_stream
              10 2 text_buffer idle_scheduler text_statuses)
    as (b & Hrun & Hstream & Hsizes & _).
  - lia.
  - vm_compute. reflexivity.
  - vm_compute. lia.
  - intros id. apply idle_scheduler_positions. vm_compute. split; [discriminate | reflexivity].
  - reflexivity.
  - exists b. by repeat split.
Defined.

Lemma process_text_batch_advances_n_past_witness :
  exists b,
    BatchForming.process_text_batch 10 2 text_buffer idle_scheduler text_statuses = Some b
    /\ MicoCommon.n_past
         (MicoCommon.seq_state 0 (LlmScheduler.process_seqs (BatchForming.llm_scheduler_ b)))
       = 0 + Z.of_nat 4.
Proof.
  destruct (BatchFormingFacts.process_text_batch_advances_n_past
              10 2 text_buffer idle_scheduler text_statuses)
    as (b & Hrun & Hnext).
  - lia.
  - vm_compute. reflexivity.
  - vm_compute. lia.
  - intros id. apply idle_scheduler_positions. vm_compute. split; [discriminate | reflexivity].
  - reflexivity.
  - exists b. split; [exact Hrun |]. exact (Hnext 0).
Defined.

Lemma process_text_batch_marks_tasks_witness :
  exists b,
    BatchForming.process_text_batch 10 2 text_buffer idle_scheduler text_statuses = Some b
    /\ BatchForming.statuses b !! 0%nat = Some BatchScheduler.IN_PROGRESS
    /\ BatchForming.statuses b !! 1%nat = Some BatchScheduler.IN_PROGRESS.
Proof.
  destruct (BatchFormingFacts.process_text_batch_marks_tasks
              10 2 text_buffer idle_scheduler text_statuses)
    as (b & Hrun & Hmarked).
  - lia.
  - vm_compute. reflexivity.
  - vm_compute. lia.
  - intros id. apply idle_scheduler_positions. vm_compute. split; [discriminate | reflexivity].
  - reflexivity.
  - exists b. split; [exact Hrun |]. split.
    + eapply (Hmarked 0%nat 1%nat); [lia | reflexivity | discriminate].
    + eapply (Hmarked 1%nat 1%nat); [lia | reflexivity | discriminate].
Defined.

Lemma process_text_batch_trailing_tasks_witness :
  exists b,
    BatchForming.process_text_batch 10 2 text_buffer idle_scheduler text_statuses = Some b
    /\ BatchForming.statuses b !! 2%nat = Some BatchScheduler.PENDING.
Proof.
  destruct (BatchFormingFacts.process_text_batch_trailing_tasks
              10 2 text_buffer idle_scheduler text_statuses)
    as (b & Hrun & Hkept & _).
  - lia.
  - vm_compute. reflexivity.
  - vm_compute. lia.
  - intros id. apply idle_scheduler_positions. vm_compute. split; [discriminate | reflexivity].
  - reflexivity.
  - exists b. split; [exact Hrun |].
    rewrite (Hkept eq_refl 2%nat); [reflexivity |].
    intros [|[|[|t']]] task Ht' Htask; try lia.
    + injection Htask as <-. reflexivity.
    + discriminate.
Defined.

End Instances.
